(** * Orbital system: solvers, physics, bodies and models

    A shallow embedding of the integration core of the orbital simulator
    ([lib/Vector.py], [lib/Body.py], [lib/Solver.py], [lib/Physics.py],
    [lib/Model.py], [library/Body.py]) and the properties of it that the
    specification states.

    Numbers.  The formulas of the program are read over the real numbers
    [R]: [+], [-], [*], [/], [numpy.sqrt], [**] and the trigonometric
    functions are the exact ones.  The substep loop of [Physics.advance]
    only uses [abs], [sign], [>], [*] and [-]; it is written once over an
    interface of these operations and instantiated both at [R] and at the
    IEEE 754 binary64 numbers the interpreter computes with
    ([PrimFloat.float]).

    Division.  A zero divisor has no quotient among the reals.  Where the
    operands are, or can be, Python floats ([OrbitModel.__init__];
    [CentralGravity.diff_eq] and [LogisticPopGrowth.diff_eq], which the
    solvers first call on the numbers a body was built with) a zero
    divisor raises [ZeroDivisionError] ([float_div]).  [numpy.float64]
    division does not raise but warns and yields [inf] or [nan]: for the
    derivative functions, which are given numbers of both kinds, the
    embedding ends at a zero divisor in either case, with the same outcome;
    in [total_energy], whose divisor is a numpy value, and in the [Vector]
    properties the total division of [R] stands for it, and the properties
    stated here keep away from a zero divisor.

    Square roots.  [numpy.sqrt] of a negative number warns and yields
    [nan].  The magnitudes of a body and of a vector are roots of sums of
    squares, never negative.  The speed [OrbitModel.__init__] computes can
    be the root of a negative number ([np_sqrt]): the program goes on with
    a body whose velocity is [nan], the embedding, which has no such
    number, ends with the outcome [NotReal].

    Failure.  A Python exception is a value of [exn]; a computation that
    may raise returns a [result]. *)

From Stdlib Require Import Floats.PrimFloat.
From Stdlib Require Import Reals Lra Lia.
From stdpp Require Import base option list gmap strings.

(** ** Exceptions and results *)

(** [NotReal] is no Python exception: it is the outcome of a computation
    that has produced [nan], which the program carries on with and which is
    no real number. *)
Inductive exn : Set :=
| IndexError
| KeyError
| TypeError
| ValueError
| AttributeError
| ZeroDivisionError
| UnboundLocalError
| NotReal.

Inductive result (A : Type) : Type :=
| Ok (a : A)
| Raise (e : exn).

Arguments Ok {A} a.
Arguments Raise {A} e.

#[global] Instance result_ret : MRet result := @Ok.

#[global] Instance result_bind : MBind result :=
  λ A B k r, match r with Ok a => k a | Raise e => Raise e end.

(** A computation with a loop is run on a budget of iterations: [None] is
    "the budget ran out", [Some r] is the outcome. *)
Definition run (A : Type) : Type := option (result A).

(** ** Numeric values ([float] and one-dimensional [numpy.ndarray])

    A state is either a scalar (a temperature, a population) or a sequence
    of components.  A Python list of floats that meets an [ndarray] in an
    arithmetic expression is coerced to an array by numpy, so both are
    [Arr]. *)
Module Np.

Inductive value : Type :=
| Num (x : R)
| Arr (a : list R).

(** [f[i]] for [i >= 0]: a float is not subscriptable, a sequence raises
    [IndexError] past its end. *)
Definition getitem (f : value) (i : nat) : result R :=
  match f with
  | Num _ => Raise TypeError
  | Arr a => match a !! i with
             | Some x => Ok x
             | None => Raise IndexError
             end
  end.

(** [f[:n]] *)
Definition slice_to (f : value) (n : nat) : result value :=
  match f with
  | Num _ => Raise TypeError
  | Arr a => Ok (Arr (take n a))
  end.

(** [u + v] with numpy's broadcasting of shapes [()], [(1,)] and [(n,)]. *)
Definition add (u v : value) : result value :=
  match u, v with
  | Num x, Num y => Ok (Num (x + y))
  | Num x, Arr b => Ok (Arr ((λ y, x + y)%R <$> b))
  | Arr a, Num y => Ok (Arr ((λ x, x + y)%R <$> a))
  | Arr a, Arr b =>
      match a, b with
      | [x], _ => Ok (Arr ((λ y, x + y)%R <$> b))
      | _, [y] => Ok (Arr ((λ x, x + y)%R <$> a))
      | _, _ =>
          if decide (length a = length b)
          then Ok (Arr (zip_with Rplus a b))
          else Raise ValueError
      end
  end.

(** [c * v] for a float [c] *)
Definition smul (c : R) (v : value) : value :=
  match v with
  | Num x => Num (c * x)
  | Arr a => Arr ((λ x, c * x)%R <$> a)
  end.

(** [v * c] for a float [c] *)
Definition mulr (v : value) (c : R) : value :=
  match v with
  | Num x => Num (x * c)
  | Arr a => Arr ((λ x, x * c)%R <$> a)
  end.

(** [numpy.append(v, m)]: the flattened [v] followed by [m]. *)
Definition append (v : value) (m : R) : value :=
  match v with
  | Num x => Arr [x; m]
  | Arr a => Arr (a ++ [m])
  end.

(** [numpy.square] and [b ** e] on floats, for the bases the program
    raises to a power: a sum of squares, hence never negative.  A zero
    base with a positive exponent gives zero. *)
Definition square (x : R) : R := (x * x)%R.

Definition power (b e : R) : R :=
  if Rlt_dec 0 b then Rpower b e else 0%R.

(** [a / b] on Python floats. *)
Definition float_div (a b : R) : result R :=
  if Req_dec_T b 0 then Raise ZeroDivisionError else Ok (a / b)%R.

(** [numpy.sqrt] on a float: [None] is [nan], the root of a negative
    number. *)
Definition np_sqrt (x : R) : option R :=
  if Rle_dec 0 x then Some (sqrt x) else None.

(** [numpy.subtract(u, v)], with the broadcasting of [add]. *)
Definition sub (u v : value) : result value :=
  match u, v with
  | Num x, Num y => Ok (Num (x - y))
  | Num x, Arr b => Ok (Arr ((λ y, x - y)%R <$> b))
  | Arr a, Num y => Ok (Arr ((λ x, x - y)%R <$> a))
  | Arr a, Arr b =>
      match a, b with
      | [x], _ => Ok (Arr ((λ y, x - y)%R <$> b))
      | _, [y] => Ok (Arr ((λ x, x - y)%R <$> a))
      | _, _ =>
          if decide (length a = length b)
          then Ok (Arr (zip_with Rminus a b))
          else Raise ValueError
      end
  end.

(** [numpy.linalg.norm] of a scalar or a one-dimensional array: the square
    root of the sum of the squares. *)
Definition norm (v : value) : R :=
  match v with
  | Num x => sqrt (x * x)
  | Arr a => sqrt (foldr (λ x s, x * x + s)%R 0%R a)
  end.

End Np.

(** ** [lib/Solver.py] *)
Module Solver.
Import Np.

(** The differential equation a solver is bound to
    ([self.physics.diff_eq]). *)
Definition diff_eq_t : Type := R → value → result value.

Inductive Solver : Set := Euler | RK2 | RK4.

Section Advance.
Variable diff_eq : diff_eq_t.

Definition Euler_advance (x : R) (f : value) (dx : R) : result (R * value) :=
  let xnext := (x + dx)%R in
  d ← diff_eq x f;
  fnext ← add f (mulr d dx);
  mret (xnext, fnext).

Definition RK2_advance (x : R) (f : value) (dx : R) : result (R * value) :=
  let xnext := (x + dx)%R in
  k1 ← diff_eq x f;
  f1 ← add f (mulr (smul 0.5 k1) dx);
  k2 ← diff_eq (x + 0.5 * dx)%R f1;
  fnext ← add f (mulr k2 dx);
  mret (xnext, fnext).

Definition RK4_advance (x : R) (f : value) (dx : R) : result (R * value) :=
  mass ← getitem f 6;
  f ← slice_to f 6;
  let xnext := (x + dx)%R in
  k1 ← diff_eq x f;
  f1 ← add f (mulr (smul 0.5 k1) dx);
  k2 ← diff_eq (x + 0.5 * dx)%R f1;
  f2 ← add f (mulr (smul 0.5 k2) dx);
  k3 ← diff_eq (x + 0.5 * dx)%R f2;
  f3 ← add f (mulr k3 dx);
  k4 ← diff_eq (x + dx)%R f3;
  s1 ← add k1 (smul 2 k2);
  s2 ← add s1 (smul 2 k3);
  s3 ← add s2 k4;
  fnext ← add f (mulr (smul (1 / 6) s3) dx);
  let fnext := append fnext mass in
  mret (xnext, fnext).

Definition advance (s : Solver) : R → value → R → result (R * value) :=
  match s with
  | Euler => Euler_advance
  | RK2 => RK2_advance
  | RK4 => RK4_advance
  end.
End Advance.

End Solver.

(** ** [lib/Body.py] *)
Module Body.
Import Np.

(** What [Physics.advance] needs of a body: the [state] property, read
    and assigned. *)
Class Body (B : Type) : Type := {
  get_state : B → value;
  set_state : B → value → result B
}.

Record ThermalBody : Type := mkThermalBody { temperature : value }.

#[global] Instance ThermalBody_Body : Body ThermalBody := {|
  get_state b := temperature b;
  set_state _ f := Ok (mkThermalBody f)
|}.

Record PopulationBody : Type := mkPopulationBody { P : value }.

#[global] Instance PopulationBody_Body : Body PopulationBody := {|
  get_state b := P b;
  set_state _ f := Ok (mkPopulationBody f)
|}.

(** [GravBody]: the seven assigned attributes and the two magnitudes
    [r] and [v] that [__init__] and the [state] setter compute. *)
Record GravBody : Type := mkGravBody {
  x : R; y : R; z : R;
  vx : R; vy : R; vz : R;
  m : R;
  r : R;
  v : R
}.

Definition GravBody_init (x y z vx vy vz m : R) : GravBody :=
  {| x := x; y := y; z := z; vx := vx; vy := vy; vz := vz; m := m;
     r := sqrt (square x + square y + square z);
     v := sqrt (square vx + square vy + square vz) |}.

Definition pos (self : GravBody) : R := r self.
Definition vel (self : GravBody) : R := v self.

Definition state (self : GravBody) : value :=
  Arr [x self; y self; z self; vx self; vy self; vz self; m self].

Definition state_set (self : GravBody) (f : value) : result GravBody :=
  f0 ← getitem f 0;
  f1 ← getitem f 1;
  f2 ← getitem f 2;
  f3 ← getitem f 3;
  f4 ← getitem f 4;
  f5 ← getitem f 5;
  f6 ← getitem f 6;
  mret {| x := f0; y := f1; z := f2; vx := f3; vy := f4; vz := f5; m := f6;
          r := sqrt (square f0 + square f1 + square f2);
          v := sqrt (square f3 + square f4 + square f5) |}.

#[global] Instance GravBody_Body : Body GravBody := {|
  get_state := state;
  set_state := state_set
|}.

End Body.

(** ** [lib/Physics.py] *)
Module Physics.
Import Np Solver Body.

(** *** The arithmetic of the substep loop *)
Class Float (num : Type) : Type := {
  f_zero : num;
  f_abs : num → num;
  f_sign : num → num;
  f_gt : num → num → bool;
  f_mul : num → num → num;
  f_sub : num → num → num
}.

Definition Rgtb (a b : R) : bool := if Rgt_dec a b then true else false.

(** [numpy.sign] *)
Definition Rsign (a : R) : R :=
  if Rlt_dec a 0 then (-1)%R else if Rgt_dec a 0 then 1%R else 0%R.

#[global] Instance R_Float : Float R := {|
  f_zero := 0%R;
  f_abs := Rabs;
  f_sign := Rsign;
  f_gt := Rgtb;
  f_mul := Rmult;
  f_sub := Rminus
|}.

Definition b64_sign (a : float) : float :=
  if PrimFloat.ltb a 0%float then (-1)%float
  else if PrimFloat.ltb 0%float a then 1%float
  else if PrimFloat.eqb a 0%float then 0%float
  else PrimFloat.nan.

#[global] Instance b64_Float : Float float := {|
  f_zero := 0%float;
  f_abs := PrimFloat.abs;
  f_sign := b64_sign;
  f_gt a b := PrimFloat.ltb b a;
  f_mul := PrimFloat.mul;
  f_sub := PrimFloat.sub
|}.

(** *** [Physics.advance]

    [solver_advance] is [self.solver.advance]; [state_of] and
    [state_set] are the [state] property of the body; [dt_max] is
    [self.dt_max].  One unit of [fuel] pays for one turn of the
    [while]. *)
Section AdvanceLoop.
Context {num : Type} `{Float num} {st B : Type}.
Variable solver_advance : num → st → num → result (num * st).
Variable state_of : B → st.
Variable state_set : B → st → result B.
Variable dt_max : num.

Definition substep (dt : num) : num :=
  if f_gt (f_abs dt) dt_max then f_mul dt_max (f_sign dt) else dt.

Fixpoint advance_loop (fuel : nat) (t : num) (body : B) (dt : num)
  : run (num * B) :=
  if f_gt (f_abs dt) f_zero then
    match fuel with
    | O => None
    | S fuel =>
        let step := substep dt in
        match solver_advance t (state_of body) step with
        | Raise e => Some (Raise e)
        | Ok (t, s) =>
            match state_set body s with
            | Raise e => Some (Raise e)
            | Ok body => advance_loop fuel t body (f_sub dt step)
            end
        end
    end
  else Some (Ok (t, body)).
End AdvanceLoop.

(** *** The physics variants *)
Inductive Law : Type :=
| CoolingLaw (Ta k : R)
| CentralGravityLaw (G M : R)
| UniformGravityLaw (g : R)
| LogisticPopGrowthLaw (r N : R).

Record Physics : Type := mkPhysics {
  solver : Solver;
  dt_max : R;
  law : Law
}.

(** [Physics.__init__(self, solver, dt_max=0.001)] *)
Definition default_dt_max : R := 0.001%R.

Definition Physics_init (solver : Solver) (l : Law) : Physics :=
  {| solver := solver; dt_max := default_dt_max; law := l |}.

(** [super.dt_max]: [super], not called, is the builtin type, and a
    type has no attribute [dt_max]. *)
Definition builtin_super_getattr (attr : string) : result R :=
  Raise AttributeError.

(** [Cooling.__init__]: after the three assignments,
    [self.dt_max = super.dt_max] is evaluated before
    [super().__init__(solver)] can set [dt_max]. *)
Definition Cooling_init (solver : Solver) (Ta k : R) : result Physics :=
  _ ← builtin_super_getattr "dt_max";
  mret (Physics_init solver (CoolingLaw Ta k)).

(** [CentralGravity.__init__(self, solver, planetMass=1,
    gravConstant=4*np.pi**2)] *)
Definition default_planetMass : R := 1%R.
Definition default_gravConstant : R := (4 * PI ^ 2)%R.

Definition CentralGravity_init (solver : Solver) (planetMass gravConstant : R)
  : Physics :=
  Physics_init solver (CentralGravityLaw gravConstant planetMass).

Definition UniformGravity_init (solver : Solver) : Physics :=
  Physics_init solver (UniformGravityLaw (-9.81)%R).

Definition LogisticPopGrowth_init (solver : Solver) (r N : R) : Physics :=
  Physics_init solver (LogisticPopGrowthLaw r N).

(** [Cooling.diff_eq]: [k*(Ta-T)] *)
Definition Cooling_diff_eq (Ta k : R) (t : R) (T : value) : result value :=
  mret match T with
       | Num T => Num (k * (Ta - T))
       | Arr a => Arr ((λ T, k * (Ta - T))%R <$> a)
       end.

(** [CentralGravity.diff_eq] *)
Definition CentralGravity_diff_eq (G M : R) (t : R) (f : value) : result value :=
  f0 ← getitem f 0;
  f1 ← getitem f 1;
  f2 ← getitem f 2;
  let rad := power (f0 ^ 2 + f1 ^ 2 + f2 ^ 2) (3 / 2) in
  drxdt ← getitem f 3;
  drydt ← getitem f 4;
  drzdt ← getitem f 5;
  let k := (G * M)%R in
  dvxdt ← float_div (- (k * f0)) rad;
  dvydt ← float_div (- (k * f1)) rad;
  dvzdt ← float_div (- (k * f2)) rad;
  mret (Arr [drxdt; drydt; drzdt; dvxdt; dvydt; dvzdt]).

(** [UniformGravity.diff_eq] *)
Definition UniformGravity_diff_eq (g : R) (t : R) (f : value) : result value :=
  drdt ← getitem f 1;
  let dvdt := g in
  mret (Arr [drdt; dvdt]).

(** [LogisticPopGrowth.diff_eq]: [r*P*(1-P/N)].  On a float population
    [P/N] is a division of Python floats; on an array it is numpy's, which
    for [N = 0] fills the array with [inf] and [nan]. *)
Definition LogisticPopGrowth_diff_eq (r N : R) (t : R) (P : value) : result value :=
  match P with
  | Num P => q ← float_div P N; mret (Num (r * P * (1 - q)))
  | Arr a =>
      if Req_dec_T N 0
      then match a with [] => Ok (Arr []) | _ => Raise NotReal end
      else Ok (Arr ((λ P, r * P * (1 - P / N))%R <$> a))
  end.

Definition diff_eq (self : Physics) : diff_eq_t :=
  match law self with
  | CoolingLaw Ta k => Cooling_diff_eq Ta k
  | CentralGravityLaw G M => CentralGravity_diff_eq G M
  | UniformGravityLaw g => UniformGravity_diff_eq g
  | LogisticPopGrowthLaw r N => LogisticPopGrowth_diff_eq r N
  end.

(** [Physics.advance], over the reals, with the solver bound to this
    physics ([self.solver.physics = self]). *)
Definition advance `{Body B} (self : Physics) (fuel : nat)
    (t : R) (body : B) (dt : R) : run (R * B) :=
  advance_loop (Solver.advance (diff_eq self) (solver self))
    get_state set_state (dt_max self) fuel t body dt.

End Physics.

(** ** [lib/Vector.py] *)
Module Vector.

Record Vector : Type := mkVector { x : R; y : R }.

(** [numpy.rad2deg] and [numpy.deg2rad] *)
Definition rad2deg (a : R) : R := (a * (180 / PI))%R.
Definition deg2rad (d : R) : R := (d * (PI / 180))%R.

Definition r (self : Vector) : R :=
  sqrt (Np.square (x self) + Np.square (y self)).

Definition r_set (self : Vector) (val : R) : Vector :=
  let ratio := (r self / val)%R in
  let self := {| x := x self / ratio; y := y self |} in
  {| x := x self; y := y self / ratio |}.

Definition theta (self : Vector) : R :=
  rad2deg (atan (y self / x self)).

Definition theta_set (self : Vector) (val : R) : Vector :=
  let currentR := r self in
  let self := {| x := currentR * cos (deg2rad val); y := y self |} in
  {| x := x self; y := currentR * sin (deg2rad val) |}.

Definition mul (self : Vector) (val : R) : Vector :=
  let xNew := (x self * val)%R in
  let yNew := (y self * val)%R in
  mkVector xNew yNew.

Definition add (self newVec : Vector) : Vector :=
  let xNew := (x self + x newVec)%R in
  let yNew := (y self + y newVec)%R in
  mkVector xNew yNew.

End Vector.

(** ** [lib/Model.py] *)
Module Model.
Import Np Solver Body Physics.

(** A model holds its bodies in [bodies].  The dictionary of an
    [OrbitModel] holds the same objects: [dic] maps a name to the place
    of its body in [bodies], so that a body advanced through the list is
    the body the name resolves to. *)
Record Model : Type := mkModel {
  bodies : list GravBody;
  physics : Physics.Physics;
  time : R
}.

Record OrbitModel : Type := mkOrbitModel {
  super : Model;
  dic : gmap string nat
}.

(** [Model.__init__(self, physics, bodies, time=0)] *)
Definition Model_init (physics : Physics.Physics) (bodies : list GravBody) : Model :=
  {| bodies := bodies; physics := physics; time := 0%R |}.

(** [l[i]] on a Python list and [d[k]] on a dictionary. *)
Definition list_getitem {A : Type} (l : list A) (i : nat) : result A :=
  match l !! i with
  | Some a => Ok a
  | None => Raise IndexError
  end.

Definition dict_getitem {A : Type} (d : gmap string A) (k : string) : result A :=
  match d !! k with
  | Some a => Ok a
  | None => Raise KeyError
  end.

(** [for i in l: s = body(s, i)] *)
Fixpoint for_each {S I : Type} (body : S → I → result S) (s : S) (l : list I)
  : result S :=
  match l with
  | [] => Ok s
  | i :: l => s ← body s i; for_each body s l
  end.

(** One turn of the loop of [OrbitModel.__init__]; the state of the loop
    is [(bodies, dic)].  A body whose speed is [nan] is [None] in
    [bodies]. *)
Definition OrbitModel_init_body (aList eList masses : list R) (names : list string)
    (s : list (option GravBody) * gmap string nat) (i : nat)
  : result (list (option GravBody) * gmap string nat) :=
  let '(bodies, dic) := s in
  let G := (4 * PI ^ 2)%R in
  let gravParam := (G * 1)%R in
  a ← list_getitem aList i;
  e ← list_getitem eList i;
  let parahelionDist := (a * (1 - e))%R in
  weirdTerm ← float_div (1 + e) (1 - e);
  q ← float_div (gravParam * 1 * weirdTerm) a;
  let yVel := np_sqrt q in
  mass ← list_getitem masses i;
  let newBody := (λ yVel, GravBody_init parahelionDist 0 0 0 yVel 0 mass) <$> yVel in
  let ref := length bodies in
  let bodies := bodies ++ [newBody] in
  name ← list_getitem names i;
  let dic := <[name := ref]> dic in
  mret (bodies, dic).

(** The bodies of a list none of which holds a [nan]. *)
Fixpoint real_bodies (bodies : list (option GravBody)) : result (list GravBody) :=
  match bodies with
  | [] => Ok []
  | None :: _ => Raise NotReal
  | Some b :: bodies => bodies ← real_bodies bodies; mret (b :: bodies)
  end.

(** [OrbitModel.__init__(self, aList, eList, masses, names)].  The loop
    runs to its end, or to the exception it raises, also past a body whose
    speed is [nan]; the model the program then builds holds that body, and
    is no model over the reals. *)
Definition OrbitModel_init (aList eList masses : list R) (names : list string)
  : result OrbitModel :=
  '(bodies, dic) ← for_each (OrbitModel_init_body aList eList masses names)
                     ([], ∅) (seq 0 (length aList));
  let RK4 := Solver.RK4 in
  let grav := CentralGravity_init RK4 default_planetMass default_gravConstant in
  bodies ← real_bodies bodies;
  mret {| super := Model_init grav bodies; dic := dic |}.

(** One turn of the loop of [Model.advance]; the state of the loop is
    [(tn, self.bodies)], with [tn] unbound before the first turn. *)
Definition advance_body (physics : Physics.Physics) (fuel : nat) (time t : R)
    (s : option R * list GravBody) (i : nat)
  : run (option R * list GravBody) :=
  let '(_, bodies) := s in
  match list_getitem bodies i with
  | Raise e => Some (Raise e)
  | Ok currentBody =>
      match Physics.advance physics fuel time currentBody t with
      | None => None
      | Some (Raise e) => Some (Raise e)
      | Some (Ok (tn, body)) => Some (Ok (Some tn, <[i := body]> bodies))
      end
  end.

Fixpoint advance_bodies (physics : Physics.Physics) (fuel : nat) (time t : R)
    (s : option R * list GravBody) (l : list nat)
  : run (option R * list GravBody) :=
  match l with
  | [] => Some (Ok s)
  | i :: l =>
      match advance_body physics fuel time t s i with
      | None => None
      | Some (Raise e) => Some (Raise e)
      | Some (Ok s) => advance_bodies physics fuel time t s l
      end
  end.

(** [Model.advance(self, t)]: the new time and the model it leaves. *)
Definition advance (fuel : nat) (self : Model) (t : R) : run (R * Model) :=
  match advance_bodies (physics self) fuel (time self) t
          (None, bodies self) (seq 0 (length (bodies self))) with
  | None => None
  | Some (Raise e) => Some (Raise e)
  | Some (Ok (None, _)) => Some (Raise UnboundLocalError)
  | Some (Ok (Some tn, bodies)) =>
      Some (Ok (tn, {| bodies := bodies; physics := physics self; time := tn |}))
  end.

Definition OrbitModel_advance (fuel : nat) (self : OrbitModel) (t : R)
  : run (R * OrbitModel) :=
  match advance fuel (super self) t with
  | None => None
  | Some (Raise e) => Some (Raise e)
  | Some (Ok (tn, m)) => Some (Ok (tn, {| super := m; dic := dic self |}))
  end.

(** The methods below assign nothing; each returns its outcome and the
    model it leaves. *)

(** [OrbitModel.get_body(self, name)]: the body object, as its place in
    [bodies]. *)
Definition get_body (self : OrbitModel) (name : string)
  : result nat * OrbitModel :=
  (dict_getitem (dic self) name, self).

(** [OrbitModel.total_energy(self, name)].  [None] stands for a name
    bound to no object of [bodies], which no model built by
    [OrbitModel_init] has. *)
Definition total_energy (self : OrbitModel) (name : string)
  : option (result R) * OrbitModel :=
  match get_body self name with
  | (Raise e, self) => (Some (Raise e), self)
  | (Ok p, self) =>
      match bodies (super self) !! p with
      | None => (None, self)
      | Some p =>
          (Some (pMass ← getitem (state p) 6;
                 let rad := pos p in
                 let v := vel p in
                 let GM := (4 * PI ^ 2)%R in
                 let pot := (GM * pMass / rad)%R in
                 let ke := (0.5 * pMass * v ^ 2)%R in
                 mret (pot + ke)%R),
           self)
      end
  end.

(** [EnragedAvian]: a model of one body, [self.avian], which is the body
    at place 0 of [bodies], and the position of the target. *)
Record EnragedAvian : Type := mkEnragedAvian {
  avian_super : Model;
  porcinePos : value
}.

Definition EnragedAvian_init (avianPos avianVel porcinePos : value)
  : result EnragedAvian :=
  p0 ← getitem avianPos 0;
  p1 ← getitem avianPos 1;
  p2 ← getitem avianPos 2;
  v0 ← getitem avianVel 0;
  v1 ← getitem avianVel 1;
  v2 ← getitem avianVel 2;
  let avian := GravBody_init p0 p1 p2 v0 v1 v2 1.0 in
  let RK4 := Solver.RK4 in
  let grav := CentralGravity_init RK4 default_planetMass default_gravConstant in
  mret {| avian_super := Model_init grav [avian]; porcinePos := porcinePos |}.

(** [EnragedAvian.distance(self)].  [None] stands for a model without its
    body, which [EnragedAvian_init] does not build. *)
Definition distance (self : EnragedAvian) : option (result R) :=
  match bodies (avian_super self) !! 0 with
  | None => None
  | Some avian =>
      Some (avianPos ← slice_to (state avian) 3;
            d ← sub (porcinePos self) avianPos;
            mret (norm d))
  end.

End Model.

(** ** [library/Body.py]: the vectorized collection *)
Module Library.
Import Model.

(** The [GravBody] of the library: a state row and a mass.  The
    collection is modelled with the bodies it holds as values; what the
    properties below speak of is its own matrix, masses and dictionary. *)
Module GravBody.
Record GravBody : Type := mkGravBody {
  state : list R;
  mass : R
}.
End GravBody.

Module GravBodies.

(** The state matrix is a list of rows; [_dict] maps a name to a row
    index. *)
Record GravBodies : Type := mkGravBodies {
  _bodies : list GravBody.GravBody;
  state : list (list R);
  mass : list R;
  _dict : gmap string nat
}.

(** An index is a position or a name ([isinstance(index, str)]). *)
Inductive index : Type :=
| Pos (i : nat)
| Name (s : string).

Definition len (self : GravBodies) : nat := length (state self).

Definition resolve (self : GravBodies) (i : index) : result nat :=
  match i with
  | Name s => dict_getitem (_dict self) s
  | Pos i => Ok i
  end.

(** [self[index]] for a position or a name: the body is handed out
    with the current row as its state. *)
Definition getitem (self : GravBodies) (i : index)
  : result (GravBody.GravBody * GravBodies) :=
  i ← resolve self i;
  row ← list_getitem (state self) i;
  b ← list_getitem (_bodies self) i;
  let b := {| GravBody.state := row; GravBody.mass := GravBody.mass b |} in
  mret (b, {| _bodies := <[i := b]> (_bodies self); state := state self;
              mass := mass self; _dict := _dict self |}).

(** [numpy.delete(a, i)] (along the first axis) and [list.pop(i)] *)
Definition np_delete {A : Type} (a : list A) (i : nat) : result (list A) :=
  if decide (i < length a) then Ok (delete i a) else Raise IndexError.

(** One turn of the scan of the dictionary in [pop]. *)
Definition pop_scan (i : nat) (d : gmap string nat) (name : string)
  : result (gmap string nat) :=
  v ← dict_getitem d name;
  if decide (v = i) then mret (delete name d)
  else if decide (i < v) then mret (<[name := v - 1]> d)
  else mret d.

(** [list(self._dict.keys())].  A [gmap] lists its keys in an order of its
    own, not in the order of insertion; each turn of the scan touches the
    entry of its own key only, and the outcome is the same in any order
    ([pop_scan_for_each]). *)
Definition keys (d : gmap string nat) : list string := (map_to_list d).*1.

Definition pop (self : GravBodies) (i : index)
  : result (GravBody.GravBody * GravBodies) :=
  i ← resolve self i;
  '(ret, self) ← getitem self (Pos i);
  state ← np_delete (state self) i;
  mass ← np_delete (mass self) i;
  d ← for_each (pop_scan i) (_dict self) (keys (_dict self));
  bodies ← np_delete (_bodies self) i;
  mret (ret, {| _bodies := bodies; state := state; mass := mass; _dict := d |}).

(** [a[i, :] = v] on a row of the matrix: the row takes the values of [v],
    a one-component [v] being broadcast over it; any other length that is
    not the length of the row raises [ValueError]. *)
Definition row_assign (row v : list R) : result (list R) :=
  match v with
  | [c] => Ok (replicate (length row) c)
  | _ => if decide (length v = length row) then Ok v else Raise ValueError
  end.

(** [self[index] = body] for a position or a name (a slice is refused by
    the code with [ValueError], and is not an [index] here): the row of the
    matrix is assigned first, then the entry of the list of bodies; the
    array of masses is not touched. *)
Definition setitem (self : GravBodies) (i : index) (body : GravBody.GravBody)
  : result GravBodies :=
  i ← resolve self i;
  row ← list_getitem (state self) i;
  row ← row_assign row (GravBody.state body);
  let state := <[i := row]> (state self) in
  _ ← list_getitem (_bodies self) i;
  mret {| _bodies := <[i := body]> (_bodies self); state := state;
          mass := mass self; _dict := _dict self |}.

End GravBodies.
End Library.

(** * Vocabulary of the properties *)

Import Np.

Import Solver.

(** Two states have the same shape: both scalars, or sequences of one
    length. *)
Definition same_shape (u v : value) : Prop :=
  match u, v with
  | Num _, Num _ => True
  | Arr a, Arr b => length a = length b
  | _, _ => False
  end.

(** The derivative function restricted to six-component sequences: any
    other argument is refused. *)
Definition on_six (d : diff_eq_t) : diff_eq_t :=
  λ t f, match f with
         | Arr a => if decide (length a = 6) then d t f else Raise ValueError
         | Num _ => Raise ValueError
         end.

(** A derivative function is six-dimensional when it maps every
    six-component sequence to a six-component sequence. *)
Definition six_dimensional (d : diff_eq_t) : Prop :=
  ∀ t a, length a = 6 → ∃ k, d t (Arr a) = Ok (Arr k) ∧ length k = 6.

(** A derivative function keeps the shape of the states shaped like [f]. *)
Definition shape_preserving (d : diff_eq_t) (f : value) : Prop :=
  ∀ t g, same_shape g f → ∃ k, d t g = Ok k ∧ same_shape k g.

Import Body Model.

(** The orbital elements of one body, as the driver supplies them in four
    parallel lists. *)
Record elements : Type := mkElements {
  el_a : R;
  el_e : R;
  el_mass : R;
  el_name : string
}.

(** The body at perihelion on the x axis, moving along the y axis. *)
Definition perihelion_body (el : elements) : GravBody :=
  GravBody_init (el_a el * (1 - el_e el)) 0 0
    0 (sqrt (4 * PI ^ 2 * (1 + el_e el) / ((1 - el_e el) * el_a el))) 0
    (el_mass el).

(** The speed at perihelion is a real number: the eccentricity lies in
    [[-1, 1)], so that, the semi-major axis being positive,
    [(1+e)/((1-e)*a)] is not negative. *)
Definition real_speed (el : elements) : Prop := (-1 <= el_e el < 1)%R.

(** The body the loop of [OrbitModel_init] builds from an element: the
    body at perihelion, or, its speed being [nan], none over the reals. *)
Definition built_body (el : elements) : option GravBody :=
  (λ yVel, GravBody_init (el_a el * (1 - el_e el)) 0 0 0 yVel 0 (el_mass el))
  <$> np_sqrt (4 * PI ^ 2 * (1 + el_e el) / ((1 - el_e el) * el_a el)).

(** The dictionary the loop of [OrbitModel_init] builds over the bodies
    from place [k] on. *)
Fixpoint bind_names (k : nat) (els : list elements) (d : gmap string nat)
  : gmap string nat :=
  match els with
  | [] => d
  | el :: els => bind_names (S k) els (<[el_name el := k]> d)
  end.

(** The magnitudes of a body agree with its position and velocity. *)
Definition consistent (b : GravBody) : Prop :=
  r b = sqrt (square (x b) + square (y b) + square (z b))
  ∧ v b = sqrt (square (vx b) + square (vy b) + square (vz b)).

(** A well-formed orbit model: consistent bodies, and every name bound to
    a place of [bodies]. *)
Definition OrbitModel_wf (self : OrbitModel) : Prop :=
  Forall consistent (bodies (super self))
  ∧ map_Forall (λ _ p, p < length (bodies (super self))) (dic self).

Definition admissible (el : elements) : Prop :=
  el_e el ≠ 1%R ∧ (0 < el_a el)%R.

Definition mercury : elements :=
  {| el_a := 0.3871; el_e := 0.206; el_mass := 0.17 * / 1000000; el_name := "Mercury" |}.

(** The energy [total_energy] computes for a body. *)
Definition energy (b : GravBody) : R :=
  (4 * PI ^ 2 * m b / sqrt (x b ^ 2 + y b ^ 2 + z b ^ 2)
   + 0.5 * m b * sqrt (vx b ^ 2 + vy b ^ 2 + vz b ^ 2) ^ 2)%R.

Definition one_body_model : OrbitModel :=
  {| super := Model_init
                (Physics.CentralGravity_init Solver.RK4
                   Physics.default_planetMass Physics.default_gravConstant)
                [GravBody_init 1 0 0 0 2 0 3];
     dic := {[ "Earth" := 0 ]} |}.

Import Physics.

Import Library.GravBodies.

(** Where row [v] goes when row [k] is removed. *)
Definition shift (k v : nat) : option nat :=
  if decide (v = k) then None
  else if decide (k < v) then Some (v - 1)
  else Some v.

(** The row counts of a collection agree, and every name maps to a row. *)
Definition GravBodies_wf (self : GravBodies) : Prop :=
  length (_bodies self) = len self
  ∧ length (mass self) = len self
  ∧ map_Forall (λ _ v, v < len self) (_dict self).

Definition still_body : Library.GravBody.GravBody :=
  {| Library.GravBody.state := [0; 0; 0; 0; 0; 0]%R; Library.GravBody.mass := 1%R |}.

Definition three_bodies : GravBodies :=
  {| _bodies := [still_body; still_body; still_body];
     state := [[0; 0; 0; 0; 0; 0]; [1; 0; 0; 0; 0; 0]; [2; 0; 0; 0; 0; 0]]%R;
     mass := [1; 1; 1]%R;
     _dict := <["Sun" := 0]> (<["Earth" := 1]> (<["Mars" := 2]> ∅)) |}.

(** The substep the specification describes for a remaining duration
    [r]: its sign times the smaller of its magnitude and [dt_max]. *)
Definition spec_step (dt_max r : R) : R := (Rsign r * Rmin (Rabs r) dt_max)%R.

(** [substeps_of dt_max r steps]: starting from the remaining duration
    [r], taking [steps] one after the other, each the substep of what
    remains (and what remains is not zero), leaves exactly zero. *)
Inductive substeps_of (dt_max : R) : R → list R → Prop :=
| substeps_done : substeps_of dt_max 0 []
| substeps_step (r : R) (steps : list R) :
    r ≠ 0%R →
    substeps_of dt_max (r - spec_step dt_max r) steps →
    substeps_of dt_max r (spec_step dt_max r :: steps).

(** Advancing a body through a list of steps with the solver, one call and
    one assignment of the state per step. *)
Fixpoint run_steps {num st B : Type}
    (solver_advance : num → st → num → result (num * st))
    (state_of : B → st) (state_set : B → st → result B)
    (t : num) (body : B) (steps : list num) : result (num * B) :=
  match steps with
  | [] => Ok (t, body)
  | step :: steps =>
      match solver_advance t (state_of body) step with
      | Raise e => Raise e
      | Ok (t, s) =>
          match state_set body s with
          | Raise e => Raise e
          | Ok body => run_steps solver_advance state_of state_set t body steps
          end
      end
  end.

(** A solver keeps time when the time it returns is the time it was given
    plus the step. *)
Definition keeps_time {st : Type} (solver_advance : R → st → R → result (R * st))
  : Prop :=
  ∀ x s dx x' s', solver_advance x s dx = Ok (x', s') → x' = (x + dx)%R.

(** 0.001, the default [dt_max], and 0.01, the step of the driver, as the
    interpreter reads them. *)
Definition b64_dt_max : float := 0x1.0624dd2f1a9fcp-10%float.
Definition b64_dt : float := 0x1.47ae147ae147bp-7%float.

(** A solver that only advances the time. *)
Definition b64_clock (t : float) (s : unit) (step : float) : result (float * unit) :=
  Ok (PrimFloat.add t step, s).

(** A body in the plane [z = 0], moving in it. *)
Definition planar (b : Body.GravBody) : Prop :=
  Body.z b = 0%R ∧ Body.vz b = 0%R.

(** A body that is turning round the centre: its position and its
    velocity are not collinear, that is, its angular momentum is not
    zero. *)
Definition turning (b : Body.GravBody) : Prop :=
  ¬ (Body.y b * Body.vz b - Body.z b * Body.vy b = 0
     ∧ Body.z b * Body.vx b - Body.x b * Body.vz b = 0
     ∧ Body.x b * Body.vy b - Body.y b * Body.vx b = 0)%R.

(** A six-component state in the plane [z = 0], moving in it. *)
Definition planar6 (a : list R) : Prop :=
  ∃ x y vx vy, a = [x; y; 0; vx; vy; 0]%R.

(** An orbit model that can be advanced: RK4 on central gravity with a
    positive [dt_max], at least one body, all bodies in the plane, and
    well formed. *)
Definition orbit_ready (self : Model.OrbitModel) : Prop :=
  Physics.solver (Model.physics (Model.super self)) = Solver.RK4
  ∧ (∃ G M, Physics.law (Model.physics (Model.super self))
            = Physics.CentralGravityLaw G M)
  ∧ (0 < Physics.dt_max (Model.physics (Model.super self)))%R
  ∧ Model.bodies (Model.super self) ≠ []
  ∧ Forall planar (Model.bodies (Model.super self))
  ∧ OrbitModel_wf self.

Definition earth : elements :=
  {| el_a := 1; el_e := 0.017; el_mass := 3 * / 1000000; el_name := "Earth" |}.

(** A parabolic orbit: eccentricity one. *)
Definition parabola : elements :=
  {| el_a := 2; el_e := 1; el_mass := 1 * / 1000000; el_name := "Comet" |}.

(** A hyperbolic orbit: eccentricity two. *)
Definition hyperbola : elements :=
  {| el_a := 1; el_e := 2; el_mass := 1 * / 1000000; el_name := "Visitor" |}.

(** [n] successive calls of a solver with the same step, each on the
    state the one before returned. *)
Definition solver_steps (advance : R → Np.value → R → result (R * Np.value))
    (t : R) (f : Np.value) (h : R) (n : nat) : result (R * Np.value) :=
  run_steps advance (λ f : Np.value, f) (λ _ s, Ok s) t f (replicate n h).

(** * Properties *)

Import Np.

(** ** Arithmetic helpers *)

Lemma sum_squares_pos (x y z : R) :
  ¬ (x = 0 ∧ y = 0 ∧ z = 0)%R → (0 < x ^ 2 + y ^ 2 + z ^ 2)%R.
Proof.
  intros Hnz.
  assert (0 <= x ^ 2)%R by apply pow2_ge_0.
  assert (0 <= y ^ 2)%R by apply pow2_ge_0.
  assert (0 <= z ^ 2)%R by apply pow2_ge_0.
  destruct (Req_dec_T x 0) as [->|Hx].
  - destruct (Req_dec_T y 0) as [->|Hy].
    + destruct (Req_dec_T z 0) as [->|Hz]; [tauto|].
      assert (0 < z ^ 2)%R by (apply pow_lt_0_compat_l || nra). lra.
    + assert (0 < y ^ 2)%R by nra. lra.
  - assert (0 < x ^ 2)%R by nra. lra.
Qed.

(** [s ** (3/2)] is the cube of the square root, on a positive base. *)
Lemma power_three_halves (s : R) :
  (0 < s)%R → power s (3 / 2) = (sqrt s ^ 3)%R.
Proof.
  intros Hs. unfold power. destruct (Rlt_dec 0 s) as [_|]; [|contradiction].
  replace (3 / 2)%R with (1 + / 2)%R by lra.
  rewrite Rpower_plus, Rpower_1, Rpower_sqrt by assumption.
  rewrite <- (sqrt_sqrt s) at 1 by lra. ring.
Qed.

Lemma float_div_Ok (a b : R) : b ≠ 0%R → float_div a b = Ok (a / b)%R.
Proof. intros Hb. unfold float_div. by destruct (Req_dec_T b 0). Qed.

Lemma float_div_zero (a : R) : float_div a 0 = Raise ZeroDivisionError.
Proof. unfold float_div. by destruct (Req_dec_T 0 0). Qed.

Lemma power_pos (s e : R) : (0 < s)%R → (0 < power s e)%R.
Proof.
  intros Hs. unfold power. destruct (Rlt_dec 0 s) as [_|]; [|contradiction].
  unfold Rpower. apply exp_pos.
Qed.

Lemma power_not_pos (s e : R) : ¬ (0 < s)%R → power s e = 0%R.
Proof. intros Hs. unfold power. by destruct (Rlt_dec 0 s). Qed.

(** ** Central gravity *)

(** Off the origin the derivative is returned; at the origin the first
    division has a zero divisor. *)
Lemma CentralGravity_diff_eq_Ok (G M t x y z vx vy vz : R) (rest : list R) :
  (0 < x ^ 2 + y ^ 2 + z ^ 2)%R →
  Physics.CentralGravity_diff_eq G M t (Arr (x :: y :: z :: vx :: vy :: vz :: rest))
  = Ok (Arr [vx; vy; vz;
             (- (G * M * x) / power (x ^ 2 + y ^ 2 + z ^ 2) (3 / 2))%R;
             (- (G * M * y) / power (x ^ 2 + y ^ 2 + z ^ 2) (3 / 2))%R;
             (- (G * M * z) / power (x ^ 2 + y ^ 2 + z ^ 2) (3 / 2))%R]).
Proof.
  intros Hpos. pose proof (power_pos _ (3 / 2) Hpos) as Hrad.
  set (rad := power (x ^ 2 + y ^ 2 + z ^ 2) (3 / 2)) in *.
  assert (Hne : rad ≠ 0%R) by lra.
  unfold Physics.CentralGravity_diff_eq.
  cbn [getitem lookup list_lookup mbind result_bind].
  fold rad. rewrite !float_div_Ok by assumption. reflexivity.
Qed.

Lemma CentralGravity_diff_eq_origin (G M t x y z vx vy vz : R) (rest : list R) :
  ¬ (0 < x ^ 2 + y ^ 2 + z ^ 2)%R →
  Physics.CentralGravity_diff_eq G M t (Arr (x :: y :: z :: vx :: vy :: vz :: rest))
  = Raise ZeroDivisionError.
Proof.
  intros Hpos. unfold Physics.CentralGravity_diff_eq.
  cbn [getitem lookup list_lookup mbind result_bind].
  rewrite (power_not_pos _ _ Hpos), !float_div_zero. reflexivity.
Qed.

(** On six components the derivative is returned, with six components,
    unless the position is the origin. *)
Lemma CentralGravity_diff_eq_outcome (G M t : R) (a : list R) :
  length a = 6 →
  Physics.CentralGravity_diff_eq G M t (Arr a) = Raise ZeroDivisionError
  ∨ ∃ k, Physics.CentralGravity_diff_eq G M t (Arr a) = Ok (Arr k) ∧ length k = 6.
Proof.
  intros Ha.
  destruct a as [|x [|y [|z [|vx [|vy [|vz [|]]]]]]]; try discriminate Ha.
  destruct (Rlt_dec 0 (x ^ 2 + y ^ 2 + z ^ 2)) as [Hpos|Hpos].
  - right. eexists. split; [by apply CentralGravity_diff_eq_Ok|reflexivity].
  - left. by apply CentralGravity_diff_eq_origin.
Qed.

(** C1: on a six-component state whose position is not the origin, the
    derivative function of a [CentralGravity] built with mass [M] and
    constant [G] returns the velocity followed by [-G*M*p/r^3] for each
    position component [p], where [r] is the length of the position. *)
Theorem CentralGravity_diff_eq_formula
    (s : Solver.Solver) (G M t x y z vx vy vz : R) :
  ¬ (x = 0 ∧ y = 0 ∧ z = 0)%R →
  let r := sqrt (x ^ 2 + y ^ 2 + z ^ 2) in
  Physics.diff_eq (Physics.CentralGravity_init s M G) t (Arr [x; y; z; vx; vy; vz])
  = Ok (Arr [vx; vy; vz;
             (- (G * M * x) / r ^ 3)%R;
             (- (G * M * y) / r ^ 3)%R;
             (- (G * M * z) / r ^ 3)%R]).
Proof.
  intros Hnz r. apply sum_squares_pos in Hnz.
  unfold Physics.diff_eq. cbn [Physics.law Physics.CentralGravity_init Physics.Physics_init].
  rewrite CentralGravity_diff_eq_Ok by assumption.
  rewrite power_three_halves by assumption. reflexivity.
Qed.

Lemma CentralGravity_diff_eq_formula_witness :
  Physics.diff_eq (Physics.CentralGravity_init Solver.RK4 1 (4 * PI ^ 2)) 0%R
    (Arr [1; 0; 0; 0; 2; 0])%R
  = Ok (Arr [0; 2; 0;
             - (4 * PI ^ 2 * 1 * 1) / sqrt (1 ^ 2 + 0 ^ 2 + 0 ^ 2) ^ 3;
             - (4 * PI ^ 2 * 1 * 0) / sqrt (1 ^ 2 + 0 ^ 2 + 0 ^ 2) ^ 3;
             - (4 * PI ^ 2 * 1 * 0) / sqrt (1 ^ 2 + 0 ^ 2 + 0 ^ 2) ^ 3])%R.
Proof.
  apply (CentralGravity_diff_eq_formula Solver.RK4 (4 * PI ^ 2) 1 0 1 0 0 0 2 0).
  intros [H _]. lra.
Defined.

(** ** Solvers *)

Import Solver.

Lemma same_shape_refl (u : value) : same_shape u u.
Proof. destruct u; simpl; auto. Qed.

Lemma same_shape_trans (u v w : value) :
  same_shape u v → same_shape v w → same_shape u w.
Proof. destruct u, v, w; simpl; try tauto; congruence. Qed.

Lemma same_shape_sym (u v : value) : same_shape u v → same_shape v u.
Proof. destruct u, v; simpl; try tauto; congruence. Qed.

Lemma same_shape_smul (c : R) (v : value) : same_shape (smul c v) v.
Proof. destruct v; simpl; auto. apply length_fmap. Qed.

Lemma same_shape_mulr (v : value) (c : R) : same_shape (mulr v c) v.
Proof. destruct v; simpl; auto. apply length_fmap. Qed.

(** Adding to a sequence of at least two components keeps its length. *)
Lemma add_Arr_length (a : list R) (v w : value) :
  1 < length a → add (Arr a) v = Ok w →
  ∃ b, w = Arr b ∧ length b = length a.
Proof.
  intros Hlen Hadd. destruct v as [y|b]; simpl in Hadd.
  - inversion Hadd; subst. eexists; split; [reflexivity|]. apply length_fmap.
  - destruct a as [|x0 [|x1 a]]; simpl in Hlen; try lia.
    destruct b as [|y0 [|y1 b]].
    + simpl in Hadd. discriminate.
    + inversion Hadd; subst. eexists; split; [reflexivity|].
      simpl. rewrite ?length_fmap. reflexivity.
    + destruct (decide (length (x0 :: x1 :: a) = length (y0 :: y1 :: b)))
        as [Heq|Hne]; [|discriminate].
      inversion Hadd; subst. eexists; split; [reflexivity|].
      simpl in *. rewrite length_zip_with. lia.
Qed.

(** Adding two states of one shape succeeds and keeps the shape. *)
Lemma add_same_shape (u v : value) :
  same_shape u v → ∃ w, add u v = Ok w ∧ same_shape w u.
Proof.
  destruct u as [x|a], v as [y|b]; simpl; try tauto.
  - intros _. eexists; split; [reflexivity|]. exact I.
  - intros Hlen.
    destruct a as [|x0 [|x1 a]], b as [|y0 [|y1 b]]; simpl in Hlen; try lia.
    + eexists; split; [reflexivity|]. reflexivity.
    + eexists; split; [reflexivity|]. reflexivity.
    + destruct (decide (length (x0 :: x1 :: a) = length (y0 :: y1 :: b)))
        as [Heq|Hne]; [|simpl in Hne; lia].
      eexists; split; [reflexivity|]. simpl in *. rewrite length_zip_with. lia.
Qed.

Ltac bind_inv H :=
  repeat match type of H with
         | (?m ≫= _) = Ok _ =>
             let E := fresh "E" in
             destruct m eqn:E; cbn [mbind result_bind] in H; [|discriminate H]
         end.

Lemma add_six (a : list R) (v w : value) :
  length a = 6 → add (Arr a) v = Ok w → ∃ b, w = Arr b ∧ length b = 6.
Proof.
  intros Ha Hadd. destruct (add_Arr_length a v w) as (b & -> & Hb); [lia|done|].
  exists b. split; [done|lia].
Qed.

Lemma on_six_Arr (d : diff_eq_t) (t : R) (a : list R) :
  length a = 6 → on_six d t (Arr a) = d t (Arr a).
Proof. intros Ha. unfold on_six. destruct (decide (length a = 6)); done. Qed.

Lemma list_of_length_7 (f : list R) :
  length f = 7 → ∃ a0 a1 a2 a3 a4 a5 a6, f = [a0; a1; a2; a3; a4; a5; a6].
Proof.
  intros Hlen.
  do 7 (destruct f as [|? f]; [discriminate Hlen|]).
  destruct f; [|discriminate Hlen]. by repeat eexists.
Qed.

(** What [RK4_advance] returns on a seven-component state: the new time,
    and six components followed by the seventh component of the input. *)
Lemma RK4_advance_returns (d : diff_eq_t) (x dx : R) (f : list R) (r : R * value) :
  length f = 7 → RK4_advance d x (Arr f) dx = Ok r →
  ∃ fn, r = ((x + dx)%R, Arr fn) ∧ length fn = 7 ∧ fn !! 6 = f !! 6.
Proof.
  intros Hlen H.
  destruct (list_of_length_7 f Hlen) as (a0 & a1 & a2 & a3 & a4 & a5 & a6 & ->).
  unfold RK4_advance in H. cbn [getitem slice_to lookup list_lookup take mbind result_bind] in H.
  bind_inv H.
  lazymatch type of H with
  | mret (_, append ?v _) = _ =>
      match goal with
      | E : add (Arr _) _ = Ok v |- _ =>
          apply add_six in E as (b & -> & Hb); [|reflexivity]
      end
  end.
  cbn [append mret result_ret] in H. inversion H; subst.
  exists (b ++ [a6]). split; [done|].
  split.
  - rewrite length_app. simpl. lia.
  - rewrite lookup_app_r by lia. rewrite Hb. done.
Qed.

(** Every state [RK4_advance] hands to the derivative function has six
    components: refusing all others changes nothing. *)
Lemma RK4_advance_on_six (d : diff_eq_t) (x dx : R) (f : list R) :
  length f = 7 → RK4_advance (on_six d) x (Arr f) dx = RK4_advance d x (Arr f) dx.
Proof.
  intros Hlen.
  destruct (list_of_length_7 f Hlen) as (a0 & a1 & a2 & a3 & a4 & a5 & a6 & ->).
  unfold RK4_advance. cbn [getitem slice_to lookup list_lookup take mbind result_bind].
  rewrite on_six_Arr by done.
  destruct (d x _) as [k1|]; cbn [mbind result_bind]; [|done].
  destruct (add _ (mulr (smul 0.5 k1) dx)) as [f1|] eqn:E1; cbn [mbind result_bind]; [|done].
  apply add_six in E1 as (b1 & -> & Hb1); [|reflexivity].
  rewrite on_six_Arr by done.
  destruct (d _ (Arr b1)) as [k2|]; cbn [mbind result_bind]; [|done].
  destruct (add _ (mulr (smul 0.5 k2) dx)) as [f2|] eqn:E2; cbn [mbind result_bind]; [|done].
  apply add_six in E2 as (b2 & -> & Hb2); [|reflexivity].
  rewrite on_six_Arr by done.
  destruct (d _ (Arr b2)) as [k3|]; cbn [mbind result_bind]; [|done].
  destruct (add _ (mulr k3 dx)) as [f3|] eqn:E3; cbn [mbind result_bind]; [|done].
  apply add_six in E3 as (b3 & -> & Hb3); [|reflexivity].
  rewrite on_six_Arr by done.
  done.
Qed.

Lemma add_Arr_same (a b : list R) :
  length a = length b →
  ∃ c, add (Arr a) (Arr b) = Ok (Arr c) ∧ length c = length a.
Proof.
  intros Hlen.
  destruct (add_same_shape (Arr a) (Arr b) Hlen) as (w & Hw & Hs).
  destruct w as [|c]; [contradiction|]. by exists c.
Qed.

(** [RK4_advance] with a derivative function that, on the six-component
    states of a class [P] closed under the sums and multiples the scheme
    forms, either raises [e] or returns a state of the class: the step
    raises [e] or returns a state of the class, followed by the seventh
    component. *)
Section RK4Outcome.
Variable d : diff_eq_t.
Variable e : exn.
Variable P : list R → Prop.
Hypothesis P_six : ∀ a, P a → length a = 6.
Hypothesis P_d : ∀ t a, P a →
  d t (Arr a) = Raise e ∨ ∃ k, d t (Arr a) = Ok (Arr k) ∧ P k.
Hypothesis P_scale : ∀ c a, P a →
  P ((λ x, c * x)%R <$> a) ∧ P ((λ x, x * c)%R <$> a).
Hypothesis P_add : ∀ a b, P a → P b → ∃ c, add (Arr a) (Arr b) = Ok (Arr c) ∧ P c.

Ltac outcome_stage :=
  lazymatch goal with
  | |- context [d ?t (Arr ?a) ≫= _] =>
      let k := fresh "k" in
      let Hk := fresh "Hk" in
      let E := fresh "E" in
      destruct (P_d t a) as [E|(k & E & Hk)];
      [assumption
      |rewrite E; cbn [mbind result_bind]; by left
      |rewrite E; cbn [mbind result_bind]]
  end.

Ltac outcome_add :=
  cbn [smul mulr];
  lazymatch goal with
  | |- context [add (Arr ?a) (Arr ?b) ≫= _] =>
      let c := fresh "c" in
      let Hc := fresh "Hc" in
      let E := fresh "E" in
      destruct (P_add a b) as (c & E & Hc);
      [assumption
      |repeat first [assumption | apply P_scale]
      |rewrite E; cbn [mbind result_bind]]
  end.

Lemma RK4_advance_outcome (t step m0 : R) (a : list R) :
  P a →
  RK4_advance d t (Arr (a ++ [m0])) step = Raise e
  ∨ ∃ a', RK4_advance d t (Arr (a ++ [m0])) step
          = Ok ((t + step)%R, Arr (a' ++ [m0]))
          ∧ P a'.
Proof.
  intros Ha. pose proof (P_six a Ha) as Hlen.
  unfold RK4_advance. cbn [getitem slice_to mbind result_bind].
  rewrite lookup_app_r by lia. rewrite Hlen, Nat.sub_diag. cbn [lookup list_lookup].
  cbn [mbind result_bind].
  rewrite take_app_length' by lia. cbn [mbind result_bind].
  outcome_stage. outcome_add.
  outcome_stage. outcome_add.
  outcome_stage. outcome_add.
  outcome_stage.
  outcome_add. outcome_add. outcome_add. outcome_add.
  cbn [append mret result_ret]. right. by eexists.
Qed.
End RK4Outcome.

Ltac rk4_stage Hd :=
  lazymatch goal with
  | |- context [?d ?t (Arr ?a) ≫= _] =>
      let k := fresh "k" in
      let Hk := fresh "Hk" in
      let E := fresh "E" in
      destruct (Hd t a) as (k & E & Hk); [congruence|];
      rewrite E; cbn [mbind result_bind]
  end.

Ltac rk4_add :=
  cbn [smul mulr];
  lazymatch goal with
  | |- context [add (Arr ?a) (Arr ?b) ≫= _] =>
      let c := fresh "c" in
      let Hc := fresh "Hc" in
      let E := fresh "E" in
      destruct (add_Arr_same a b) as (c & E & Hc);
      [rewrite ?length_fmap; congruence|];
      rewrite E; cbn [mbind result_bind]
  end.

(** On a six-dimensional derivative function [RK4_advance] returns. *)
Lemma RK4_advance_total (d : diff_eq_t) (x dx : R) (f : list R) :
  length f = 7 → six_dimensional d →
  ∃ fn, RK4_advance d x (Arr f) dx = Ok ((x + dx)%R, Arr fn).
Proof.
  intros Hlen Hd.
  destruct (list_of_length_7 f Hlen) as (a0 & a1 & a2 & a3 & a4 & a5 & a6 & ->).
  unfold RK4_advance.
  cbn [getitem slice_to lookup list_lookup take mbind result_bind].
  assert (Hf : length [a0; a1; a2; a3; a4; a5] = 6) by reflexivity.
  revert Hf. generalize [a0; a1; a2; a3; a4; a5]. intros f6 Hf.
  rk4_stage Hd. rk4_add.
  rk4_stage Hd. rk4_add.
  rk4_stage Hd. rk4_add.
  rk4_stage Hd.
  rk4_add. rk4_add. rk4_add. rk4_add.
  cbn [append mret result_ret]. by eexists.
Qed.

(** The seventh component does not reach the derivative function:
    changing it changes the seventh component of the result and nothing
    else. *)
Lemma RK4_advance_mass_independent (d : diff_eq_t) (x dx : R) (f : list R)
    (m' t' : R) (fn : list R) :
  length f = 7 →
  RK4_advance d x (Arr f) dx = Ok (t', Arr fn) →
  RK4_advance d x (Arr (<[6 := m']> f)) dx = Ok (t', Arr (<[6 := m']> fn)).
Proof.
  intros Hlen H.
  destruct (RK4_advance_returns d x dx f _ Hlen H) as (fn' & Heq & Hfn & _).
  inversion Heq; subst fn' t'; clear Heq.
  destruct (list_of_length_7 f Hlen) as (a0 & a1 & a2 & a3 & a4 & a5 & a6 & ->).
  unfold RK4_advance in *.
  cbn [getitem slice_to lookup list_lookup take mbind result_bind
       insert list_insert] in *.
  bind_inv H.
  repeat first
    [ progress cbn [mbind result_bind]
    | match goal with
      | E : ?m = Ok _ |- context [?m ≫= _] => rewrite E
      end ].
  lazymatch type of H with
  | mret (_, append ?v _) = _ =>
      match goal with
      | E : add (Arr _) _ = Ok v |- _ =>
          apply add_six in E as (b & -> & Hb); [|reflexivity]
      end
  end.
  cbn [append mret result_ret] in *. inversion H; subst.
  do 3 f_equal.
  do 6 (destruct b as [|? b]; [discriminate Hb|]).
  destruct b; [|discriminate Hb]. reflexivity.
Qed.

(** *** One step of a turning body *)

Lemma add_six_explicit (a0 a1 a2 a3 a4 a5 b0 b1 b2 b3 b4 b5 : R) :
  add (Arr [a0; a1; a2; a3; a4; a5]) (Arr [b0; b1; b2; b3; b4; b5])
  = Ok (Arr [a0 + b0; a1 + b1; a2 + b2; a3 + b3; a4 + b4; a5 + b5]%R).
Proof.
  unfold add. cbn [length]. by destruct (decide (6 = 6)).
Qed.

(** A combination of two vectors that are not collinear, with
    coefficients that are not both zero, is not the null vector. *)
Lemma combination_off_origin (x y z vx vy vz α γ X Y Z : R) :
  ¬ (y * vz - z * vy = 0 ∧ z * vx - x * vz = 0 ∧ x * vy - y * vx = 0)%R →
  ¬ (α = 0 ∧ γ = 0)%R →
  X = (α * x + γ * vx)%R → Y = (α * y + γ * vy)%R → Z = (α * z + γ * vz)%R →
  (0 < X ^ 2 + Y ^ 2 + Z ^ 2)%R.
Proof.
  intros HL Hc -> -> ->. apply sum_squares_pos. intros (HX & HY & HZ).
  apply Hc.
  assert (Ax : (α * (y * vz - z * vy) = 0)%R).
  { replace (α * (y * vz - z * vy))%R
      with ((α * y + γ * vy) * vz - (α * z + γ * vz) * vy)%R by ring.
    rewrite HY, HZ. ring. }
  assert (Ay : (α * (z * vx - x * vz) = 0)%R).
  { replace (α * (z * vx - x * vz))%R
      with ((α * z + γ * vz) * vx - (α * x + γ * vx) * vz)%R by ring.
    rewrite HX, HZ. ring. }
  assert (Az : (α * (x * vy - y * vx) = 0)%R).
  { replace (α * (x * vy - y * vx))%R
      with ((α * x + γ * vx) * vy - (α * y + γ * vy) * vx)%R by ring.
    rewrite HX, HY. ring. }
  assert (Cx : (γ * (y * vz - z * vy) = 0)%R).
  { replace (γ * (y * vz - z * vy))%R
      with ((α * z + γ * vz) * y - (α * y + γ * vy) * z)%R by ring.
    rewrite HY, HZ. ring. }
  assert (Cy : (γ * (z * vx - x * vz) = 0)%R).
  { replace (γ * (z * vx - x * vz))%R
      with ((α * x + γ * vx) * z - (α * z + γ * vz) * x)%R by ring.
    rewrite HX, HZ. ring. }
  assert (Cz : (γ * (x * vy - y * vx) = 0)%R).
  { replace (γ * (x * vy - y * vx))%R
      with ((α * y + γ * vy) * x - (α * x + γ * vx) * y)%R by ring.
    rewrite HX, HY. ring. }
  destruct (Req_dec_T (y * vz - z * vy) 0) as [Hx|Hx];
    [destruct (Req_dec_T (z * vx - x * vz) 0) as [Hy|Hy];
     [destruct (Req_dec_T (x * vy - y * vx) 0) as [Hz|Hz]; [tauto|]|]|].
  - apply Rmult_integral in Az, Cz. split; tauto.
  - apply Rmult_integral in Ay, Cy. split; tauto.
  - apply Rmult_integral in Ax, Cx. split; tauto.
Qed.

Ltac decimal_field :=
  replace 0.5%R with (/ 2)%R by lra; replace 0.25%R with (/ 4)%R by lra;
  field; lra.

(** Under central gravity a step of RK4 from a state whose position and
    velocity are not collinear evaluates the force at no stage at the
    origin, whatever the step: the four stage positions are combinations of
    the position and the velocity with coefficients that are not both zero.
    The step returns. *)
Lemma RK4_advance_turning (G M t h x y z vx vy vz m0 : R) :
  ¬ (y * vz - z * vy = 0 ∧ z * vx - x * vz = 0 ∧ x * vy - y * vx = 0)%R →
  ∃ fn, RK4_advance (Physics.CentralGravity_diff_eq G M) t
          (Arr [x; y; z; vx; vy; vz; m0]) h
        = Ok ((t + h)%R, Arr fn).
Proof.
  intros HL. unfold RK4_advance.
  cbn [getitem slice_to lookup list_lookup take mbind result_bind].
  assert (H1 : (0 < x ^ 2 + y ^ 2 + z ^ 2)%R).
  { apply (combination_off_origin x y z vx vy vz 1 0); [assumption|lra|ring..]. }
  rewrite (CentralGravity_diff_eq_Ok G M t x y z vx vy vz [] H1).
  pose proof (power_pos _ (3 / 2) H1) as Hrad1.
  set (rad1 := power (x ^ 2 + y ^ 2 + z ^ 2) (3 / 2)) in *.
  cbn [mbind result_bind smul mulr fmap list_fmap].
  rewrite !add_six_explicit. cbn [mbind result_bind].
  assert (H2 : (0 < (x + 0.5 * vx * h) ^ 2 + (y + 0.5 * vy * h) ^ 2
                   + (z + 0.5 * vz * h) ^ 2)%R).
  { apply (combination_off_origin x y z vx vy vz 1 (0.5 * h));
      [assumption|lra|ring..]. }
  rewrite (CentralGravity_diff_eq_Ok G M _ _ _ _ _ _ _ [] H2).
  pose proof (power_pos _ (3 / 2) H2) as Hrad2.
  set (rad2 := power ((x + 0.5 * vx * h) ^ 2 + (y + 0.5 * vy * h) ^ 2
                      + (z + 0.5 * vz * h) ^ 2) (3 / 2)) in *.
  cbn [mbind result_bind smul mulr fmap list_fmap].
  rewrite !add_six_explicit. cbn [mbind result_bind].
  lazymatch goal with
  | |- context [Physics.CentralGravity_diff_eq G M ?t3
                  (Arr [?X; ?Y; ?Z; ?VX; ?VY; ?VZ])] =>
      assert (H3 : (0 < X ^ 2 + Y ^ 2 + Z ^ 2)%R);
      [apply (combination_off_origin x y z vx vy vz
                (1 - 0.25 * (G * M) * h ^ 2 / rad1) (0.5 * h));
       [assumption
       |intros [Ha Hc]; assert (h = 0)%R by lra; subst h;
        revert Ha; unfold Rdiv; rewrite pow_i by lia; lra
       |decimal_field..]
      |rewrite (CentralGravity_diff_eq_Ok G M t3 X Y Z VX VY VZ [] H3);
       pose proof (power_pos _ (3 / 2) H3) as Hrad3;
       set (rad3 := power (X ^ 2 + Y ^ 2 + Z ^ 2) (3 / 2)) in *]
  end.
  cbn [mbind result_bind smul mulr fmap list_fmap].
  rewrite !add_six_explicit. cbn [mbind result_bind].
  lazymatch goal with
  | |- context [Physics.CentralGravity_diff_eq G M ?t4
                  (Arr [?X; ?Y; ?Z; ?VX; ?VY; ?VZ])] =>
      assert (H4 : (0 < X ^ 2 + Y ^ 2 + Z ^ 2)%R);
      [apply (combination_off_origin x y z vx vy vz
                (1 - 0.5 * (G * M) * h ^ 2 / rad2)
                (h * (1 - 0.25 * (G * M) * h ^ 2 / rad2)));
       [assumption
       |intros [Ha Hc];
        assert (E1 : (0.5 * (G * M) * h ^ 2 / rad2
                      = 0.5 * (G * M * h ^ 2 / rad2))%R) by decimal_field;
        assert (E2 : (0.25 * (G * M) * h ^ 2 / rad2
                      = 0.25 * (G * M * h ^ 2 / rad2))%R) by decimal_field;
        rewrite E1 in Ha; rewrite E2 in Hc;
        assert (Hu : (G * M * h ^ 2 / rad2 = 2)%R) by lra;
        rewrite Hu in Hc; assert (h = 0)%R by lra; subst h;
        revert Hu; unfold Rdiv; rewrite pow_i by lia; lra
       |decimal_field..]
      |rewrite (CentralGravity_diff_eq_Ok G M t4 X Y Z VX VY VZ [] H4)]
  end.
  cbn [mbind result_bind smul mulr fmap list_fmap].
  rewrite !add_six_explicit. cbn [mbind result_bind append mret result_ret].
  by eexists.
Qed.

(** C3: on every seven-component state, whatever the derivative function,
    the time and the step, a state returned by [RK4_advance] carries the
    seventh component of the input unchanged at index 6; the derivative
    function is only ever applied to six-component states, and another
    seventh component changes nothing but the seventh component of the
    result; and with a six-dimensional derivative function (cooling and
    logistic growth on arrays are such, and central gravity is on the states
    it is given by a step that meets the origin at no stage) a state is
    returned. *)
Theorem RK4_mass_pass_through (d : diff_eq_t) (x dx : R) (f : list R) :
  length f = 7 →
  (∀ r, RK4_advance d x (Arr f) dx = Ok r →
        ∃ fn, r = ((x + dx)%R, Arr fn) ∧ length fn = 7 ∧ fn !! 6 = f !! 6)
  ∧ RK4_advance (on_six d) x (Arr f) dx = RK4_advance d x (Arr f) dx
  ∧ (∀ m' t' fn,
       RK4_advance d x (Arr f) dx = Ok (t', Arr fn) →
       RK4_advance d x (Arr (<[6 := m']> f)) dx = Ok (t', Arr (<[6 := m']> fn)))
  ∧ (six_dimensional d →
     ∃ fn, RK4_advance d x (Arr f) dx = Ok ((x + dx)%R, Arr fn)
           ∧ length fn = 7 ∧ fn !! 6 = f !! 6).
Proof.
  intros Hlen. split; [|split; [|split]].
  - intros r. by apply RK4_advance_returns.
  - by apply RK4_advance_on_six.
  - intros m' t' fn. by apply RK4_advance_mass_independent.
  - intros Hd. destruct (RK4_advance_total d x dx f Hlen Hd) as (fn & Hfn).
    destruct (RK4_advance_returns d x dx f _ Hlen Hfn) as (fn' & Heq & Hl & H6).
    inversion Heq; subst. by exists fn'.
Qed.

Lemma RK4_mass_pass_through_witness :
  let d := Physics.CentralGravity_diff_eq (4 * PI ^ 2) 1 in
  let f := [1; 0; 0; 0; 2; 0; 3]%R in
  length f = 7
  ∧ (∃ fn, RK4_advance d 0 (Arr f) 0.001 = Ok ((0 + 0.001)%R, Arr fn))
  ∧ (∀ r, RK4_advance d 0 (Arr f) 0.001 = Ok r →
          ∃ fn, r = ((0 + 0.001)%R, Arr fn) ∧ length fn = 7 ∧ fn !! 6 = f !! 6)
  ∧ RK4_advance (on_six d) 0 (Arr f) 0.001 = RK4_advance d 0 (Arr f) 0.001
  ∧ (∀ m' t' fn,
       RK4_advance d 0 (Arr f) 0.001 = Ok (t', Arr fn) →
       RK4_advance d 0 (Arr (<[6 := m']> f)) 0.001 = Ok (t', Arr (<[6 := m']> fn)))
  ∧ (six_dimensional d →
     ∃ fn, RK4_advance d 0 (Arr f) 0.001 = Ok ((0 + 0.001)%R, Arr fn)
           ∧ length fn = 7 ∧ fn !! 6 = f !! 6).
Proof.
  split; [reflexivity|]. split.
  - apply RK4_advance_turning. intros (_ & _ & H). lra.
  - apply (RK4_mass_pass_through
             (Physics.CentralGravity_diff_eq (4 * PI ^ 2) 1) 0 0.001
             [1; 0; 0; 0; 2; 0; 3]%R).
    reflexivity.
Defined.

Lemma add_scaled (f k : value) (c : R) :
  same_shape k f → ∃ w, add f (mulr k c) = Ok w ∧ same_shape w f.
Proof.
  intros Hk. apply add_same_shape. apply same_shape_sym.
  eapply same_shape_trans; [apply same_shape_mulr|done].
Qed.

Lemma Euler_advance_any_shape (d : diff_eq_t) (x dx : R) (f : value) :
  shape_preserving d f →
  ∃ fn, Euler_advance d x f dx = Ok ((x + dx)%R, fn) ∧ same_shape fn f.
Proof.
  intros Hd. unfold Euler_advance.
  destruct (Hd x f (same_shape_refl f)) as (k & -> & Hk). cbn [mbind result_bind].
  destruct (add_scaled f k dx Hk) as (w & -> & Hw). cbn [mbind result_bind].
  by exists w.
Qed.

Lemma RK2_advance_any_shape (d : diff_eq_t) (x dx : R) (f : value) :
  shape_preserving d f →
  ∃ fn, RK2_advance d x f dx = Ok ((x + dx)%R, fn) ∧ same_shape fn f.
Proof.
  intros Hd. unfold RK2_advance.
  destruct (Hd x f (same_shape_refl f)) as (k1 & -> & Hk1). cbn [mbind result_bind].
  destruct (add_scaled f (smul 0.5 k1) dx) as (f1 & -> & Hf1).
  { eapply same_shape_trans; [apply same_shape_smul|done]. }
  cbn [mbind result_bind].
  destruct (Hd (x + 0.5 * dx)%R f1 Hf1) as (k2 & -> & Hk2). cbn [mbind result_bind].
  destruct (add_scaled f k2 dx) as (w & -> & Hw).
  { eapply same_shape_trans; done. }
  cbn [mbind result_bind]. by exists w.
Qed.

Lemma UniformGravity_shape_preserving (g x v : R) :
  shape_preserving (Physics.UniformGravity_diff_eq g) (Arr [x; v]).
Proof.
  intros t [|a] Hs; [contradiction|]. simpl in Hs.
  destruct a as [|a0 [|a1 [|]]]; try discriminate Hs.
  eexists. split; reflexivity.
Qed.

Lemma Cooling_shape_preserving (Ta k : R) (f : value) :
  shape_preserving (Physics.Cooling_diff_eq Ta k) f.
Proof.
  intros t g _. eexists. split; [reflexivity|].
  destruct g; simpl; [done|]. apply length_fmap.
Qed.

Lemma LogisticPopGrowth_shape_preserving (r N : R) (f : value) :
  N ≠ 0%R → shape_preserving (Physics.LogisticPopGrowth_diff_eq r N) f.
Proof.
  intros HN t g _. unfold Physics.LogisticPopGrowth_diff_eq. destruct g as [P|a].
  - rewrite float_div_Ok by assumption. by eexists.
  - destruct (Req_dec_T N 0) as [|_]; [contradiction|].
    eexists. split; [reflexivity|]. apply length_fmap.
Qed.

Lemma LogisticPopGrowth_diff_eq_Num (r N t P : R) :
  N ≠ 0%R →
  Physics.LogisticPopGrowth_diff_eq r N t (Num P) = Ok (Num (r * P * (1 - P / N))).
Proof.
  intros HN. unfold Physics.LogisticPopGrowth_diff_eq.
  by rewrite float_div_Ok by assumption.
Qed.

(** With [N = 0] the derivative of a float population is never returned:
    [P/N] raises. *)
Lemma LogisticPopGrowth_zero_capacity (r t P : R) :
  Physics.LogisticPopGrowth_diff_eq r 0 t (Num P) = Raise ZeroDivisionError.
Proof.
  unfold Physics.LogisticPopGrowth_diff_eq. by rewrite float_div_zero.
Qed.

(** The shape must be kept, though: the seven-component state of a
    [GravBody] does not go through [Euler_advance] or [RK2_advance] under
    central gravity, whose derivative has six components. *)
Lemma central_gravity_euler_seven (G M x dx a0 a1 a2 a3 a4 a5 a6 : R) :
  (0 < a0 ^ 2 + a1 ^ 2 + a2 ^ 2)%R →
  Euler_advance (Physics.CentralGravity_diff_eq G M) x
    (Arr [a0; a1; a2; a3; a4; a5; a6]) dx
  = Raise ValueError
  ∧ RK2_advance (Physics.CentralGravity_diff_eq G M) x
      (Arr [a0; a1; a2; a3; a4; a5; a6]) dx
    = Raise ValueError.
Proof.
  intros Hpos. unfold Euler_advance, RK2_advance.
  rewrite (CentralGravity_diff_eq_Ok G M x a0 a1 a2 a3 a4 a5 [a6] Hpos).
  split; reflexivity.
Qed.

(** C10: [RK4_advance] reads index 6 of the state before anything else,
    so on every state with fewer than seven components it raises there,
    whatever the derivative function: [IndexError] on a sequence shorter
    than seven, and on a bare float, which has no index at all,
    [TypeError].  [Euler_advance] and [RK2_advance] never index the state:
    they return on a state of any shape that the derivative function
    preserves; the two-component state of uniform gravity, the scalar state
    of cooling and the scalar state of logistic growth with a capacity that
    is not zero are such.  Where the derivative function does not keep the
    shape they fail: with a zero capacity logistic growth raises
    [ZeroDivisionError], and the seven-component state of a gravity body,
    off the origin, raises [ValueError] under central gravity. *)
Theorem RK4_needs_seven_components (d : diff_eq_t) (x dx : R) :
  (∀ a, length a < 7 → RK4_advance d x (Arr a) dx = Raise IndexError)
  ∧ (∀ T, RK4_advance d x (Num T) dx = Raise TypeError)
  ∧ (∀ f, shape_preserving d f →
       (∃ fn, Euler_advance d x f dx = Ok ((x + dx)%R, fn) ∧ same_shape fn f)
       ∧ (∃ fn, RK2_advance d x f dx = Ok ((x + dx)%R, fn) ∧ same_shape fn f))
  ∧ (∀ g p v, shape_preserving (Physics.UniformGravity_diff_eq g) (Arr [p; v]))
  ∧ (∀ Ta k T, shape_preserving (Physics.Cooling_diff_eq Ta k) (Num T))
  ∧ (∀ r N P, N ≠ 0%R →
       shape_preserving (Physics.LogisticPopGrowth_diff_eq r N) (Num P))
  ∧ (∀ r P,
       Euler_advance (Physics.LogisticPopGrowth_diff_eq r 0) x (Num P) dx
       = Raise ZeroDivisionError
       ∧ RK2_advance (Physics.LogisticPopGrowth_diff_eq r 0) x (Num P) dx
         = Raise ZeroDivisionError)
  ∧ (∀ G M a0 a1 a2 a3 a4 a5 a6, (0 < a0 ^ 2 + a1 ^ 2 + a2 ^ 2)%R →
       Euler_advance (Physics.CentralGravity_diff_eq G M) x
         (Arr [a0; a1; a2; a3; a4; a5; a6]) dx
       = Raise ValueError
       ∧ RK2_advance (Physics.CentralGravity_diff_eq G M) x
           (Arr [a0; a1; a2; a3; a4; a5; a6]) dx
         = Raise ValueError).
Proof.
  split; [|split; [|split; [|split; [|split; [|split; [|split]]]]]].
  - intros a Ha. unfold RK4_advance. cbn [getitem].
    rewrite (lookup_ge_None_2 a 6) by lia. reflexivity.
  - reflexivity.
  - intros f Hf. split.
    + by apply Euler_advance_any_shape.
    + by apply RK2_advance_any_shape.
  - intros. apply UniformGravity_shape_preserving.
  - intros. apply Cooling_shape_preserving.
  - intros. by apply LogisticPopGrowth_shape_preserving.
  - intros r P. unfold Euler_advance, RK2_advance.
    rewrite LogisticPopGrowth_zero_capacity. split; reflexivity.
  - intros. by apply central_gravity_euler_seven.
Qed.

(** C10 as stated fails on a scalar state, which is not refused as out
    of bounds, and on the state of a gravity body, which [Euler_advance]
    does not accept: on the scalar state of cooling [RK4_advance] raises
    [TypeError], and on the seven-component state of a gravity body
    [Euler_advance] raises [ValueError] under central gravity. *)
Lemma RK4_scalar_Euler_seven :
  RK4_advance (Physics.Cooling_diff_eq 20 0.1) 0 (Num 90) 0.01 = Raise TypeError
  ∧ Euler_advance (Physics.CentralGravity_diff_eq (4 * PI ^ 2) 1) 0
      (Arr [1; 0; 0; 0; 2; 0; 3]%R) 0.01
    = Raise ValueError.
Proof.
  split; [reflexivity|].
  apply (central_gravity_euler_seven (4 * PI ^ 2) 1 0 0.01 1 0 0 0 2 0 3). lra.
Qed.

(** The two-component state of uniform gravity under [Euler_advance] and
    [RK4_advance]. *)
Example uniform_gravity_one_step :
  let d := Physics.UniformGravity_diff_eq (-9.81) in
  Euler_advance d 0 (Arr [0; 0]%R) 1 = Ok ((0 + 1), Arr [0 + 0 * 1; 0 + -9.81 * 1])%R
  ∧ RK4_advance d 0 (Arr [0; 0]%R) 1 = Raise IndexError.
Proof. split; reflexivity. Qed.

(** ** Cooling *)

(** C6: constructing [Cooling] does not succeed: [self.dt_max =
    super.dt_max] reads an attribute of the builtin [super] type and raises
    [AttributeError] before the base initializer runs, for every solver,
    ambient temperature and coefficient.  The other variants, which do not
    have that line, construct; and the derivative function of [Cooling], had
    an instance been built, returns [k*(Ta-T)]. *)
Theorem Cooling_init_raises (s : Solver.Solver) (Ta k t T : R) :
  Physics.Cooling_init s Ta k = Raise AttributeError
  ∧ Physics.diff_eq (Physics.Physics_init s (Physics.CoolingLaw Ta k)) t (Num T)
    = Ok (Num (k * (Ta - T))).
Proof. split; reflexivity. Qed.

(** ** Vectors *)

Lemma deg2rad_rad2deg (a : R) : Vector.deg2rad (Vector.rad2deg a) = a.
Proof.
  unfold Vector.deg2rad, Vector.rad2deg.
  pose proof PI_neq0. field. assumption.
Qed.

Lemma Vector_r_pos (v : Vector.Vector) :
  Vector.x v ≠ 0%R → (0 < Vector.r v)%R.
Proof.
  intros Hx. unfold Vector.r, square. apply sqrt_lt_R0.
  assert (0 < Vector.x v * Vector.x v)%R by nra.
  assert (0 <= Vector.y v * Vector.y v)%R by nra. lra.
Qed.

(** The magnitude, with the abscissa factored out. *)
Lemma Vector_r_factor (v : Vector.Vector) :
  Vector.x v ≠ 0%R →
  Vector.r v = (Rabs (Vector.x v) * sqrt (1 + (Vector.y v / Vector.x v)²))%R.
Proof.
  intros Hx. unfold Vector.r, square.
  rewrite <- sqrt_Rsqr_abs, <- sqrt_mult.
  - f_equal. unfold Rsqr. field. assumption.
  - apply Rle_0_sqr.
  - pose proof (Rle_0_sqr (Vector.y v / Vector.x v)). lra.
Qed.

Lemma Vector_r_set_r (v : Vector.Vector) :
  Vector.r v ≠ 0%R → Vector.r_set v (Vector.r v) = v.
Proof.
  intros Hr. destruct v as [x y]. unfold Vector.r_set. cbn [Vector.x Vector.y].
  f_equal; field; assumption.
Qed.

(** Assigning a vector its own angle sends it to the half plane of
    positive abscissa. *)
Lemma Vector_theta_set_theta (v : Vector.Vector) :
  Vector.x v ≠ 0%R →
  Vector.theta_set v (Vector.theta v)
  = {| Vector.x := Rabs (Vector.x v);
       Vector.y := (Rabs (Vector.x v) * (Vector.y v / Vector.x v))%R |}.
Proof.
  intros Hx. unfold Vector.theta_set, Vector.theta. cbn [Vector.x Vector.y].
  rewrite deg2rad_rad2deg, cos_atan, sin_atan, (Vector_r_factor v Hx).
  assert (0 < sqrt (1 + (Vector.y v / Vector.x v)²))%R.
  { apply sqrt_lt_R0. pose proof (Rle_0_sqr (Vector.y v / Vector.x v)). lra. }
  f_equal; field; lra.
Qed.

(** C7, as the code has it: for every vector with non-zero components,
    assigning [v.r = v.r] leaves [x] and [y] unchanged; assigning
    [v.theta = v.theta] leaves them unchanged when [x] is positive, and
    negates both when [x] is negative (the angle is [arctan(y/x)], which
    forgets the half plane). *)
Theorem Vector_round_trip (v : Vector.Vector) :
  Vector.x v ≠ 0%R → Vector.y v ≠ 0%R →
  Vector.r_set v (Vector.r v) = v
  ∧ ((0 < Vector.x v)%R → Vector.theta_set v (Vector.theta v) = v)
  ∧ ((Vector.x v < 0)%R →
     Vector.theta_set v (Vector.theta v)
     = {| Vector.x := (- Vector.x v)%R; Vector.y := (- Vector.y v)%R |}).
Proof.
  intros Hx Hy. split; [|split].
  - apply Vector_r_set_r. pose proof (Vector_r_pos v Hx). lra.
  - intros Hpos. rewrite Vector_theta_set_theta by assumption.
    destruct v as [x y]. cbn [Vector.x Vector.y] in *.
    rewrite Rabs_right by lra. f_equal. field. assumption.
  - intros Hneg. rewrite Vector_theta_set_theta by assumption.
    destruct v as [x y]. cbn [Vector.x Vector.y] in *.
    rewrite Rabs_left by lra. f_equal. field. assumption.
Qed.

Lemma Vector_round_trip_witness :
  let v := {| Vector.x := 3%R; Vector.y := 4%R |} in
  Vector.r_set v (Vector.r v) = v
  ∧ ((0 < Vector.x v)%R → Vector.theta_set v (Vector.theta v) = v)
  ∧ ((Vector.x v < 0)%R →
     Vector.theta_set v (Vector.theta v)
     = {| Vector.x := (- Vector.x v)%R; Vector.y := (- Vector.y v)%R |}).
Proof.
  apply (Vector_round_trip {| Vector.x := 3%R; Vector.y := 4%R |});
    cbn [Vector.x Vector.y]; lra.
Defined.

(** C7 as stated fails on the vector (-1, 1): assigning it its own angle
    yields (1, -1). *)
Lemma Vector_theta_round_trip_fails :
  let v := {| Vector.x := (-1)%R; Vector.y := 1%R |} in
  Vector.x v ≠ 0%R ∧ Vector.y v ≠ 0%R
  ∧ Vector.theta_set v (Vector.theta v) = {| Vector.x := 1%R; Vector.y := (-1)%R |}
  ∧ Vector.theta_set v (Vector.theta v) ≠ v.
Proof.
  intros v.
  assert (Hx : Vector.x v ≠ 0%R) by (cbn; lra).
  assert (Hv : Vector.theta_set v (Vector.theta v)
               = {| Vector.x := 1%R; Vector.y := (-1)%R |}).
  { rewrite Vector_theta_set_theta by assumption. subst v. cbn [Vector.x Vector.y].
    rewrite Rabs_left by lra. f_equal; lra. }
  repeat split.
  - assumption.
  - cbn; lra.
  - assumption.
  - rewrite Hv. subst v. intros Heq. inversion Heq. lra.
Qed.

(** ** Orbit models *)

Import Body Model.

Lemma OrbitModel_init_body_spec (aL eL mL : list R) (nL : list string)
    (bs : list (option GravBody)) (d : gmap string nat) (i : nat) (el : elements) :
  aL !! i = Some (el_a el) → eL !! i = Some (el_e el) →
  mL !! i = Some (el_mass el) → nL !! i = Some (el_name el) →
  admissible el →
  OrbitModel_init_body aL eL mL nL (bs, d) i
  = Ok (bs ++ [built_body el], <[el_name el := length bs]> d).
Proof.
  intros Ha He Hm Hn [Hne Hpos].
  unfold OrbitModel_init_body, list_getitem.
  rewrite Ha, He, Hm, Hn. cbn [mbind result_bind].
  rewrite float_div_Ok by lra. cbn [mbind result_bind].
  rewrite float_div_Ok by lra. cbn [mbind result_bind mret result_ret].
  unfold built_body.
  replace (4 * PI ^ 2 * 1 * 1 * ((1 + el_e el) / (1 - el_e el)) / el_a el)%R
    with (4 * PI ^ 2 * (1 + el_e el) / ((1 - el_e el) * el_a el))%R
    by (field; split; lra).
  reflexivity.
Qed.

Lemma for_each_init_body (aL eL mL : list R) (nL : list string)
    (todo : list elements) :
  ∀ (k : nat) (bs : list (option GravBody)) (d : gmap string nat),
    length bs = k →
    (∀ j el, todo !! j = Some el →
             aL !! (k + j) = Some (el_a el) ∧ eL !! (k + j) = Some (el_e el)
             ∧ mL !! (k + j) = Some (el_mass el) ∧ nL !! (k + j) = Some (el_name el)) →
    Forall admissible todo →
    for_each (OrbitModel_init_body aL eL mL nL) (bs, d) (seq k (length todo))
    = Ok (bs ++ (built_body <$> todo), bind_names k todo d).
Proof.
  induction todo as [|el todo IH]; intros k bs d Hk Hat Hok.
  - cbn. by rewrite app_nil_r.
  - cbn [length seq for_each].
    destruct (Hat 0 el eq_refl) as (Ha & He & Hm & Hn).
    rewrite Nat.add_0_r in Ha, He, Hm, Hn.
    rewrite (OrbitModel_init_body_spec _ _ _ _ _ _ _ el) by
      (try assumption; by inversion Hok).
    cbn [mbind result_bind]. rewrite IH.
    + cbn [fmap list_fmap bind_names]. rewrite <- app_assoc, Hk. reflexivity.
    + rewrite length_app. simpl. lia.
    + intros j el' Hj. specialize (Hat (S j) el' Hj).
      by rewrite Nat.add_succ_r in Hat.
    + by inversion Hok.
Qed.

(** The radicand of the speed is not negative exactly when the
    eccentricity lies in [[-1, 1)]. *)
Lemma radicand_sign (el : elements) :
  admissible el →
  (0 <= 4 * PI ^ 2 * (1 + el_e el) / ((1 - el_e el) * el_a el))%R ↔ real_speed el.
Proof.
  intros [Hne Ha]. unfold real_speed.
  assert (HPI : (0 < 4 * PI ^ 2)%R) by (pose proof PI_RGT_0; nra).
  set (K := (4 * PI ^ 2 / ((1 - el_e el) * el_a el))%R).
  replace (4 * PI ^ 2 * (1 + el_e el) / ((1 - el_e el) * el_a el))%R
    with (K * (1 + el_e el))%R by (unfold K; field; split; lra).
  destruct (Rlt_dec (el_e el) 1) as [Hlt|Hge].
  - assert (HK : (0 < K)%R).
    { unfold K. apply Rdiv_lt_0_compat; [assumption|nra]. }
    split; [intros H; split; [nra|assumption]|intros [H _]; nra].
  - assert (HK : (K < 0)%R).
    { unfold K, Rdiv. assert (/ ((1 - el_e el) * el_a el) < 0)%R
        by (apply Rinv_lt_0_compat; nra). nra. }
    split; [intros H; exfalso; nra|intros [_ H]; lra].
Qed.

Lemma built_body_real (el : elements) :
  admissible el → real_speed el → built_body el = Some (perihelion_body el).
Proof.
  intros Hok Hreal. apply radicand_sign in Hreal; [|assumption].
  unfold built_body, np_sqrt.
  by destruct (Rle_dec 0 _) as [_|]; [|contradiction].
Qed.

Lemma built_body_not_real (el : elements) :
  admissible el → ¬ real_speed el → built_body el = None.
Proof.
  intros Hok Hreal. unfold built_body, np_sqrt.
  destruct (Rle_dec 0 _) as [Hle|]; [|reflexivity].
  apply radicand_sign in Hle; [contradiction|assumption].
Qed.

Lemma real_bodies_built (els : list elements) :
  Forall admissible els →
  (Forall real_speed els ∧ real_bodies (built_body <$> els) = Ok (perihelion_body <$> els))
  ∨ (¬ Forall real_speed els ∧ real_bodies (built_body <$> els) = Raise NotReal).
Proof.
  induction 1 as [|el els Hel Hels IH]; [left; by split|].
  cbn [fmap list_fmap real_bodies].
  destruct (Rle_dec (-1) (el_e el)) as [Hlo|Hlo];
    [destruct (Rlt_dec (el_e el) 1) as [Hhi|Hhi]|].
  - rewrite (built_body_real el) by (try assumption; by split).
    destruct IH as [[Hall ->]|[Hnot ->]]; [left|right].
    + split; [|reflexivity]. constructor; [by split|assumption].
    + split; [|reflexivity]. intros Hall. apply Hnot. by inversion Hall.
  - right. rewrite built_body_not_real by (try assumption; unfold real_speed; lra).
    split; [|reflexivity]. intros Hall. inversion Hall as [|? ? [_ ?] ?]. lra.
  - right. rewrite built_body_not_real by (try assumption; unfold real_speed; lra).
    split; [|reflexivity]. intros Hall. inversion Hall as [|? ? [? _] ?]. lra.
Qed.

(** What [OrbitModel_init] makes of admissible elements. *)
Lemma OrbitModel_init_outcome (els : list elements) :
  Forall admissible els →
  OrbitModel_init (el_a <$> els) (el_e <$> els) (el_mass <$> els) (el_name <$> els)
  = (bodies ← real_bodies (built_body <$> els);
     mret {| super := Model_init
                        (Physics.CentralGravity_init Solver.RK4
                           Physics.default_planetMass Physics.default_gravConstant)
                        bodies;
             dic := bind_names 0 els ∅ |}).
Proof.
  intros Hok. unfold OrbitModel_init.
  rewrite length_fmap.
  rewrite (for_each_init_body _ _ _ _ els 0 [] ∅); [reflexivity|reflexivity| |assumption].
  intros j el Hj. cbn [Nat.add]. rewrite !list_lookup_fmap, Hj. by cbn.
Qed.

(** What [OrbitModel_init] builds from admissible elements of real
    speed. *)
Lemma OrbitModel_init_spec (els : list elements) :
  Forall admissible els → Forall real_speed els →
  OrbitModel_init (el_a <$> els) (el_e <$> els) (el_mass <$> els) (el_name <$> els)
  = Ok {| super := Model_init
                     (Physics.CentralGravity_init Solver.RK4
                        Physics.default_planetMass Physics.default_gravConstant)
                     (perihelion_body <$> els);
          dic := bind_names 0 els ∅ |}.
Proof.
  intros Hok Hreal. rewrite OrbitModel_init_outcome by assumption.
  destruct (real_bodies_built els Hok) as [[_ ->]|[Hnot _]]; [reflexivity|contradiction].
Qed.

(** With an element whose speed is not real no model over the reals is
    built. *)
Lemma OrbitModel_init_not_real (els : list elements) :
  Forall admissible els → ¬ Forall real_speed els →
  OrbitModel_init (el_a <$> els) (el_e <$> els) (el_mass <$> els) (el_name <$> els)
  = Raise NotReal.
Proof.
  intros Hok Hreal. rewrite OrbitModel_init_outcome by assumption.
  destruct (real_bodies_built els Hok) as [[Hall _]|[_ ->]]; [contradiction|reflexivity].
Qed.

(** A model built from admissible elements is the model of their bodies
    at perihelion. *)
Lemma OrbitModel_init_Ok (els : list elements) (self : OrbitModel) :
  Forall admissible els →
  OrbitModel_init (el_a <$> els) (el_e <$> els) (el_mass <$> els) (el_name <$> els)
  = Ok self →
  Forall real_speed els
  ∧ self = {| super := Model_init
                         (Physics.CentralGravity_init Solver.RK4
                            Physics.default_planetMass Physics.default_gravConstant)
                         (perihelion_body <$> els);
              dic := bind_names 0 els ∅ |}.
Proof.
  intros Hok Hinit. rewrite OrbitModel_init_outcome in Hinit by assumption.
  destruct (real_bodies_built els Hok) as [[Hall E]|[_ E]]; rewrite E in Hinit;
    [|discriminate].
  split; [assumption|]. by inversion Hinit.
Qed.

Lemma bind_names_notin (els : list elements) :
  ∀ k d name, name ∉ (el_name <$> els) → bind_names k els d !! name = d !! name.
Proof.
  induction els as [|el els IH]; intros k d name Hnot; [done|].
  cbn [bind_names]. rewrite fmap_cons, not_elem_of_cons in Hnot.
  destruct Hnot as [Hne Hnot].
  rewrite IH by assumption. by rewrite lookup_insert_ne.
Qed.

Lemma bind_names_lookup_inv (els : list elements) :
  ∀ k d name p,
    bind_names k els d !! name = Some p →
    (∃ el, k ≤ p ∧ els !! (p - k) = Some el ∧ el_name el = name)
    ∨ d !! name = Some p.
Proof.
  induction els as [|el els IH]; intros k d name p Hp; [by right|].
  cbn [bind_names] in Hp. apply IH in Hp as [(el' & Hle & Hel & Hname)|Hp].
  - left. exists el'. split; [lia|]. split; [|done].
    replace (p - k) with (S (p - S k)) by lia. done.
  - destruct (decide (el_name el = name)) as [<-|Hne].
    + rewrite lookup_insert_eq in Hp. inversion Hp; subst.
      left. exists el. rewrite Nat.sub_diag. done.
    + rewrite lookup_insert_ne in Hp by done. by right.
Qed.

Lemma bind_names_lookup (els : list elements) :
  ∀ k d j el,
    NoDup (el_name <$> els) → els !! j = Some el →
    bind_names k els d !! el_name el = Some (k + j).
Proof.
  induction els as [|el0 els IH]; intros k d j el Hnd Hj; [done|].
  rewrite fmap_cons in Hnd. apply NoDup_cons in Hnd as [Hnot Hnd].
  cbn [bind_names]. destruct j as [|j].
  - inversion Hj; subst. rewrite bind_names_notin by done.
    rewrite lookup_insert_eq. f_equal. lia.
  - cbn in Hj. rewrite (IH (S k) _ j el) by done. f_equal. lia.
Qed.

Lemma perihelion_body_consistent (el : elements) : consistent (perihelion_body el).
Proof. split; reflexivity. Qed.

(** A model built by [OrbitModel_init] is well formed. *)
Lemma OrbitModel_init_wf (els : list elements) (self : OrbitModel) :
  Forall admissible els →
  OrbitModel_init (el_a <$> els) (el_e <$> els) (el_mass <$> els) (el_name <$> els)
  = Ok self →
  OrbitModel_wf self.
Proof.
  intros Hok Hinit. apply OrbitModel_init_Ok in Hinit as [_ ->]; [|assumption].
  split; cbn [super bodies dic Model_init].
  - apply Forall_fmap. apply Forall_forall. intros el _.
    apply perihelion_body_consistent.
  - intros name p Hp. rewrite length_fmap.
    apply bind_names_lookup_inv in Hp as [(el & _ & Hel & _)|Hp]; [|done].
    apply lookup_lt_Some in Hel. lia.
Qed.

(** C4: from a list of orbital elements with every eccentricity different
    from 1 and every semi-major axis positive, when every eccentricity lies
    in [[-1, 1)], so that no speed is the root of a negative number,
    [OrbitModel_init] builds one body per element, in order: at
    [(a*(1-e), 0, 0)], with velocity [(0, sqrt(GM*(1+e)/((1-e)*a)), 0)] for
    [GM = 4*pi^2], and with the mass of the element; when some eccentricity
    lies outside, the speed of that body is [nan] and the model built is
    none over the reals. *)
Theorem OrbitModel_init_perihelion (els : list elements) :
  Forall admissible els →
  (Forall real_speed els →
   ∃ self,
     OrbitModel_init (el_a <$> els) (el_e <$> els) (el_mass <$> els) (el_name <$> els)
     = Ok self
     ∧ length (bodies (super self)) = length els
     ∧ ∀ i el, els !! i = Some el →
         ∃ b, bodies (super self) !! i = Some b
              ∧ x b = (el_a el * (1 - el_e el))%R ∧ y b = 0%R ∧ z b = 0%R
              ∧ vx b = 0%R
              ∧ vy b = sqrt (4 * PI ^ 2 * (1 + el_e el) / ((1 - el_e el) * el_a el))
              ∧ vz b = 0%R
              ∧ m b = el_mass el)
  ∧ (¬ Forall real_speed els →
     OrbitModel_init (el_a <$> els) (el_e <$> els) (el_mass <$> els) (el_name <$> els)
     = Raise NotReal).
Proof.
  intros Hok. split; [|by apply OrbitModel_init_not_real].
  intros Hreal. eexists. split; [by apply OrbitModel_init_spec|].
  cbn [super bodies Model_init]. split; [by rewrite length_fmap|].
  intros i el Hel. exists (perihelion_body el).
  rewrite list_lookup_fmap, Hel. done.
Qed.

Lemma OrbitModel_init_perihelion_witness :
  ∃ self,
    OrbitModel_init (el_a <$> [mercury]) (el_e <$> [mercury])
      (el_mass <$> [mercury]) (el_name <$> [mercury])
    = Ok self
    ∧ length (bodies (super self)) = length [mercury]
    ∧ ∀ i el, [mercury] !! i = Some el →
        ∃ b, bodies (super self) !! i = Some b
             ∧ x b = (el_a el * (1 - el_e el))%R ∧ y b = 0%R ∧ z b = 0%R
             ∧ vx b = 0%R
             ∧ vy b = sqrt (4 * PI ^ 2 * (1 + el_e el) / ((1 - el_e el) * el_a el))
             ∧ vz b = 0%R
             ∧ m b = el_mass el.
Proof.
  apply (OrbitModel_init_perihelion [mercury]).
  - constructor; [|constructor]. split; cbn [mercury el_e el_a]; lra.
  - constructor; [|constructor]. split; cbn [mercury el_e]; lra.
Defined.

(** C4 as stated fails beyond that range: with eccentricity 2 and
    semi-major axis 1, an eccentricity different from 1 and a positive axis,
    the radicand is negative, the speed [numpy.sqrt] yields is [nan], and
    the body built has no velocity [(0, sqrt(...), 0)] among the reals. *)
Lemma OrbitModel_init_hyperbola :
  admissible hyperbola
  ∧ (4 * PI ^ 2 * (1 + el_e hyperbola) / ((1 - el_e hyperbola) * el_a hyperbola) < 0)%R
  ∧ np_sqrt (4 * PI ^ 2 * (1 + el_e hyperbola)
             / ((1 - el_e hyperbola) * el_a hyperbola)) = None
  ∧ OrbitModel_init (el_a <$> [hyperbola]) (el_e <$> [hyperbola])
      (el_mass <$> [hyperbola]) (el_name <$> [hyperbola])
    = Raise NotReal.
Proof.
  assert (Hok : admissible hyperbola) by (split; cbn [hyperbola el_e el_a]; lra).
  assert (Hneg : (4 * PI ^ 2 * (1 + el_e hyperbola)
                  / ((1 - el_e hyperbola) * el_a hyperbola) < 0)%R).
  { cbn [hyperbola el_e el_a]. pose proof PI_RGT_0.
    replace (4 * PI ^ 2 * (1 + 2) / ((1 - 2) * 1))%R with (- (12 * PI ^ 2))%R
      by (field; lra).
    nra. }
  split; [assumption|]. split; [assumption|]. split.
  - unfold np_sqrt. destruct (Rle_dec 0 _) as [Hle|]; [lra|reflexivity].
  - apply OrbitModel_init_not_real.
    + by constructor.
    + intros Hall. inversion Hall as [|? ? [_ Hhi] ?]. cbn [hyperbola el_e] in Hhi. lra.
Qed.

(** C8: [get_body] returns the body the dictionary binds to the name when
    the name is present, and raises [KeyError] when it is absent, as does
    [total_energy]; in every case the model is left as it was.  In a model
    built from elements with distinct names, the body bound to the name of
    the [i]-th element is the [i]-th body. *)
Theorem get_body_lookup (self : OrbitModel) (name : string) :
  get_body self name
  = (match dic self !! name with Some p => Ok p | None => Raise KeyError end, self)
  ∧ (dic self !! name = None →
     total_energy self name = (Some (Raise KeyError), self))
  ∧ (∀ els i el,
       Forall admissible els → NoDup (el_name <$> els) →
       OrbitModel_init (el_a <$> els) (el_e <$> els) (el_mass <$> els)
         (el_name <$> els) = Ok self →
       els !! i = Some el → name = el_name el →
       get_body self name = (Ok i, self)
       ∧ bodies (super self) !! i = Some (perihelion_body el)).
Proof.
  split; [|split].
  - unfold get_body, dict_getitem. by destruct (dic self !! name).
  - intros Hnone. unfold total_energy, get_body, dict_getitem. by rewrite Hnone.
  - intros els i el Hok Hnd Hinit Hel ->.
    apply OrbitModel_init_Ok in Hinit as [_ ->]; [|assumption].
    unfold get_body, dict_getitem. cbn [dic super bodies Model_init].
    rewrite (bind_names_lookup els 0 ∅ i el) by done.
    split; [done|]. by rewrite list_lookup_fmap, Hel.
Qed.

(** C5: in a well-formed model, for a name the dictionary binds,
    [total_energy] returns [GM*mass/r + mass*v^2/2] for the body bound to
    the name, with [GM = 4*pi^2], [r] the length of its current position
    and [v] the length of its current velocity; the model, with its clock
    and bodies, is left as it was. *)
Theorem total_energy_formula (self : OrbitModel) (name : string) (p : nat) :
  OrbitModel_wf self → dic self !! name = Some p →
  ∃ b, bodies (super self) !! p = Some b
       ∧ total_energy self name = (Some (Ok (energy b)), self).
Proof.
  intros [Hcons Hdic] Hp.
  destruct (lookup_lt_is_Some_2 (bodies (super self)) p) as [b Hb].
  { by apply (Hdic name p). }
  exists b. split; [assumption|].
  unfold total_energy, get_body, dict_getitem. rewrite Hp, Hb.
  rewrite Forall_lookup in Hcons. destruct (Hcons p b Hb) as [Hr Hv].
  cbn [state getitem lookup list_lookup mbind result_bind mret result_ret].
  unfold pos, vel, energy. rewrite Hr, Hv. unfold square.
  do 3 f_equal. f_equal; [f_equal; f_equal; ring|].
  f_equal. f_equal. f_equal. ring.
Qed.

Lemma total_energy_formula_witness :
  ∃ b, bodies (super one_body_model) !! 0 = Some b
       ∧ total_energy one_body_model "Earth" = (Some (Ok (energy b)), one_body_model).
Proof.
  apply (total_energy_formula one_body_model "Earth" 0).
  - split.
    + repeat constructor.
    + intros name p Hp. cbn [one_body_model dic] in Hp.
      apply lookup_singleton_Some in Hp as [_ <-]. cbn. lia.
  - apply lookup_singleton_eq.
Defined.

(** *** Well-formedness is kept by [advance] *)

Import Physics.

(** A property that every assignment of the state establishes holds of
    the body [advance_loop] returns, if it held of the body it was given. *)
Lemma advance_loop_invariant {num : Type} `{Float num} {st B : Type}
    (solver_advance : num → st → num → result (num * st))
    (state_of : B → st) (state_set : B → st → result B) (dt_max : num)
    (Q : B → Prop) :
  (∀ b s b', state_set b s = Ok b' → Q b') →
  ∀ fuel t body dt t' body',
    Q body →
    advance_loop solver_advance state_of state_set dt_max fuel t body dt
    = Some (Ok (t', body')) →
    Q body'.
Proof.
  intros Hset. induction fuel as [|fuel IH]; intros t body dt t' body' HQ Hrun.
  - cbn in Hrun. destruct (f_gt (f_abs dt) f_zero); [discriminate|].
    by inversion Hrun; subst.
  - cbn in Hrun. destruct (f_gt (f_abs dt) f_zero).
    + destruct (solver_advance _ _ _) as [[t1 s1]|]; [|discriminate].
      destruct (state_set body s1) as [b1|] eqn:Eset; [|discriminate].
      eapply IH; [|exact Hrun]. by eapply Hset.
    + by inversion Hrun; subst.
Qed.

Lemma state_set_consistent (b : GravBody) (f : value) (b' : GravBody) :
  state_set b f = Ok b' → consistent b'.
Proof.
  unfold state_set. intros Hset. bind_inv Hset.
  inversion Hset; subst. split; reflexivity.
Qed.

Lemma advance_bodies_invariant (physics : Physics.Physics) (fuel : nat) (time t : R)
    (l : list nat) :
  ∀ tn bs tn' bs',
    Forall consistent bs →
    advance_bodies physics fuel time t (tn, bs) l = Some (Ok (tn', bs')) →
    Forall consistent bs' ∧ length bs' = length bs.
Proof.
  induction l as [|i l IH]; intros tn bs tn' bs' Hbs Hrun.
  - cbn in Hrun. by inversion Hrun; subst.
  - cbn [advance_bodies] in Hrun. unfold advance_body, list_getitem in Hrun.
    destruct (bs !! i) as [b|] eqn:Hb; [|discriminate].
    destruct (Physics.advance physics fuel time b t) as [[[t1 b1]|]|] eqn:Eadv;
      try discriminate.
    apply IH in Hrun as [Hcons Hlen].
    + split; [assumption|]. by rewrite Hlen, length_insert.
    + apply Forall_insert; [assumption|].
      unfold Physics.advance in Eadv.
      apply (advance_loop_invariant
               (Solver.advance (diff_eq physics) (solver physics))
               (@get_state GravBody GravBody_Body)
               (@set_state GravBody GravBody_Body) (dt_max physics) consistent
               state_set_consistent fuel time b t t1 b1); [|exact Eadv].
      rewrite Forall_lookup in Hbs. by eapply Hbs.
Qed.

(** [OrbitModel_advance] keeps a model well formed. *)
Lemma OrbitModel_advance_wf (fuel : nat) (self : OrbitModel) (t tn : R)
    (self' : OrbitModel) :
  OrbitModel_wf self →
  OrbitModel_advance fuel self t = Some (Ok (tn, self')) →
  OrbitModel_wf self'.
Proof.
  intros [Hcons Hdic] Hadv. unfold OrbitModel_advance, Model.advance in Hadv.
  destruct (advance_bodies (physics (super self)) fuel (time (super self)) t
              (None, bodies (super self)) (seq 0 (length (bodies (super self)))))
    as [[[[tn1|] bs1]|]|] eqn:Erun; try discriminate.
  inversion Hadv; subst.
  apply advance_bodies_invariant in Erun as [Hcons1 Hlen]; [|assumption].
  split; cbn [super bodies dic]; [assumption|].
  intros name p Hp. rewrite Hlen. by apply (Hdic name p).
Qed.

(** ** The vectorized collection *)

Import Library.GravBodies.

Lemma pop_scan_spec (k : nat) (d : gmap string nat) (name : string) (v : nat) :
  d !! name = Some v →
  ∃ d', pop_scan k d name = Ok d'
        ∧ d' !! name = shift k v
        ∧ ∀ name', name' ≠ name → d' !! name' = d !! name'.
Proof.
  intros Hv. unfold pop_scan, dict_getitem, shift. rewrite Hv.
  cbn [mbind result_bind mret result_ret].
  destruct (decide (v = k)); [|destruct (decide (k < v))]; eexists;
    (split; [reflexivity|split]).
  - apply lookup_delete_eq.
  - intros name' Hne. by apply lookup_delete_ne.
  - apply lookup_insert_eq.
  - intros name' Hne. by apply lookup_insert_ne.
  - assumption.
  - done.
Qed.

(** The scan over any duplicate-free list of bound names, in any order. *)
Lemma pop_scan_for_each (k : nat) (ks : list string) :
  ∀ d, NoDup ks → (∀ name, name ∈ ks → is_Some (d !! name)) →
    ∃ d', for_each (pop_scan k) d ks = Ok d'
          ∧ ∀ name, d' !! name
                    = if decide (name ∈ ks) then d !! name ≫= shift k else d !! name.
Proof.
  induction ks as [|name0 ks IH]; intros d Hnd Hin.
  - exists d. split; [done|]. intros name.
    destruct (decide (name ∈ [])) as [H|]; [by apply elem_of_nil in H|done].
  - apply NoDup_cons in Hnd as [Hnot Hnd].
    destruct (Hin name0) as [v Hv]; [by left|].
    destruct (pop_scan_spec k d name0 v Hv) as (d1 & Hscan & Hsame & Hother).
    destruct (IH d1 Hnd) as (d' & Hrun & Hd').
    { intros name Hname. rewrite Hother by (intros ->; contradiction).
      apply Hin. by right. }
    exists d'. split.
    { cbn [for_each]. rewrite Hscan. done. }
    intros name. rewrite Hd'.
    destruct (decide (name = name0)) as [->|Hne].
    + destruct (decide (name0 ∈ ks)); [contradiction|].
      destruct (decide (name0 ∈ name0 :: ks)) as [_|Hn]; [|by exfalso; apply Hn; left].
      by rewrite Hsame, Hv.
    + rewrite Hother by done.
      destruct (decide (name ∈ ks)) as [Hk|Hk];
        destruct (decide (name ∈ name0 :: ks)) as [Hk'|Hk']; try done.
      * exfalso. apply Hk'. by right.
      * apply elem_of_cons in Hk' as [?|?]; done.
Qed.

(** The scan of [pop] over the keys of the dictionary. *)
Lemma pop_scan_keys (k : nat) (d : gmap string nat) :
  ∃ d', for_each (pop_scan k) d (keys d) = Ok d'
        ∧ ∀ name, d' !! name = d !! name ≫= shift k.
Proof.
  destruct (pop_scan_for_each k (keys d) d) as (d' & Hrun & Hd').
  - apply NoDup_fst_map_to_list.
  - intros name Hname. unfold keys in Hname.
    apply list_elem_of_fmap in Hname as ([name' v] & -> & Hin).
    apply elem_of_map_to_list in Hin. by exists v.
  - exists d'. split; [assumption|]. intros name. rewrite Hd'.
    destruct (decide (name ∈ keys d)) as [|Hnot]; [done|].
    destruct (d !! name) as [v|] eqn:Hv; [|done].
    exfalso. apply Hnot. unfold keys. apply list_elem_of_fmap.
    exists (name, v). split; [done|]. by apply elem_of_map_to_list.
Qed.

Lemma np_delete_lt {A : Type} (a : list A) (i : nat) :
  i < length a → np_delete a i = Ok (delete i a).
Proof. intros Hi. unfold np_delete. by destruct (decide (i < length a)). Qed.

Lemma length_delete_lt {A : Type} (a : list A) (i : nat) :
  i < length a → length (delete i a) = length a - 1.
Proof. intros Hi. apply length_delete. by apply lookup_lt_is_Some_2. Qed.

(** What [pop] does at a valid row index. *)
Lemma pop_spec (self : GravBodies) (k : nat) :
  GravBodies_wf self → k < len self →
  ∃ row b d',
    state self !! k = Some row ∧ _bodies self !! k = Some b
    ∧ (∀ name, d' !! name = _dict self !! name ≫= shift k)
    ∧ pop self (Pos k)
      = Ok ({| Library.GravBody.state := row; Library.GravBody.mass := Library.GravBody.mass b |},
            {| _bodies := delete k (_bodies self);
               state := delete k (state self);
               mass := delete k (mass self);
               _dict := d' |}).
Proof.
  intros (Hb & Hm & Hd) Hk. unfold len in *.
  destruct (lookup_lt_is_Some_2 (state self) k Hk) as [row Hrow].
  destruct (lookup_lt_is_Some_2 (_bodies self) k) as [b Hbk]; [lia|].
  destruct (pop_scan_keys k (_dict self)) as (d' & Hscan & Hd').
  exists row, b, d'. repeat split; try assumption.
  unfold pop, getitem, resolve, list_getitem.
  cbn [mbind result_bind mret result_ret]. rewrite Hrow, Hbk.
  cbn [mbind result_bind mret result_ret state mass _dict _bodies].
  rewrite (np_delete_lt (state self) k) by lia.
  cbn [mbind result_bind mret result_ret].
  rewrite (np_delete_lt (mass self) k) by lia.
  cbn [mbind result_bind mret result_ret]. rewrite Hscan.
  cbn [mbind result_bind mret result_ret].
  rewrite np_delete_lt by (rewrite length_insert; lia).
  cbn [mbind result_bind mret result_ret].
  do 3 f_equal.
  apply list_eq. intros j. destruct (decide (j < k)).
  - rewrite !list_lookup_delete_lt by done. apply list_lookup_insert_ne. lia.
  - rewrite !list_lookup_delete_ge by lia. apply list_lookup_insert_ne. lia.
Qed.

(** C9: in a collection whose row counts agree and whose names all map to
    rows, [pop] at a row index [k] returns, removes row [k], keeps the index
    of every name mapped below [k], lowers by one the index of every name
    mapped above [k], unbinds every name mapped to [k] and binds no new
    name; what remains is again such a collection, so that every mapping
    value is a row index of the shortened matrix.  A name mapped to [k]
    pops the same row. *)
Theorem pop_indexing (self : GravBodies) (k : nat) :
  GravBodies_wf self → k < len self →
  ∃ ret self',
    pop self (Pos k) = Ok (ret, self')
    ∧ state self' = delete k (state self)
    ∧ len self' = len self - 1
    ∧ (∀ name v, _dict self !! name = Some v → v < k →
                 _dict self' !! name = Some v)
    ∧ (∀ name v, _dict self !! name = Some v → k < v →
                 _dict self' !! name = Some (v - 1))
    ∧ (∀ name, _dict self !! name = Some k → _dict self' !! name = None)
    ∧ (∀ name, _dict self !! name = None → _dict self' !! name = None)
    ∧ GravBodies_wf self'
    ∧ (∀ name v, _dict self' !! name = Some v → v < len self')
    ∧ (∀ name, _dict self !! name = Some k →
               pop self (Name name) = pop self (Pos k)).
Proof.
  intros Hwf Hk.
  destruct (pop_spec self k Hwf Hk) as (row & b & d' & Hrow & Hb & Hd' & Hpop).
  destruct Hwf as (Hbl & Hml & Hdl). unfold len in *.
  assert (Hvalid : ∀ name v, d' !! name = Some v → v < length (state self) - 1).
  { intros name v Hv. rewrite Hd' in Hv.
    destruct (_dict self !! name) as [w|] eqn:Hw; [|discriminate].
    apply Hdl in Hw. cbn in Hv, Hw. unfold shift in Hv.
    destruct (decide (w = k)); [discriminate|].
    destruct (decide (k < w)); inversion Hv; subst; lia. }
  eexists _, _. split; [exact Hpop|]. cbn [state _dict _bodies mass].
  split; [reflexivity|]. split; [by apply length_delete_lt|].
  split; [|split; [|split; [|split; [|split; [|split]]]]].
  - intros name v Hv Hlt. rewrite Hd', Hv. cbn. unfold shift.
    destruct (decide (v = k)); [lia|]. destruct (decide (k < v)); [lia|done].
  - intros name v Hv Hlt. rewrite Hd', Hv. cbn. unfold shift.
    destruct (decide (v = k)); [lia|]. destruct (decide (k < v)); [done|lia].
  - intros name Hv. rewrite Hd', Hv. cbn. unfold shift.
    destruct (decide (k = k)); done.
  - intros name Hv. by rewrite Hd', Hv.
  - unfold GravBodies_wf, len. cbn [state _dict _bodies mass].
    rewrite !length_delete_lt by lia. split; [lia|]. split; [lia|].
    intros name v Hv. by apply (Hvalid name v).
  - intros name v Hv. rewrite length_delete_lt by lia. by apply (Hvalid name v).
  - intros name Hv. unfold pop at 1. unfold resolve, dict_getitem. rewrite Hv.
    reflexivity.
Qed.

Lemma pop_indexing_witness :
  ∃ ret self',
    pop three_bodies (Pos 1) = Ok (ret, self')
    ∧ state self' = delete 1 (state three_bodies)
    ∧ len self' = len three_bodies - 1
    ∧ (∀ name v, _dict three_bodies !! name = Some v → v < 1 →
                 _dict self' !! name = Some v)
    ∧ (∀ name v, _dict three_bodies !! name = Some v → 1 < v →
                 _dict self' !! name = Some (v - 1))
    ∧ (∀ name, _dict three_bodies !! name = Some 1 → _dict self' !! name = None)
    ∧ (∀ name, _dict three_bodies !! name = None → _dict self' !! name = None)
    ∧ GravBodies_wf self'
    ∧ (∀ name v, _dict self' !! name = Some v → v < len self')
    ∧ (∀ name, _dict three_bodies !! name = Some 1 →
               pop three_bodies (Name name) = pop three_bodies (Pos 1)).
Proof.
  apply (pop_indexing three_bodies 1).
  - split; [reflexivity|]. split; [reflexivity|].
    cbn [three_bodies _dict]. unfold len. cbn [three_bodies state length].
    repeat (apply map_Forall_insert_2; [lia|]). apply map_Forall_empty.
  - unfold len. cbn. lia.
Defined.

(** Popping "Earth" from Sun, Earth, Mars: Mars moves to row one. *)
Example pop_earth :
  (pop three_bodies (Name "Earth") ≫= λ '(_, s),
     Ok (_dict s !! "Sun", _dict s !! "Earth", _dict s !! "Mars", len s))
  = Ok (Some 0, None, Some 1, 2).
Proof. vm_compute. reflexivity. Qed.

(** ** The substep loop *)

Lemma Rgtb_true (a b : R) : (a > b)%R → Rgtb a b = true.
Proof. intros H. unfold Rgtb. by destruct (Rgt_dec a b). Qed.

Lemma Rgtb_false (a b : R) : ¬ (a > b)%R → Rgtb a b = false.
Proof. intros H. unfold Rgtb. by destruct (Rgt_dec a b). Qed.

Lemma Rsign_abs (r : R) : (Rsign r * Rabs r)%R = r.
Proof.
  unfold Rsign. destruct (Rlt_dec r 0); [rewrite Rabs_left by lra; lra|].
  destruct (Rgt_dec r 0); [rewrite Rabs_right by lra; lra|].
  replace r with 0%R by lra. rewrite Rabs_R0. lra.
Qed.

(** Over the reals the substep of the loop is the substep of the
    specification. *)
Lemma substep_spec_step (dt_max r : R) :
  substep (num := R) dt_max r = spec_step dt_max r.
Proof.
  unfold substep, spec_step. cbn [f_gt f_abs f_mul f_sign R_Float].
  unfold Rgtb. destruct (Rgt_dec (Rabs r) dt_max).
  - rewrite Rmin_right by lra. lra.
  - rewrite Rmin_left by lra. by rewrite Rsign_abs.
Qed.

(** One substep brings the remaining duration [dt_max] closer to zero, or
    to zero. *)
Lemma spec_step_decreases (dt_max r : R) (N : nat) :
  (0 < dt_max)%R → (Rabs r <= INR (S N) * dt_max)%R →
  (Rabs (r - spec_step dt_max r) <= INR N * dt_max)%R.
Proof.
  intros Hmax Hr. rewrite S_INR in Hr. unfold spec_step, Rsign.
  pose proof (pos_INR N) as HN.
  destruct (Rle_dec (Rabs r) dt_max) as [Hle|Hgt].
  - rewrite Rmin_left by lra. fold (Rsign r). rewrite Rsign_abs.
    replace (r - r)%R with 0%R by lra. rewrite Rabs_R0. nra.
  - rewrite Rmin_right by lra.
    destruct (Rlt_dec r 0).
    + rewrite Rabs_left in Hr, Hgt by lra. rewrite Rabs_left by lra. lra.
    + destruct (Rgt_dec r 0).
      * rewrite Rabs_right in Hr, Hgt by lra. rewrite Rabs_right by lra. lra.
      * replace r with 0%R in Hgt by lra. rewrite Rabs_R0 in Hgt. lra.
Qed.

Section ExactLoop.
Context {st B : Type}.
Variable solver_advance : R → st → R → result (R * st).
Variable state_of : B → st.
Variable state_set : B → st → result B.
Variable dt_max : R.
Hypothesis dt_max_pos : (0 < dt_max)%R.

(** A remaining duration of at most [N] substeps is consumed within [N]
    turns of the loop. *)
Lemma advance_loop_bounded (N : nat) :
  ∀ dt, (Rabs dt <= INR N * dt_max)%R →
    ∃ steps,
      substeps_of dt_max dt steps
      ∧ length steps ≤ N
      ∧ ∀ fuel t body, N ≤ fuel →
          advance_loop solver_advance state_of state_set dt_max fuel t body dt
          = Some (run_steps solver_advance state_of state_set t body steps).
Proof.
  induction N as [|N IH]; intros dt Hdt.
  - assert (dt = 0%R) as ->.
    { cbn in Hdt. pose proof (Rabs_pos dt).
      destruct (Req_dec_T dt 0) as [|Hne]; [done|].
      pose proof (Rabs_pos_lt dt Hne). lra. }
    exists []. split; [constructor|]. split; [done|].
    intros fuel t body _.
    destruct fuel; cbn [advance_loop f_gt f_abs f_zero R_Float];
      rewrite Rabs_R0, Rgtb_false by lra; reflexivity.
  - destruct (Req_dec_T dt 0) as [->|Hne].
    + exists []. split; [constructor|]. split; [cbn; lia|].
      intros fuel t body _.
      destruct fuel; cbn [advance_loop f_gt f_abs f_zero R_Float];
        rewrite Rabs_R0, Rgtb_false by lra; reflexivity.
    + destruct (IH (dt - spec_step dt_max dt)%R) as (steps & Hsteps & Hlen & Hrun).
      { by apply spec_step_decreases. }
      exists (spec_step dt_max dt :: steps).
      split; [by constructor|]. split; [cbn; lia|].
      intros fuel t body Hfuel. destruct fuel as [|fuel]; [lia|].
      cbn [advance_loop run_steps].
      cbn [f_gt f_abs f_zero f_sub R_Float].
      rewrite Rgtb_true by (apply Rabs_pos_lt; assumption).
      rewrite substep_spec_step.
      destruct (solver_advance t (state_of body) (spec_step dt_max dt))
        as [[t1 s1]|]; [|reflexivity].
      destruct (state_set body s1) as [b1|]; [|reflexivity].
      apply Hrun. lia.
Qed.

(** The substeps add up to the requested duration. *)
Lemma substeps_of_sum (dt : R) (steps : list R) :
  substeps_of dt_max dt steps → ∀ t, fold_left Rplus steps t = (t + dt)%R.
Proof.
  induction 1 as [|r steps Hr Hsteps IH]; intros t; cbn [fold_left].
  - lra.
  - rewrite IH. lra.
Qed.

(** With a solver that keeps time, the time after a run is the start
    time advanced by the steps, in order. *)
Lemma run_steps_time (steps : list R) :
  keeps_time solver_advance →
  ∀ t body t' body',
    run_steps solver_advance state_of state_set t body steps = Ok (t', body') →
    t' = fold_left Rplus steps t.
Proof.
  intros Hkeep. induction steps as [|step steps IH]; intros t body t' body' Hrun.
  - cbn in Hrun. by inversion Hrun.
  - cbn [run_steps] in Hrun.
    destruct (solver_advance t (state_of body) step) as [[t1 s1]|] eqn:Eadv;
      [|discriminate].
    destruct (state_set body s1) as [b1|]; [|discriminate].
    apply Hkeep in Eadv as ->. cbn [fold_left]. by eapply IH.
Qed.

(** Every duration is at most some number of substeps. *)
Lemma duration_bounded (dt : R) : ∃ N, (Rabs dt <= INR N * dt_max)%R.
Proof.
  pose proof (Rabs_pos dt) as Habs.
  destruct (archimed (Rabs dt / dt_max)) as [Hup _].
  assert (Hq : (0 <= Rabs dt / dt_max)%R).
  { apply Rmult_le_pos; [assumption|]. left. by apply Rinv_0_lt_compat. }
  assert (Hz : (0 <= up (Rabs dt / dt_max))%Z).
  { apply le_IZR. lra. }
  exists (Z.to_nat (up (Rabs dt / dt_max))).
  rewrite INR_IZR_INZ, Z2Nat.id by assumption.
  assert (Rabs dt = Rabs dt / dt_max * dt_max)%R as Heq by (field; lra).
  rewrite Heq at 1. apply Rmult_le_compat_r; lra.
Qed.
End ExactLoop.

(** The three schemes keep time. *)
Lemma Solver_advance_keeps_time (d : diff_eq_t) (s : Solver.Solver) :
  keeps_time (Solver.advance d s).
Proof.
  intros x f dx x' f' Hadv. destruct s; cbn [Solver.advance] in Hadv.
  - unfold Euler_advance in Hadv. bind_inv Hadv. by inversion Hadv.
  - unfold RK2_advance in Hadv. bind_inv Hadv. by inversion Hadv.
  - unfold RK4_advance in Hadv. bind_inv Hadv. by inversion Hadv.
Qed.

(** C2, over exact real arithmetic: for every requested duration [dt] and
    every [dt_max > 0] the loop of [Physics.advance] terminates.  There is
    a list of substeps, each the sign of the remaining duration times the
    smaller of its magnitude and [dt_max], after which the remaining
    duration is exactly zero; from some budget of turns on, the loop returns
    what taking these substeps with the solver returns; and when the solver
    keeps time (as the three schemes do), the returned time is the start
    time advanced by the substeps, which is the start time plus [dt]. *)
Theorem advance_loop_terminates_exact {st B : Type}
    (solver_advance : R → st → R → result (R * st))
    (state_of : B → st) (state_set : B → st → result B)
    (dt_max t dt : R) (body : B) :
  (0 < dt_max)%R →
  ∃ steps,
    substeps_of dt_max dt steps
    ∧ (∃ N, ∀ fuel, N ≤ fuel →
         advance_loop solver_advance state_of state_set dt_max fuel t body dt
         = Some (run_steps solver_advance state_of state_set t body steps))
    ∧ (dt - fold_left Rplus steps 0 = 0)%R
    ∧ (keeps_time solver_advance →
       ∀ t' body',
         run_steps solver_advance state_of state_set t body steps = Ok (t', body') →
         t' = fold_left Rplus steps t ∧ t' = (t + dt)%R).
Proof.
  intros Hpos.
  destruct (duration_bounded dt_max Hpos dt) as [N HN].
  destruct (advance_loop_bounded solver_advance state_of state_set dt_max Hpos N dt HN)
    as (steps & Hsteps & _ & Hrun).
  exists steps. split; [assumption|]. split.
  { exists N. intros fuel Hfuel. by apply Hrun. }
  split.
  { rewrite (substeps_of_sum dt_max dt steps Hsteps). lra. }
  intros Hkeep t' body' Hok.
  pose proof (run_steps_time solver_advance state_of state_set steps Hkeep
                t body t' body' Hok) as Ht.
  split; [assumption|]. rewrite Ht. by apply (substeps_of_sum dt_max).
Qed.

Lemma advance_loop_terminates_exact_witness :
  let grav := CentralGravity_init Solver.RK4 default_planetMass default_gravConstant in
  let solver_advance := Solver.advance (diff_eq grav) (solver grav) in
  let body := GravBody_init 1 0 0 0 2 0 3 in
  ∃ steps,
    substeps_of 0.001 0.01 steps
    ∧ (∃ N, ∀ fuel, N ≤ fuel →
         advance_loop solver_advance get_state set_state 0.001%R fuel 0%R body 0.01%R
         = Some (run_steps solver_advance get_state set_state 0%R body steps))
    ∧ (0.01 - fold_left Rplus steps 0 = 0)%R
    ∧ (keeps_time solver_advance →
       ∀ t' body',
         run_steps solver_advance get_state set_state 0%R body steps = Ok (t', body') →
         t' = fold_left Rplus steps 0%R ∧ t' = (0 + 0.01)%R).
Proof.
  intros grav solver_advance body.
  apply (advance_loop_terminates_exact solver_advance get_state set_state
           0.001 0 0.01 body).
  lra.
Defined.

(** *** The loop in binary64 arithmetic *)

(** The driver's request, 0.01 with [dt_max = 0.001], takes ten turns in
    binary64 and returns the time 0.010000000000000002. *)
Example advance_loop_b64_driver_step :
  advance_loop b64_clock (λ b : unit, b) (λ _ s, Ok s) b64_dt_max 9 0%float tt b64_dt
  = None
  ∧ advance_loop b64_clock (λ b : unit, b) (λ _ s, Ok s) b64_dt_max 10 0%float tt b64_dt
    = Some (Ok (0x1.47ae147ae147cp-7%float, tt)).
Proof. split; vm_compute; reflexivity. Qed.

(** C2 as stated fails in the arithmetic the program runs in: with the
    default [dt_max = 0.001 > 0] and the finite duration [1e20], the
    substep is absorbed by the subtraction ([1e20 - 0.001 = 1e20]), the
    remaining duration never changes, and with a solver and a state
    assignment that do not raise the loop returns on no budget. *)
Lemma advance_loop_b64_absorbed :
  let dt := 1e20%float in
  f_gt b64_dt_max f_zero = true
  ∧ PrimFloat.is_finite dt = true
  ∧ substep b64_dt_max dt = b64_dt_max
  ∧ f_sub dt (substep b64_dt_max dt) = dt
  ∧ (∀ (st B : Type) (solver_advance : float → st → float → result (float * st))
       (state_of : B → st) (state_set : B → st → result B),
       (∀ t s step, ∃ r, solver_advance t s step = Ok r) →
       (∀ b s, ∃ b', state_set b s = Ok b') →
       ∀ fuel t body,
         advance_loop solver_advance state_of state_set b64_dt_max fuel t body dt
         = None).
Proof.
  intros dt.
  assert (Hgt : f_gt (f_abs dt) f_zero = true) by (vm_compute; reflexivity).
  assert (Hsub : f_sub dt (substep b64_dt_max dt) = dt) by (vm_compute; reflexivity).
  split; [vm_compute; reflexivity|].
  split; [vm_compute; reflexivity|].
  split; [vm_compute; reflexivity|].
  split; [exact Hsub|].
  intros st B solver_advance state_of state_set Hsolver Hset.
  induction fuel as [|fuel IH]; intros t body; cbn [advance_loop]; rewrite Hgt.
  - reflexivity.
  - destruct (Hsolver t (state_of body) (substep b64_dt_max dt)) as [[t1 s1] ->].
    destruct (Hset body s1) as [b1 ->].
    rewrite Hsub. apply IH.
Qed.

(** * Further properties of the code *)

Import Np Solver Body Model Physics.

(** ** [Physics.advance]: time, substeps, budgets *)

Lemma Rabs_not_pos (a : R) : ¬ (Rabs a > 0)%R → a = 0%R.
Proof.
  intros Hn. destruct (Req_dec_T a 0) as [|Hne]; [assumption|].
  exfalso. apply Hn. by apply Rabs_pos_lt.
Qed.

Section ExactLoopMore.
Context {st B : Type}.
Variable solver_advance : R → st → R → result (R * st).
Variable state_of : B → st.
Variable state_set : B → st → result B.
Variable dt_max : R.

(** Whatever [dt_max] is, a returned time is the start time plus the
    requested duration. *)
Lemma advance_loop_time :
  keeps_time solver_advance →
  ∀ fuel t body dt t' body',
    advance_loop solver_advance state_of state_set dt_max fuel t body dt
    = Some (Ok (t', body')) →
    t' = (t + dt)%R.
Proof.
  intros Hkeep. induction fuel as [|fuel IH]; intros t body dt t' body' Hrun;
    cbn [advance_loop f_gt f_abs f_zero f_sub R_Float] in Hrun; unfold Rgtb in Hrun;
    destruct (Rgt_dec (Rabs dt) 0) as [Hgt|Hn]; try discriminate.
  - apply Rabs_not_pos in Hn. inversion Hrun; subst. lra.
  - destruct (solver_advance t (state_of body) (substep dt_max dt))
      as [[t1 s1]|] eqn:Eadv; [|discriminate].
    destruct (state_set body s1) as [b1|]; [|discriminate].
    apply Hkeep in Eadv as ->. apply IH in Hrun. lra.
  - apply Rabs_not_pos in Hn. inversion Hrun; subst. lra.
Qed.

(** A duration within [dt_max] is one call of the solver with the whole
    duration. *)
Lemma advance_loop_one_turn (fuel : nat) (t dt t1 : R) (body b1 : B) (s1 : st) :
  dt ≠ 0%R → (Rabs dt <= dt_max)%R →
  solver_advance t (state_of body) dt = Ok (t1, s1) →
  state_set body s1 = Ok b1 →
  advance_loop solver_advance state_of state_set dt_max (S fuel) t body dt
  = Some (Ok (t1, b1)).
Proof.
  intros Hne Hle Hadv Hset.
  cbn [advance_loop f_gt f_abs f_zero f_sub R_Float].
  rewrite Rgtb_true by (by apply Rabs_pos_lt).
  unfold substep. cbn [f_gt f_abs R_Float]. rewrite Rgtb_false by lra.
  rewrite Hadv, Hset.
  destruct fuel; cbn [advance_loop f_gt f_abs f_zero R_Float];
    replace (dt - dt)%R with 0%R by lra; rewrite Rabs_R0, Rgtb_false by lra;
    reflexivity.
Qed.

(** With [dt_max <= 0] a non-zero remaining duration stays non-zero. *)
Lemma substep_nonpositive_dt_max (dt : R) :
  (dt_max <= 0)%R → dt ≠ 0%R → (dt - substep (num := R) dt_max dt)%R ≠ 0%R.
Proof.
  intros Hmax Hne. unfold substep. cbn [f_gt f_abs f_mul f_sign R_Float].
  pose proof (Rabs_pos_lt dt Hne).
  rewrite Rgtb_true by lra. unfold Rsign.
  destruct (Rlt_dec dt 0); [lra|]. destruct (Rgt_dec dt 0); lra.
Qed.

Lemma advance_loop_nonpositive_dt_max :
  (dt_max <= 0)%R →
  ∀ fuel t body dt r,
    dt ≠ 0%R →
    advance_loop solver_advance state_of state_set dt_max fuel t body dt = Some r →
    ∃ e, r = Raise e.
Proof.
  intros Hmax. induction fuel as [|fuel IH]; intros t body dt r Hne Hrun;
    cbn [advance_loop f_gt f_abs f_zero f_sub R_Float] in Hrun;
    rewrite Rgtb_true in Hrun by (by apply Rabs_pos_lt); [discriminate|].
  destruct (solver_advance t (state_of body) (substep dt_max dt))
    as [[t1 s1]|e]; [|inversion Hrun; by exists e].
  destruct (state_set body s1) as [b1|e]; [|inversion Hrun; by exists e].
  eapply IH; [|exact Hrun]. by apply substep_nonpositive_dt_max.
Qed.

(** The substeps are as many as [dt_max] goes into the duration, rounded
    up, and none is longer than [dt_max]. *)
Lemma substeps_of_count (dt : R) (steps : list R) :
  (0 < dt_max)%R → substeps_of dt_max dt steps →
  Forall (λ s, 0 < Rabs s <= dt_max)%R steps
  ∧ ((INR (length steps) - 1) * dt_max < Rabs dt <= INR (length steps) * dt_max)%R.
Proof.
  intros Hmax. induction 1 as [|r steps Hr Hsteps [IHall IHcount]].
  - split; [constructor|]. cbn. rewrite Rabs_R0. lra.
  - pose proof (Rabs_pos_lt r Hr) as Hpos.
    assert (Hstep : (Rabs (spec_step dt_max r) = Rmin (Rabs r) dt_max)%R).
    { unfold spec_step, Rsign.
      assert (0 < Rmin (Rabs r) dt_max)%R by (by apply Rmin_glb_lt).
      destruct (Rlt_dec r 0); [|destruct (Rgt_dec r 0); [|lra]].
      - rewrite Rabs_left; lra.
      - rewrite Rabs_right; lra. }
    split.
    + constructor; [|assumption]. rewrite Hstep.
      pose proof (Rmin_r (Rabs r) dt_max).
      pose proof (Rmin_glb_lt (Rabs r) dt_max 0 Hpos Hmax). lra.
    + cbn [length]. rewrite S_INR.
      destruct (Rle_dec (Rabs r) dt_max) as [Hle|Hgt].
      * assert (r - spec_step dt_max r = 0)%R as H0.
        { unfold spec_step. rewrite Rmin_left by lra. rewrite Rsign_abs. lra. }
        rewrite H0 in Hsteps. inversion Hsteps; [|contradiction].
        cbn. lra.
      * assert (Rabs (r - spec_step dt_max r) = Rabs r - dt_max)%R as Hrem.
        { unfold spec_step, Rsign. rewrite Rmin_right by lra.
          destruct (Rlt_dec r 0); [|destruct (Rgt_dec r 0); [|lra]].
          - rewrite (Rabs_left r) in * by lra. rewrite Rabs_left; lra.
          - rewrite (Rabs_right r) in * by lra. rewrite Rabs_right; lra. }
        rewrite Hrem in IHcount. lra.
Qed.
End ExactLoopMore.

(** X1: whenever [Physics.advance] returns, with any physics, solver and
    body, the time it returns is the start time plus the requested
    duration; so two advances by half a duration end at the time of one
    advance by the whole. *)
Theorem Physics_advance_time_additive `{Body B} (self : Physics.Physics)
    (fuel : nat) (t dt t' : R) (body body' : B) :
  Physics.advance self fuel t body dt = Some (Ok (t', body')) →
  t' = (t + dt)%R
  ∧ ∀ fuel1 fuel2 t1 t2 b1 b2,
      Physics.advance self fuel1 t body (dt / 2) = Some (Ok (t1, b1)) →
      Physics.advance self fuel2 t1 b1 (dt / 2) = Some (Ok (t2, b2)) →
      t2 = t'.
Proof.
  intros Hrun. unfold Physics.advance in *.
  pose proof (Solver_advance_keeps_time (diff_eq self) (solver self)) as Hkeep.
  apply (advance_loop_time _ _ _ _ Hkeep) in Hrun. split; [assumption|].
  intros fuel1 fuel2 t1 t2 b1 b2 H1 H2.
  apply (advance_loop_time _ _ _ _ Hkeep) in H1, H2. lra.
Qed.

Lemma Physics_advance_time_additive_witness :
  let self := LogisticPopGrowth_init Euler 1 100 in
  let body := mkPopulationBody (Num 10) in
  ∃ t' body',
    Physics.advance self 1 0 body 0.001 = Some (Ok (t', body'))
    ∧ t' = (0 + 0.001)%R
    ∧ ∀ fuel1 fuel2 t1 t2 b1 b2,
        Physics.advance self fuel1 0 body (0.001 / 2) = Some (Ok (t1, b1)) →
        Physics.advance self fuel2 t1 b1 (0.001 / 2) = Some (Ok (t2, b2)) →
        t2 = t'.
Proof.
  intros self body.
  assert (Hrun : Physics.advance self 1 0 body 0.001
                 = Some (Ok ((0 + 0.001)%R,
                             mkPopulationBody
                               (Num (10 + 1 * 10 * (1 - 10 / 100) * 0.001))))).
  { unfold Physics.advance. apply advance_loop_one_turn with
      (s1 := Num (10 + 1 * 10 * (1 - 10 / 100) * 0.001)).
    - lra.
    - cbn. unfold default_dt_max. rewrite Rabs_right; lra.
    - cbn [Solver.advance solver diff_eq law self LogisticPopGrowth_init
           Physics_init get_state PopulationBody_Body P body].
      unfold Euler_advance. rewrite LogisticPopGrowth_diff_eq_Num by lra.
      reflexivity.
    - reflexivity. }
  eexists _, _. split; [exact Hrun|].
  exact (Physics_advance_time_additive self 1 0 0.001 _ body _ Hrun).
Defined.

(** X2: with [dt_max <= 0] and a non-zero duration [Physics.advance]
    never returns a time and a body: on every budget it is still running or
    has raised. *)
Theorem Physics_advance_nonpositive_dt_max `{Body B} (self : Physics.Physics)
    (dt : R) :
  (dt_max self <= 0)%R → dt ≠ 0%R →
  ∀ fuel t (body : B) r,
    Physics.advance self fuel t body dt = Some r → ∃ e, r = Raise e.
Proof.
  intros Hmax Hne fuel t body r Hrun. unfold Physics.advance in Hrun.
  by eapply advance_loop_nonpositive_dt_max.
Qed.

Lemma Physics_advance_nonpositive_dt_max_witness :
  let self := {| solver := Euler; dt_max := 0; law := LogisticPopGrowthLaw 1 100 |} in
  (dt_max self <= 0)%R ∧ 1%R ≠ 0%R
  ∧ ∀ fuel t (body : PopulationBody) r,
      Physics.advance self fuel t body 1 = Some r → ∃ e, r = Raise e.
Proof.
  intros self.
  assert (Hmax : (dt_max self <= 0)%R) by (cbn; lra).
  assert (Hne : 1%R ≠ 0%R) by lra.
  split; [exact Hmax|]. split; [exact Hne|].
  exact (Physics_advance_nonpositive_dt_max self 1 Hmax Hne).
Defined.

(** X3: over the reals, with [dt_max > 0], [Physics.advance] calls the
    solver once per substep, in order, as many times as [dt_max] goes into
    the magnitude of the duration, rounded up, and never with a step longer
    than [dt_max] or equal to zero. *)
Theorem Physics_advance_substep_count `{Body B} (self : Physics.Physics)
    (t dt : R) (body : B) :
  (0 < dt_max self)%R →
  ∃ steps,
    (∃ N, ∀ fuel, N ≤ fuel →
       Physics.advance self fuel t body dt
       = Some (run_steps (Solver.advance (diff_eq self) (solver self))
                 get_state set_state t body steps))
    ∧ Forall (λ s, 0 < Rabs s <= dt_max self)%R steps
    ∧ ((INR (length steps) - 1) * dt_max self < Rabs dt
       <= INR (length steps) * dt_max self)%R.
Proof.
  intros Hmax.
  destruct (duration_bounded (dt_max self) Hmax dt) as [N HN].
  destruct (advance_loop_bounded (Solver.advance (diff_eq self) (solver self))
              get_state set_state (dt_max self) Hmax N dt HN)
    as (steps & Hsteps & _ & Hrun).
  exists steps. split.
  { exists N. intros fuel Hfuel. unfold Physics.advance. by apply Hrun. }
  by apply substeps_of_count.
Qed.

Lemma Physics_advance_substep_count_witness :
  let self := CentralGravity_init RK4 default_planetMass default_gravConstant in
  let body := GravBody_init 1 0 0 0 2 0 3 in
  ∃ steps,
    (∃ N, ∀ fuel, N ≤ fuel →
       Physics.advance self fuel 0 body 0.01
       = Some (run_steps (Solver.advance (diff_eq self) (solver self))
                 get_state set_state 0%R body steps))
    ∧ Forall (λ s, 0 < Rabs s <= dt_max self)%R steps
    ∧ ((INR (length steps) - 1) * dt_max self < Rabs 0.01
       <= INR (length steps) * dt_max self)%R.
Proof.
  intros self body.
  apply (Physics_advance_substep_count self 0 0.01 body).
  cbn. unfold default_dt_max. lra.
Defined.

(** ** Gravity bodies under the three schemes *)

(** X4: a [GravBody] that is not at the origin cannot be advanced under
    central gravity with Euler or RK2: its state has seven components and
    the derivative six, so the first substep of any non-zero duration raises
    [ValueError]. *)
Theorem CentralGravity_Euler_RK2_raise (M G t dt : R) (fuel : nat) (body : GravBody) :
  dt ≠ 0%R → ¬ (x body = 0 ∧ y body = 0 ∧ z body = 0)%R →
  Physics.advance (CentralGravity_init Euler M G) (S fuel) t body dt
  = Some (Raise ValueError)
  ∧ Physics.advance (CentralGravity_init RK2 M G) (S fuel) t body dt
    = Some (Raise ValueError).
Proof.
  intros Hne Hpos. apply sum_squares_pos in Hpos. unfold Physics.advance.
  destruct (central_gravity_euler_seven G M t
              (substep (num := R) default_dt_max dt)
              (x body) (y body) (z body) (vx body) (vy body) (vz body) (m body) Hpos)
    as [HE HR].
  split; cbn [advance_loop f_gt f_abs f_zero R_Float];
    rewrite Rgtb_true by (by apply Rabs_pos_lt);
    cbn [Solver.advance solver diff_eq law dt_max CentralGravity_init Physics_init
         get_state GravBody_Body];
    unfold Body.state; [rewrite HE|rewrite HR]; reflexivity.
Qed.

Lemma CentralGravity_Euler_RK2_raise_witness :
  let body := GravBody_init 1 0 0 0 2 0 3 in
  0.01%R ≠ 0%R ∧ ¬ (x body = 0 ∧ y body = 0 ∧ z body = 0)%R
  ∧ Physics.advance (CentralGravity_init Euler 1 (4 * PI ^ 2)) 1 0 body 0.01
    = Some (Raise ValueError)
  ∧ Physics.advance (CentralGravity_init RK2 1 (4 * PI ^ 2)) 1 0 body 0.01
    = Some (Raise ValueError).
Proof.
  intros body.
  assert (Hne : 0.01%R ≠ 0%R) by lra.
  assert (Hpos : ¬ (x body = 0 ∧ y body = 0 ∧ z body = 0)%R).
  { cbn [body GravBody_init x]. lra. }
  split; [assumption|]. split; [assumption|].
  exact (CentralGravity_Euler_RK2_raise 1 (4 * PI ^ 2) 0 0.01 0 body Hne Hpos).
Defined.

(** ** Motion in the plane *)

Lemma planar6_six (a : list R) : planar6 a → length a = 6.
Proof. by intros (x & y & vx & vy & ->). Qed.

Lemma CentralGravity_planar6 (G M t : R) (a : list R) :
  planar6 a →
  CentralGravity_diff_eq G M t (Arr a) = Raise ZeroDivisionError
  ∨ ∃ k, CentralGravity_diff_eq G M t (Arr a) = Ok (Arr k) ∧ planar6 k.
Proof.
  intros (x & y & vx & vy & ->).
  destruct (Rlt_dec 0 (x ^ 2 + y ^ 2 + 0 ^ 2)) as [Hpos|Hpos].
  - right. eexists. split; [by apply CentralGravity_diff_eq_Ok|].
    eexists _, _, _, _. do 5 f_equal. f_equal. unfold Rdiv. ring.
  - left. by apply CentralGravity_diff_eq_origin.
Qed.

Lemma planar6_scale (c : R) (a : list R) :
  planar6 a → planar6 ((λ x, c * x)%R <$> a) ∧ planar6 ((λ x, x * c)%R <$> a).
Proof.
  intros (x & y & vx & vy & ->). split; eexists _, _, _, _; cbn;
    rewrite ?Rmult_0_r, ?Rmult_0_l; reflexivity.
Qed.

Lemma planar6_add (a b : list R) :
  planar6 a → planar6 b → ∃ c, add (Arr a) (Arr b) = Ok (Arr c) ∧ planar6 c.
Proof.
  intros (x & y & vx & vy & ->) (x' & y' & vx' & vy' & ->).
  eexists. split; [reflexivity|]. eexists _, _, _, _. cbn.
  rewrite !Rplus_0_l. reflexivity.
Qed.

(** An RK4 step under central gravity keeps a state in the plane. *)
Lemma RK4_advance_planar (G M t step m0 : R) (a : list R) :
  planar6 a →
  RK4_advance (CentralGravity_diff_eq G M) t (Arr (a ++ [m0])) step
  = Raise ZeroDivisionError
  ∨ ∃ a', RK4_advance (CentralGravity_diff_eq G M) t (Arr (a ++ [m0])) step
          = Ok ((t + step)%R, Arr (a' ++ [m0]))
          ∧ planar6 a'.
Proof.
  apply RK4_advance_outcome.
  - apply planar6_six.
  - intros t0 a0. apply CentralGravity_planar6.
  - intros c a0. apply planar6_scale.
  - apply planar6_add.
Qed.

Lemma RK4_advance_six (G M t step m0 : R) (a : list R) :
  length a = 6 →
  RK4_advance (CentralGravity_diff_eq G M) t (Arr (a ++ [m0])) step
  = Raise ZeroDivisionError
  ∨ ∃ a', RK4_advance (CentralGravity_diff_eq G M) t (Arr (a ++ [m0])) step
          = Ok ((t + step)%R, Arr (a' ++ [m0]))
          ∧ length a' = 6.
Proof.
  apply (RK4_advance_outcome _ _ (λ a, length a = 6)).
  - done.
  - intros t0 a0. apply CentralGravity_diff_eq_outcome.
  - intros c a0 Ha0. by rewrite !length_fmap.
  - intros a0 b0 Ha0 Hb0. destruct (add_Arr_same a0 b0) as (c & E & Hc); [congruence|].
    exists c. split; [assumption|congruence].
Qed.

(** One RK4 step of a gravity body: unless a stage evaluates the force at
    the origin it returns, the state it returns can be assigned, the mass
    is the mass, and a body in the plane stays in the plane. *)
Lemma RK4_GravBody_step (G M t step : R) (b : GravBody) :
  RK4_advance (CentralGravity_diff_eq G M) t (Body.state b) step
  = Raise ZeroDivisionError
  ∨ ∃ fn b',
      RK4_advance (CentralGravity_diff_eq G M) t (Body.state b) step
      = Ok ((t + step)%R, Arr fn)
      ∧ Body.state_set b (Arr fn) = Ok b'
      ∧ m b' = m b ∧ (planar b → planar b').
Proof.
  unfold Body.state.
  destruct (Req_dec_T (z b) 0) as [Hz|Hz];
    [destruct (Req_dec_T (vz b) 0) as [Hvz|Hvz]|].
  - rewrite Hz, Hvz.
    destruct (RK4_advance_planar G M t step (m b) [x b; y b; 0; vx b; vy b; 0]%R)
      as [E|(a' & E & (x' & y' & vx' & vy' & ->))]; [by eexists _, _, _, _| |].
    + left. exact E.
    + right. cbn [app] in E. eexists _, _. split; [exact E|].
      split; [reflexivity|]. split; [reflexivity|]. intros _. by split.
  - destruct (RK4_advance_six G M t step (m b) [x b; y b; z b; vx b; vy b; vz b])
      as [E|(a' & E & Ha')]; [reflexivity| |].
    + left. exact E.
    + right. destruct a' as [|a0 [|a1 [|a2 [|a3 [|a4 [|a5 [|]]]]]]]; try discriminate Ha'.
      cbn [app] in E. eexists _, _. split; [exact E|].
      split; [reflexivity|]. split; [reflexivity|]. intros [_ Hvz']. contradiction.
  - destruct (RK4_advance_six G M t step (m b) [x b; y b; z b; vx b; vy b; vz b])
      as [E|(a' & E & Ha')]; [reflexivity| |].
    + left. exact E.
    + right. destruct a' as [|a0 [|a1 [|a2 [|a3 [|a4 [|a5 [|]]]]]]]; try discriminate Ha'.
      cbn [app] in E. eexists _, _. split; [exact E|].
      split; [reflexivity|]. split; [reflexivity|]. intros [Hz' _]. contradiction.
Qed.

(** The step of a turning body returns. *)
Lemma RK4_GravBody_step_turning (G M t step : R) (b : GravBody) :
  turning b →
  ∃ fn b',
    RK4_advance (CentralGravity_diff_eq G M) t (Body.state b) step
    = Ok ((t + step)%R, Arr fn)
    ∧ Body.state_set b (Arr fn) = Ok b'
    ∧ m b' = m b ∧ (planar b → planar b').
Proof.
  intros Hb.
  destruct (RK4_advance_turning G M t step (x b) (y b) (z b) (vx b) (vy b) (vz b)
              (m b) Hb) as [fn Hfn].
  destruct (RK4_GravBody_step G M t step b) as [E|H]; [|exact H].
  unfold Body.state in E. rewrite Hfn in E. discriminate E.
Qed.

Lemma run_steps_GravBody (G M : R) (steps : list R) :
  ∀ t b,
    run_steps (Solver.advance (CentralGravity_diff_eq G M) RK4)
      (@get_state GravBody _) (@set_state GravBody _) t b steps
    = Raise ZeroDivisionError
    ∨ ∃ t' b',
        run_steps (Solver.advance (CentralGravity_diff_eq G M) RK4)
          (@get_state GravBody _) (@set_state GravBody _) t b steps = Ok (t', b')
        ∧ m b' = m b ∧ (planar b → planar b').
Proof.
  induction steps as [|step steps IH]; intros t b.
  - right. exists t, b. by cbn.
  - cbn [run_steps Solver.advance get_state set_state GravBody_Body].
    destruct (RK4_GravBody_step G M t step b)
      as [E|(fn & b1 & Hadv & Hset & Hm & Hp)].
    + left. by rewrite E.
    + rewrite Hadv, Hset.
      destruct (IH (t + step)%R b1) as [E|(t' & b' & Hrun & Hm' & Hp')].
      * by left.
      * right. exists t', b'. split; [exact Hrun|]. split; [congruence|]. auto.
Qed.

(** A gravity body under central gravity and RK4: on every budget from
    one that depends on the duration only, [Physics.advance] has come to
    its end, with the body advanced unless a stage evaluated the force at
    the origin. *)
Lemma Physics_advance_GravBody (self : Physics.Physics) (G M dt : R) :
  solver self = RK4 → law self = CentralGravityLaw G M → (0 < dt_max self)%R →
  ∃ N, ∀ fuel t (b : GravBody), N ≤ fuel →
    Physics.advance self fuel t b dt = Some (Raise ZeroDivisionError)
    ∨ ∃ b', Physics.advance self fuel t b dt = Some (Ok ((t + dt)%R, b'))
            ∧ m b' = m b ∧ (planar b → planar b').
Proof.
  intros Hs Hl Hmax.
  destruct (duration_bounded (dt_max self) Hmax dt) as [N HN].
  exists N. intros fuel t b Hfuel. unfold Physics.advance, diff_eq.
  rewrite Hs, Hl.
  destruct (advance_loop_bounded (Solver.advance (CentralGravity_diff_eq G M) RK4)
              (@get_state GravBody _) (@set_state GravBody _)
              (dt_max self) Hmax N dt HN) as (steps & _ & _ & Hrun).
  pose proof (Hrun fuel t b Hfuel) as Hloop.
  destruct (run_steps_GravBody G M steps t b) as [E|(t' & b' & Hok & Hm & Hp)].
  - left. by rewrite Hloop, E.
  - right. exists b'. rewrite Hok in Hloop.
    pose proof Hloop as Htime.
    apply advance_loop_time in Htime; [|apply Solver_advance_keeps_time].
    subst t'. by rewrite Hloop.
Qed.

(** Within [dt_max] the advance is one step at most, and the step of a
    turning body returns. *)
Lemma Physics_advance_GravBody_turning (self : Physics.Physics) (G M dt : R) :
  solver self = RK4 → law self = CentralGravityLaw G M →
  (Rabs dt <= dt_max self)%R →
  ∀ fuel t (b : GravBody), 1 ≤ fuel → turning b →
    ∃ b', Physics.advance self fuel t b dt = Some (Ok ((t + dt)%R, b'))
          ∧ m b' = m b ∧ (planar b → planar b').
Proof.
  intros Hs Hl Hle fuel t b Hfuel Hb. unfold Physics.advance, diff_eq.
  rewrite Hs, Hl. destruct fuel as [|fuel]; [lia|].
  destruct (Req_dec_T dt 0) as [->|Hne].
  - exists b. cbn [advance_loop f_gt f_abs f_zero R_Float].
    rewrite Rabs_R0, Rgtb_false by lra. rewrite Rplus_0_r. by split.
  - destruct (RK4_GravBody_step_turning G M t dt b Hb)
      as (fn & b' & Hadv & Hset & Hm & Hp).
    exists b'. split; [|by split].
    by apply advance_loop_one_turn with (s1 := Arr fn).
Qed.

(** The loop of [Model.advance] over bodies each of which is advanced,
    unless ([bad]) a stage evaluates the force at the origin. *)
Lemma advance_bodies_GravBody (self : Physics.Physics) (fuel : nat) (time t : R)
    (Q : GravBody → Prop) (bad : Prop) :
  (∀ b : GravBody, Q b →
     (bad ∧ Physics.advance self fuel time b t = Some (Raise ZeroDivisionError))
     ∨ ∃ b', Physics.advance self fuel time b t = Some (Ok ((time + t)%R, b'))
             ∧ m b' = m b ∧ (planar b → planar b')) →
  ∀ (l : list nat) (tn : option R) (bs : list GravBody),
    NoDup l → (∀ i, i ∈ l → ∃ b, bs !! i = Some b ∧ Q b) →
    (bad ∧ advance_bodies self fuel time t (tn, bs) l = Some (Raise ZeroDivisionError))
    ∨ ∃ bs',
        advance_bodies self fuel time t (tn, bs) l
        = Some (Ok (match l with [] => tn | _ => Some (time + t)%R end, bs'))
        ∧ length bs' = length bs ∧ m <$> bs' = m <$> bs
        ∧ (Forall planar bs → Forall planar bs').
Proof.
  intros Hadv. induction l as [|i l IH]; intros tn bs Hnd Hl.
  - right. exists bs. by cbn.
  - apply NoDup_cons in Hnd as [Hi Hnd].
    destruct (Hl i) as (b & Hb & HQ); [by left|].
    cbn [advance_bodies]. unfold advance_body, list_getitem. rewrite Hb.
    destruct (Hadv b HQ) as [[Hbad E]|(b' & Hrun & Hm & Hp)].
    { left. rewrite E. by split. }
    rewrite Hrun.
    destruct (IH (Some (time + t)%R) (<[i := b']> bs) Hnd)
      as [[Hbad E]|(bs' & Hrest & Hlen & Hms & Hps)].
    { intros j Hj. destruct (Hl j) as (bj & Hbj & HQj); [by right|].
      exists bj. split; [|assumption].
      rewrite list_lookup_insert_ne; [assumption|]. intros ->. contradiction. }
    { left. by split. }
    right. exists bs'. rewrite Hrest. split.
    { by destruct l. }
    rewrite Hlen, length_insert. split; [done|]. split.
    + rewrite Hms, list_fmap_insert, Hm. apply list_insert_id.
      by rewrite list_lookup_fmap, Hb.
    + intros Hall. apply Hps. apply Forall_insert; [assumption|].
      apply Hp. rewrite Forall_lookup in Hall. by eapply Hall.
Qed.

Lemma seq_places {A : Type} (bs : list A) (Q : A → Prop) :
  Forall Q bs →
  NoDup (seq 0 (length bs))
  ∧ ∀ i, i ∈ seq 0 (length bs) → ∃ b, bs !! i = Some b ∧ Q b.
Proof.
  intros Hall. split; [apply NoDup_seq|].
  intros i Hi. apply elem_of_seq in Hi.
  destruct (lookup_lt_is_Some_2 bs i) as [b Hb]; [lia|].
  exists b. split; [assumption|]. rewrite Forall_lookup in Hall. by eapply Hall.
Qed.

(** [Model.advance] under central gravity and RK4. *)
Lemma Model_advance_GravBody (self : Model) (fuel : nat) (t : R)
    (Q : GravBody → Prop) (bad : Prop) :
  (∀ b : GravBody, Q b →
     (bad ∧ Physics.advance (physics self) fuel (time self) b t
            = Some (Raise ZeroDivisionError))
     ∨ ∃ b', Physics.advance (physics self) fuel (time self) b t
             = Some (Ok ((time self + t)%R, b'))
             ∧ m b' = m b ∧ (planar b → planar b')) →
  bodies self ≠ [] → Forall Q (bodies self) →
  (bad ∧ Model.advance fuel self t = Some (Raise ZeroDivisionError))
  ∨ ∃ bodies',
      Model.advance fuel self t
      = Some (Ok ((time self + t)%R,
                  {| bodies := bodies'; physics := physics self;
                     time := (time self + t)%R |}))
      ∧ length bodies' = length (bodies self)
      ∧ m <$> bodies' = m <$> bodies self
      ∧ (Forall planar (bodies self) → Forall planar bodies').
Proof.
  intros Hadv Hne HQ.
  destruct (seq_places (bodies self) Q HQ) as [Hnd Hl].
  destruct (advance_bodies_GravBody (physics self) fuel (time self) t Q bad Hadv
              (seq 0 (length (bodies self))) None (bodies self) Hnd Hl)
    as [[Hbad E]|(bs' & Hrun & Hlen & Hms & Hps)].
  - left. split; [assumption|]. unfold Model.advance. by rewrite E.
  - right. exists bs'. unfold Model.advance. rewrite Hrun.
    destruct (bodies self) as [|b0 bs]; [contradiction|]. by cbn.
Qed.

(** X5: a model with at least one body, central gravity, RK4 and
    [dt_max > 0] is advanced by every duration, unless a stage of the
    scheme evaluates the force exactly at the origin, a division by zero:
    from some budget on [Model.advance] has either stopped there or returns
    the old time plus the duration and sets the clock to it, with as many
    bodies as before and every mass unchanged; it raises nothing else.  A
    duration within [dt_max] is one step for each body, and the step of a
    turning body, whose position and velocity are not collinear, meets the
    origin at no stage: a model of turning bodies is advanced. *)
Theorem Model_advance_outcome (self : Model) (G M t : R) :
  solver (physics self) = RK4 →
  law (physics self) = CentralGravityLaw G M →
  (0 < dt_max (physics self))%R →
  bodies self ≠ [] →
  (∃ N, ∀ fuel, N ≤ fuel →
     Model.advance fuel self t = Some (Raise ZeroDivisionError)
     ∨ ∃ bodies',
         Model.advance fuel self t
         = Some (Ok ((time self + t)%R,
                     {| bodies := bodies'; physics := physics self;
                        time := (time self + t)%R |}))
         ∧ length bodies' = length (bodies self)
         ∧ m <$> bodies' = m <$> bodies self)
  ∧ ((Rabs t <= dt_max (physics self))%R → Forall turning (bodies self) →
     ∀ fuel, 1 ≤ fuel →
       ∃ bodies',
         Model.advance fuel self t
         = Some (Ok ((time self + t)%R,
                     {| bodies := bodies'; physics := physics self;
                        time := (time self + t)%R |}))
         ∧ length bodies' = length (bodies self)
         ∧ m <$> bodies' = m <$> bodies self).
Proof.
  intros Hs Hl Hmax Hne. split.
  - destruct (Physics_advance_GravBody (physics self) G M t Hs Hl Hmax) as [N HN].
    exists N. intros fuel Hfuel.
    destruct (Model_advance_GravBody self fuel t (λ _, True) True)
      as [[_ E]|(bs' & Hrun & Hlen & Hms & _)].
    + intros b _. destruct (HN fuel (time self) b Hfuel) as [E|H]; [left|right]; done.
    + assumption.
    + by apply Forall_true.
    + by left.
    + right. by exists bs'.
  - intros Hle Hturn fuel Hfuel.
    destruct (Model_advance_GravBody self fuel t turning False)
      as [[[] _]|(bs' & Hrun & Hlen & Hms & _)].
    + intros b Hb. right.
      by apply (Physics_advance_GravBody_turning (physics self) G M t Hs Hl Hle).
    + assumption.
    + assumption.
    + by exists bs'.
Qed.

Lemma one_body_turning : Forall turning (bodies (super one_body_model)).
Proof.
  repeat constructor. unfold turning. cbn [GravBody_init x y z vx vy vz].
  intros (_ & _ & H). lra.
Qed.

Lemma Model_advance_outcome_witness :
  let self := super one_body_model in
  (∃ N, ∀ fuel, N ≤ fuel →
     Model.advance fuel self 0.01 = Some (Raise ZeroDivisionError)
     ∨ ∃ bodies',
         Model.advance fuel self 0.01
         = Some (Ok ((time self + 0.01)%R,
                     {| bodies := bodies'; physics := physics self;
                        time := (time self + 0.01)%R |}))
         ∧ length bodies' = length (bodies self)
         ∧ m <$> bodies' = m <$> bodies self)
  ∧ (∃ bodies',
       Model.advance 1 self 0.001
       = Some (Ok ((time self + 0.001)%R,
                   {| bodies := bodies'; physics := physics self;
                      time := (time self + 0.001)%R |}))
       ∧ length bodies' = length (bodies self)
       ∧ m <$> bodies' = m <$> bodies self).
Proof.
  intros self.
  assert (Hmax : (0 < dt_max (physics self))%R) by (cbn; unfold default_dt_max; lra).
  assert (Hne : bodies self ≠ []) by discriminate.
  split.
  - exact (proj1 (Model_advance_outcome self default_gravConstant default_planetMass
                    0.01 eq_refl eq_refl Hmax Hne)).
  - apply (proj2 (Model_advance_outcome self default_gravConstant default_planetMass
                    0.001 eq_refl eq_refl Hmax Hne)).
    + cbn. unfold default_dt_max. rewrite Rabs_right; lra.
    + exact one_body_turning.
    + lia.
Defined.

(** X6: a model without bodies cannot be advanced: the loop over the
    bodies never binds the new time, and [Model.advance] raises
    [UnboundLocalError] on every duration; an orbit model built from empty
    lists is such a model. *)
Theorem Model_advance_empty (self : Model) (fuel : nat) (t : R) :
  bodies self = [] →
  Model.advance fuel self t = Some (Raise UnboundLocalError).
Proof. intros Hb. unfold Model.advance. rewrite Hb. reflexivity. Qed.

Lemma Model_advance_empty_witness :
  ∃ self,
    OrbitModel_init [] [] [] [] = Ok self
    ∧ Model.advance 5 (super self) 0.01 = Some (Raise UnboundLocalError).
Proof.
  eexists. split; [reflexivity|].
  apply Model_advance_empty. reflexivity.
Defined.

(** X7: an orbit model that can be advanced stays so.  From some budget on,
    [OrbitModel_advance] by any duration has either stopped at a stage that
    evaluates the force exactly at the origin, a division by zero, or
    returns the old time plus the duration and leaves a model with that
    clock, the same dictionary, the same masses, every body still in the
    plane [z = 0] with [vz = 0], every cached magnitude consistent, and
    every name still bound to a body.  Within [dt_max], with every body
    turning, it is the latter. *)
Theorem OrbitModel_advance_keeps_ready (self : OrbitModel) (t : R) :
  orbit_ready self →
  (∃ N, ∀ fuel, N ≤ fuel →
     OrbitModel_advance fuel self t = Some (Raise ZeroDivisionError)
     ∨ ∃ self',
         OrbitModel_advance fuel self t
         = Some (Ok ((time (super self) + t)%R, self'))
         ∧ time (super self') = (time (super self) + t)%R
         ∧ dic self' = dic self
         ∧ m <$> bodies (super self') = m <$> bodies (super self)
         ∧ orbit_ready self')
  ∧ ((Rabs t <= dt_max (physics (super self)))%R →
     Forall turning (bodies (super self)) →
     ∀ fuel, 1 ≤ fuel →
       ∃ self',
         OrbitModel_advance fuel self t
         = Some (Ok ((time (super self) + t)%R, self'))
         ∧ time (super self') = (time (super self) + t)%R
         ∧ dic self' = dic self
         ∧ m <$> bodies (super self') = m <$> bodies (super self)
         ∧ orbit_ready self').
Proof.
  intros (Hs & (G & M & Hl) & Hmax & Hne & Hplanar & Hwf).
  assert (Hready : ∀ fuel bs',
            Model.advance fuel (super self) t
            = Some (Ok ((time (super self) + t)%R,
                        {| bodies := bs'; physics := physics (super self);
                           time := (time (super self) + t)%R |})) →
            length bs' = length (bodies (super self)) →
            m <$> bs' = m <$> bodies (super self) →
            Forall planar bs' →
            ∃ self',
              OrbitModel_advance fuel self t
              = Some (Ok ((time (super self) + t)%R, self'))
              ∧ time (super self') = (time (super self) + t)%R
              ∧ dic self' = dic self
              ∧ m <$> bodies (super self') = m <$> bodies (super self)
              ∧ orbit_ready self').
  { intros fuel bs' Hrun Hlen Hms Hps.
    assert (Hadv : OrbitModel_advance fuel self t
                   = Some (Ok ((time (super self) + t)%R,
                               {| super := {| bodies := bs';
                                              physics := physics (super self);
                                              time := (time (super self) + t)%R |};
                                  dic := dic self |}))).
    { unfold OrbitModel_advance. by rewrite Hrun. }
    eexists. split; [exact Hadv|]. cbn [super time dic bodies physics].
    split; [reflexivity|]. split; [reflexivity|]. split; [assumption|].
    unfold orbit_ready. cbn [super time dic bodies physics].
    split; [assumption|]. split; [by exists G, M|]. split; [assumption|].
    split.
    { intros ->. cbn in Hlen.
      destruct (bodies (super self)); [contradiction|discriminate]. }
    split; [assumption|].
    by apply (OrbitModel_advance_wf fuel self t _ _ Hwf Hadv). }
  split.
  - destruct (Physics_advance_GravBody (physics (super self)) G M t Hs Hl Hmax)
      as [N HN].
    exists N. intros fuel Hfuel.
    destruct (Model_advance_GravBody (super self) fuel t (λ _, True) True)
      as [[_ E]|(bs' & Hrun & Hlen & Hms & Hps)].
    + intros b _.
      destruct (HN fuel (time (super self)) b Hfuel) as [E|H]; [left|right]; done.
    + assumption.
    + by apply Forall_true.
    + left. unfold OrbitModel_advance. by rewrite E.
    + right. apply (Hready fuel bs'); auto.
  - intros Hle Hturn fuel Hfuel.
    destruct (Model_advance_GravBody (super self) fuel t turning False)
      as [[[] _]|(bs' & Hrun & Hlen & Hms & Hps)].
    + intros b Hb. right.
      by apply (Physics_advance_GravBody_turning (physics (super self)) G M t
                  Hs Hl Hle).
    + assumption.
    + assumption.
    + apply (Hready fuel bs'); auto.
Qed.

Lemma one_body_model_ready : orbit_ready one_body_model.
Proof.
  split; [reflexivity|]. split; [by eexists _, _|].
  split; [cbn; unfold default_dt_max; lra|]. split; [discriminate|].
  split; [repeat constructor|]. split.
  - repeat constructor.
  - intros name p Hp. cbn [one_body_model dic] in Hp.
    apply lookup_singleton_Some in Hp as [_ <-]. cbn. lia.
Qed.

Lemma OrbitModel_advance_keeps_ready_witness :
  orbit_ready one_body_model
  ∧ (∃ N, ∀ fuel, N ≤ fuel →
       OrbitModel_advance fuel one_body_model 0.01 = Some (Raise ZeroDivisionError)
       ∨ ∃ self',
           OrbitModel_advance fuel one_body_model 0.01
           = Some (Ok ((time (super one_body_model) + 0.01)%R, self'))
           ∧ time (super self') = (time (super one_body_model) + 0.01)%R
           ∧ dic self' = dic one_body_model
           ∧ m <$> bodies (super self') = m <$> bodies (super one_body_model)
           ∧ orbit_ready self')
  ∧ (∃ self',
       OrbitModel_advance 1 one_body_model 0.001
       = Some (Ok ((time (super one_body_model) + 0.001)%R, self'))
       ∧ time (super self') = (time (super one_body_model) + 0.001)%R
       ∧ dic self' = dic one_body_model
       ∧ m <$> bodies (super self') = m <$> bodies (super one_body_model)
       ∧ orbit_ready self').
Proof.
  split; [exact one_body_model_ready|]. split.
  - exact (proj1 (OrbitModel_advance_keeps_ready one_body_model 0.01
                    one_body_model_ready)).
  - apply (proj2 (OrbitModel_advance_keeps_ready one_body_model 0.001
                    one_body_model_ready)).
    + cbn. unfold default_dt_max. rewrite Rabs_right; lra.
    + exact one_body_turning.
    + lia.
Defined.

Lemma bind_names_is_Some (els : list elements) :
  ∀ k d name, name ∈ (el_name <$> els) → is_Some (bind_names k els d !! name).
Proof.
  induction els as [|el0 els IH]; intros k d name Hin; [by apply elem_of_nil in Hin|].
  cbn [bind_names]. destruct (decide (name ∈ (el_name <$> els))) as [Hin'|Hnot].
  - by apply IH.
  - rewrite fmap_cons in Hin. apply elem_of_cons in Hin as [->|Hin]; [|contradiction].
    rewrite bind_names_notin, lookup_insert_eq by assumption. by eexists.
Qed.

(** A body at perihelion with a speed that is not zero is turning. *)
Lemma perihelion_body_turning (el : elements) :
  admissible el → real_speed el → el_e el ≠ (-1)%R → turning (perihelion_body el).
Proof.
  intros [Hne Ha] [Hlo Hhi] Hm1. unfold turning, perihelion_body, GravBody_init.
  cbn [x y z vx vy vz]. intros (_ & _ & H).
  assert (Hgt : (-1 < el_e el)%R).
  { destruct Hlo as [Hlt|Heq]; [assumption|]. exfalso. by apply Hm1. }
  assert (Hq : (0 < 4 * PI ^ 2 * (1 + el_e el) / ((1 - el_e el) * el_a el))%R).
  { apply Rdiv_lt_0_compat; [|nra].
    apply Rmult_lt_0_compat; [pose proof PI_RGT_0; nra|lra]. }
  apply sqrt_lt_R0 in Hq.
  rewrite Rmult_0_l, Rminus_0_r in H. apply Rmult_integral in H. nra.
Qed.

(** X8: from a non-empty list of admissible orbital elements whose
    speeds are real numbers (every eccentricity in [[-1, 1)])
    [OrbitModel_init] builds a model that can be advanced: RK4 on central
    gravity with [dt_max = 0.001], every body in the plane, every magnitude
    consistent, the clock at zero, and the name of every element bound to a
    body; and, no eccentricity being [-1], every body turning.  With a
    speed that is not real, the model the program builds holds a [nan] and
    is none over the reals. *)
Theorem OrbitModel_init_ready (els : list elements) :
  Forall admissible els → els ≠ [] →
  (Forall real_speed els →
   ∃ self,
     OrbitModel_init (el_a <$> els) (el_e <$> els) (el_mass <$> els) (el_name <$> els)
     = Ok self
     ∧ orbit_ready self
     ∧ time (super self) = 0%R
     ∧ dt_max (physics (super self)) = 0.001%R
     ∧ (∀ el, el ∈ els →
          ∃ p b, get_body self (el_name el) = (Ok p, self)
                 ∧ bodies (super self) !! p = Some b)
     ∧ (Forall (λ el, el_e el ≠ (-1)%R) els → Forall turning (bodies (super self))))
  ∧ (¬ Forall real_speed els →
     OrbitModel_init (el_a <$> els) (el_e <$> els) (el_mass <$> els) (el_name <$> els)
     = Raise NotReal).
Proof.
  intros Hok Hne. split; [|by apply OrbitModel_init_not_real].
  intros Hreal. eexists. split; [by apply OrbitModel_init_spec|].
  assert (Hwf := OrbitModel_init_wf els _ Hok (OrbitModel_init_spec els Hok Hreal)).
  cbn [super bodies physics time dic Model_init].
  split; [|split; [reflexivity|split; [reflexivity|split]]].
  - split; [reflexivity|]. split; [by eexists _, _|].
    split; [cbn; unfold default_dt_max; lra|]. cbn [super bodies Model_init].
    split; [by destruct els|]. split; [|assumption].
    apply Forall_fmap, Forall_forall. intros el _. split; reflexivity.
  - intros el Hel. unfold get_body, dict_getitem. cbn [dic].
    destruct (bind_names 0 els ∅ !! el_name el) as [p|] eqn:Hp.
    + destruct Hwf as [_ Hdic]. pose proof (Hdic _ _ Hp) as Hlt.
      cbn [super bodies Model_init] in Hlt.
      destruct (lookup_lt_is_Some_2 _ _ Hlt) as [b Hb]. by exists p, b.
    + destruct (bind_names_is_Some els 0 ∅ (el_name el)) as [p Hp'].
      { apply list_elem_of_fmap. by exists el. }
      congruence.
  - intros Hm1. apply Forall_fmap, Forall_forall. intros el Hel.
    rewrite Forall_forall in Hok, Hreal, Hm1.
    apply perihelion_body_turning; auto.
Qed.

Lemma OrbitModel_init_ready_witness :
  ∃ self,
    OrbitModel_init (el_a <$> [mercury]) (el_e <$> [mercury])
      (el_mass <$> [mercury]) (el_name <$> [mercury])
    = Ok self
    ∧ orbit_ready self
    ∧ time (super self) = 0%R
    ∧ dt_max (physics (super self)) = 0.001%R
    ∧ (∀ el, el ∈ [mercury] →
         ∃ p b, get_body self (el_name el) = (Ok p, self)
                ∧ bodies (super self) !! p = Some b)
    ∧ (Forall (λ el, el_e el ≠ (-1)%R) [mercury] →
       Forall turning (bodies (super self))).
Proof.
  apply (OrbitModel_init_ready [mercury]).
  - constructor; [|constructor]. split; cbn [mercury el_e el_a]; lra.
  - discriminate.
  - constructor; [|constructor]. split; cbn [mercury el_e]; lra.
Defined.

(** ** Construction of orbit models: when it returns, when it raises *)

Lemma for_each_app {S I : Type} (body : S → I → result S) (l1 l2 : list I) :
  ∀ s, for_each body s (l1 ++ l2) = for_each body s l1 ≫= λ s, for_each body s l2.
Proof.
  induction l1 as [|i l1 IH]; intros s; [reflexivity|].
  cbn [app for_each]. destruct (body s i) as [s1|e]; cbn [mbind result_bind];
    [apply IH|reflexivity].
Qed.

Lemma real_bodies_length (l : list (option GravBody)) :
  ∀ l', real_bodies l = Ok l' → length l' = length l.
Proof.
  induction l as [|[b|] l IH]; intros l' H; cbn [real_bodies] in H;
    [by inversion H| |discriminate].
  destruct (real_bodies l) as [l0|]; [|discriminate].
  cbn [mbind result_bind mret result_ret] in H. inversion H; subst.
  cbn. f_equal. by apply IH.
Qed.

Lemma OrbitModel_init_body_Ok (aL eL mL : list R) (nL : list string)
    (bs bs' : list (option GravBody)) (d d' : gmap string nat) (i : nat) :
  OrbitModel_init_body aL eL mL nL (bs, d) i = Ok (bs', d') →
  ∃ a e mass name,
    aL !! i = Some a ∧ eL !! i = Some e ∧ mL !! i = Some mass
    ∧ nL !! i = Some name ∧ e ≠ 1%R ∧ a ≠ 0%R
    ∧ length bs' = S (length bs).
Proof.
  unfold OrbitModel_init_body, list_getitem, float_div. intros H.
  destruct (aL !! i) as [a|]; [|discriminate].
  destruct (eL !! i) as [e|]; [|discriminate]. cbn [mbind result_bind] in H.
  destruct (Req_dec_T (1 - e) 0) as [|He]; [discriminate|].
  cbn [mbind result_bind] in H.
  destruct (Req_dec_T a 0) as [|Ha]; [discriminate|].
  cbn [mbind result_bind] in H.
  destruct (mL !! i) as [mass|]; [|discriminate]. cbn [mbind result_bind] in H.
  destruct (nL !! i) as [name|]; [|discriminate].
  cbn [mbind result_bind mret result_ret] in H. inversion H; subst.
  exists a, e, mass, name. repeat split; try done; [lra|].
  rewrite length_app. cbn. lia.
Qed.

Lemma for_each_init_body_Ok (aL eL mL : list R) (nL : list string) (n : nat) :
  ∀ k bs d bs' d',
    for_each (OrbitModel_init_body aL eL mL nL) (bs, d) (seq k n) = Ok (bs', d') →
    length bs' = length bs + n
    ∧ ∀ i, k ≤ i < k + n →
        ∃ a e, aL !! i = Some a ∧ eL !! i = Some e ∧ is_Some (mL !! i)
               ∧ is_Some (nL !! i) ∧ e ≠ 1%R ∧ a ≠ 0%R.
Proof.
  induction n as [|n IH]; intros k bs d bs' d' H.
  - cbn in H. inversion H; subst. split; [lia|]. intros i Hi. lia.
  - cbn [seq for_each] in H.
    destruct (OrbitModel_init_body aL eL mL nL (bs, d) k) as [[bs1 d1]|] eqn:Ebody;
      [|discriminate].
    cbn [mbind result_bind] in H.
    apply OrbitModel_init_body_Ok in Ebody
      as (a & e & mass & name & Ha & He & Hm & Hn & Hne & Hna & Hlen).
    apply IH in H as [Hlen' Hall]. split; [lia|].
    intros i Hi. destruct (decide (i = k)) as [->|Hik].
    + exists a, e. by rewrite Hm, Hn.
    + apply Hall. lia.
Qed.

(** X9: [OrbitModel_init] returns a model only if the lists of
    eccentricities, masses and names are at least as long as the list of
    semi-major axes, no eccentricity in use is 1 and no axis in use is 0;
    the model then has one body per axis, and entries of the other lists
    past the length of the axes are not read. *)
Theorem OrbitModel_init_returns_only_if (aL eL mL : list R) (nL : list string)
    (self : OrbitModel) :
  OrbitModel_init aL eL mL nL = Ok self →
  length aL ≤ length eL ∧ length aL ≤ length mL ∧ length aL ≤ length nL
  ∧ length (bodies (super self)) = length aL
  ∧ (∀ i a e, aL !! i = Some a → eL !! i = Some e → e ≠ 1%R ∧ a ≠ 0%R)
  ∧ OrbitModel_init aL (take (length aL) eL) (take (length aL) mL)
      (take (length aL) nL) = Ok self.
Proof.
  intros H. unfold OrbitModel_init in H.
  destruct (for_each _ _ _) as [[bs d]|] eqn:Erun; [|discriminate].
  cbn [mbind result_bind] in H.
  destruct (real_bodies bs) as [bds|] eqn:Ereal; [|discriminate].
  cbn [mbind result_bind mret result_ret] in H. inversion H; subst. clear H.
  apply real_bodies_length in Ereal as Hreal.
  pose proof Erun as Hrun. apply for_each_init_body_Ok in Erun as [Hlen Hall].
  assert (Hge : ∀ {A} (l : list A),
            (∀ i, i < length aL → is_Some (l !! i)) → length aL ≤ length l).
  { intros A l Hl. destruct (decide (length aL ≤ length l)) as [|Hn]; [done|].
    destruct (Hl (length l)) as [x Hx]; [lia|].
    apply lookup_lt_Some in Hx. lia. }
  split; [|split; [|split; [|split; [|split]]]].
  - apply Hge. intros i Hi. destruct (Hall i) as (a & e & _ & -> & _); [lia|done].
  - apply Hge. intros i Hi. destruct (Hall i) as (a & e & _ & _ & ? & _); [lia|done].
  - apply Hge. intros i Hi. destruct (Hall i) as (a & e & _ & _ & _ & ? & _); [lia|done].
  - cbn [super bodies Model_init]. cbn in Hlen. lia.
  - intros i a e Ha He. apply lookup_lt_Some in Ha as Hi.
    destruct (Hall i) as (a' & e' & Ha' & He' & _ & _ & ? & ?); [lia|].
    by simplify_eq.
  - unfold OrbitModel_init.
    assert (Hsame : ∀ l s,
              Forall (λ i, i < length aL) l →
              for_each (OrbitModel_init_body aL (take (length aL) eL)
                          (take (length aL) mL) (take (length aL) nL)) s l
              = for_each (OrbitModel_init_body aL eL mL nL) s l).
    { induction l as [|i l IH]; intros s Hl; [reflexivity|].
      apply Forall_cons in Hl as [Hi Hl]. cbn [for_each].
      assert (OrbitModel_init_body aL (take (length aL) eL)
                (take (length aL) mL) (take (length aL) nL) s i
              = OrbitModel_init_body aL eL mL nL s i) as ->.
      { unfold OrbitModel_init_body, list_getitem. destruct s as [bs0 d0].
        by rewrite !lookup_take_lt. }
      destruct (OrbitModel_init_body aL eL mL nL s i); cbn [mbind result_bind];
        [by apply IH|reflexivity]. }
    rewrite Hsame, Hrun; [cbn [mbind result_bind]; by rewrite Ereal|].
    apply Forall_forall. intros i Hi. apply elem_of_seq in Hi. lia.
Qed.

Lemma mercury_admissible : admissible mercury.
Proof. split; cbn [mercury el_e el_a]; lra. Qed.

Lemma earth_admissible : admissible earth.
Proof. split; cbn [earth el_e el_a]; lra. Qed.

Lemma mercury_real_speed : real_speed mercury.
Proof. split; cbn [mercury el_e]; lra. Qed.

Lemma earth_real_speed : real_speed earth.
Proof. split; cbn [earth el_e]; lra. Qed.

Lemma OrbitModel_init_returns_only_if_witness :
  ∃ self,
    OrbitModel_init (el_a <$> [mercury]) (el_e <$> [mercury; earth])
      (el_mass <$> [mercury; earth]) (el_name <$> [mercury; earth]) = Ok self
    ∧ length (el_a <$> [mercury]) ≤ length (el_e <$> [mercury; earth])
    ∧ length (el_a <$> [mercury]) ≤ length (el_mass <$> [mercury; earth])
    ∧ length (el_a <$> [mercury]) ≤ length (el_name <$> [mercury; earth])
    ∧ length (bodies (super self)) = length (el_a <$> [mercury])
    ∧ (∀ i a e, (el_a <$> [mercury]) !! i = Some a →
                (el_e <$> [mercury; earth]) !! i = Some e → e ≠ 1%R ∧ a ≠ 0%R)
    ∧ OrbitModel_init (el_a <$> [mercury])
        (take (length (el_a <$> [mercury])) (el_e <$> [mercury; earth]))
        (take (length (el_a <$> [mercury])) (el_mass <$> [mercury; earth]))
        (take (length (el_a <$> [mercury])) (el_name <$> [mercury; earth]))
      = Ok self.
Proof.
  assert (H : OrbitModel_init (el_a <$> [mercury]) (el_e <$> [mercury; earth])
                (el_mass <$> [mercury; earth]) (el_name <$> [mercury; earth])
              = Ok {| super := Model_init
                                 (CentralGravity_init RK4 default_planetMass
                                    default_gravConstant)
                                 [perihelion_body mercury];
                      dic := <["Mercury" := 0]> ∅ |}).
  { unfold OrbitModel_init. cbn [fmap list_fmap length seq for_each].
    rewrite (OrbitModel_init_body_spec _ _ _ _ _ _ _ mercury);
      [|reflexivity..|apply mercury_admissible].
    cbn [mbind result_bind app].
    rewrite (built_body_real mercury mercury_admissible mercury_real_speed).
    reflexivity. }
  eexists. split; [exact H|].
  exact (OrbitModel_init_returns_only_if _ _ _ _ _ H).
Defined.

(** X10: when the first element that is not admissible has eccentricity
    one or a zero semi-major axis, [OrbitModel_init] raises
    [ZeroDivisionError] and builds no model, whatever follows it. *)
Theorem OrbitModel_init_ZeroDivisionError (els1 els2 : list elements)
    (el : elements) :
  Forall admissible els1 →
  el_e el = 1%R ∨ el_a el = 0%R →
  let els := els1 ++ el :: els2 in
  OrbitModel_init (el_a <$> els) (el_e <$> els) (el_mass <$> els) (el_name <$> els)
  = Raise ZeroDivisionError.
Proof.
  intros Hok Hbad els. unfold OrbitModel_init.
  rewrite length_fmap. unfold els at 5. rewrite length_app. cbn [length].
  rewrite seq_app, for_each_app.
  rewrite (for_each_init_body _ _ _ _ els1 0 [] ∅); [|reflexivity| |assumption].
  - cbn [mbind result_bind Nat.add seq for_each app length].
    assert (Hbody : ∀ s, OrbitModel_init_body (el_a <$> els) (el_e <$> els)
                           (el_mass <$> els) (el_name <$> els) s (length els1)
                         = Raise ZeroDivisionError).
    { intros [bs d]. unfold OrbitModel_init_body, list_getitem, float_div.
      assert (Hat : els !! length els1 = Some el).
      { unfold els. by rewrite list_lookup_middle. }
      rewrite !list_lookup_fmap, Hat.
      cbn [fmap option_fmap option_map mbind result_bind].
      destruct (Req_dec_T (1 - el_e el) 0) as [|He]; [reflexivity|].
      cbn [mbind result_bind].
      destruct (Req_dec_T (el_a el) 0) as [|Ha]; [reflexivity|].
      destruct Hbad; [lra|contradiction]. }
    rewrite Hbody. reflexivity.
  - intros j el' Hj. cbn [Nat.add]. rewrite !list_lookup_fmap. unfold els.
    rewrite lookup_app_l by (by eapply lookup_lt_Some). by rewrite Hj.
Qed.

Lemma OrbitModel_init_ZeroDivisionError_witness :
  let els := [mercury] ++ parabola :: [earth] in
  OrbitModel_init (el_a <$> els) (el_e <$> els) (el_mass <$> els) (el_name <$> els)
  = Raise ZeroDivisionError.
Proof.
  apply (OrbitModel_init_ZeroDivisionError [mercury] [earth] parabola).
  - constructor; [apply mercury_admissible|constructor].
  - left. reflexivity.
Defined.

Lemma bind_names_app (l1 l2 : list elements) :
  ∀ k d, bind_names k (l1 ++ l2) d = bind_names (k + length l1) l2 (bind_names k l1 d).
Proof.
  induction l1 as [|el l1 IH]; intros k d; cbn [app bind_names length].
  - by rewrite Nat.add_0_r.
  - rewrite IH. f_equal. lia.
Qed.

(** X11: when names repeat, every body is still built and kept in the
    list, and a name resolves to the last body built under it; that is, in
    the model built when the speeds are real numbers, the only one there is
    over the reals. *)
Theorem OrbitModel_init_last_name_wins (l1 l2 : list elements) (el : elements) :
  Forall admissible (l1 ++ el :: l2) →
  el_name el ∉ (el_name <$> l2) →
  let els := l1 ++ el :: l2 in
  (Forall real_speed els →
   ∃ self,
     OrbitModel_init (el_a <$> els) (el_e <$> els) (el_mass <$> els) (el_name <$> els)
     = Ok self
     ∧ get_body self (el_name el) = (Ok (length l1), self)
     ∧ bodies (super self) !! length l1 = Some (perihelion_body el)
     ∧ length (bodies (super self)) = length l1 + S (length l2))
  ∧ (¬ Forall real_speed els →
     OrbitModel_init (el_a <$> els) (el_e <$> els) (el_mass <$> els) (el_name <$> els)
     = Raise NotReal).
Proof.
  intros Hok Hnot els. split; [|by apply OrbitModel_init_not_real].
  intros Hreal. eexists. split; [by apply OrbitModel_init_spec|].
  unfold get_body, dict_getitem. cbn [dic super bodies Model_init].
  split; [|split].
  - unfold els. rewrite bind_names_app. cbn [bind_names Nat.add].
    rewrite bind_names_notin, lookup_insert_eq by assumption. reflexivity.
  - unfold els. by rewrite list_lookup_fmap, list_lookup_middle.
  - unfold els. rewrite length_fmap, length_app. reflexivity.
Qed.

Lemma OrbitModel_init_last_name_wins_witness :
  let els := [mercury] ++ mercury :: [earth] in
  ∃ self,
    OrbitModel_init (el_a <$> els) (el_e <$> els) (el_mass <$> els) (el_name <$> els)
    = Ok self
    ∧ get_body self (el_name mercury) = (Ok (length [mercury]), self)
    ∧ bodies (super self) !! length [mercury] = Some (perihelion_body mercury)
    ∧ length (bodies (super self)) = length [mercury] + S (length [earth]).
Proof.
  apply (OrbitModel_init_last_name_wins [mercury] [earth] mercury).
  - repeat constructor; cbn [mercury earth el_e el_a]; lra.
  - cbn. intros Hin. apply list_elem_of_singleton in Hin. discriminate.
  - repeat constructor; cbn [mercury earth el_e]; lra.
Defined.

(** X12: the energy [total_energy] reports for a body as built, with
    eccentricity in [-1, 1) and distinct names, is
    [GM*m*(3+e)/(2*a*(1-e))] with [GM = 4*pi^2]: the potential term enters
    with a plus sign, so the reported energy of a bound orbit is positive
    for a positive mass.  The model is the one built when the speeds of all
    its bodies are real numbers, the only one there is over the reals. *)
Theorem total_energy_at_perihelion (els : list elements) (i : nat) (el : elements) :
  Forall admissible els → NoDup (el_name <$> els) → els !! i = Some el →
  (-1 <= el_e el < 1)%R →
  (Forall real_speed els →
   ∃ self,
     OrbitModel_init (el_a <$> els) (el_e <$> els) (el_mass <$> els) (el_name <$> els)
     = Ok self
     ∧ total_energy self (el_name el)
       = (Some (Ok (4 * PI ^ 2 * el_mass el * (3 + el_e el)
                    / (2 * el_a el * (1 - el_e el)))%R), self))
  ∧ (¬ Forall real_speed els →
     OrbitModel_init (el_a <$> els) (el_e <$> els) (el_mass <$> els) (el_name <$> els)
     = Raise NotReal).
Proof.
  intros Hok Hnd Hel [Hlo Hhi]. split; [|by apply OrbitModel_init_not_real].
  intros Hreal. eexists. split; [by apply OrbitModel_init_spec|].
  rewrite Forall_lookup in Hok. destruct (Hok i el Hel) as [_ Hpos].
  unfold total_energy, get_body, dict_getitem. cbn [dic super bodies Model_init].
  rewrite (bind_names_lookup els 0 ∅ i el) by done. cbn [Nat.add].
  rewrite list_lookup_fmap, Hel. cbn [fmap option_fmap option_map].
  cbn [Body.state getitem lookup list_lookup mbind result_bind mret result_ret
       perihelion_body GravBody_init m pos vel r v].
  set (q := (4 * PI ^ 2 * (1 + el_e el) / ((1 - el_e el) * el_a el))%R).
  assert (Hq : (0 <= q)%R).
  { unfold q. apply Rmult_le_pos.
    - pose proof (pow2_ge_0 PI). nra.
    - left. apply Rinv_0_lt_compat. nra. }
  assert (Hr : sqrt (square (el_a el * (1 - el_e el)) + square 0 + square 0)
               = (el_a el * (1 - el_e el))%R).
  { unfold square. rewrite Rmult_0_l, !Rplus_0_r. apply sqrt_square. nra. }
  assert (Hv : sqrt (square 0 + square (sqrt q) + square 0) = sqrt q).
  { unfold square. rewrite Rmult_0_l, Rplus_0_r, Rplus_0_l.
    apply sqrt_square. apply sqrt_pos. }
  rewrite Hr, Hv. do 3 f_equal.
  replace (sqrt q ^ 2)%R with q by (cbn; rewrite Rmult_1_r, sqrt_sqrt; done).
  replace 0.5%R with (/ 2)%R by lra. unfold q. field. split; lra.
Qed.

Lemma total_energy_at_perihelion_witness :
  ∃ self,
    OrbitModel_init (el_a <$> [mercury; earth]) (el_e <$> [mercury; earth])
      (el_mass <$> [mercury; earth]) (el_name <$> [mercury; earth])
    = Ok self
    ∧ total_energy self (el_name earth)
      = (Some (Ok (4 * PI ^ 2 * el_mass earth * (3 + el_e earth)
                   / (2 * el_a earth * (1 - el_e earth)))%R), self).
Proof.
  apply (total_energy_at_perihelion [mercury; earth] 1 earth).
  - repeat constructor; cbn [mercury earth el_e el_a]; lra.
  - cbn. repeat constructor.
    + intros Hin. apply list_elem_of_singleton in Hin. discriminate.
    + intros Hin. by apply elem_of_nil in Hin.
  - reflexivity.
  - cbn [earth el_e]. lra.
  - repeat constructor; cbn [mercury earth el_e]; lra.
Defined.

(** ** The state of a gravity body *)

(** X13: the [state] setter of a [GravBody] reads the first seven
    components: from a sequence of at least seven it returns a body whose
    state is those seven and whose magnitudes are consistent; on a shorter
    sequence it raises [IndexError]; and assigning a body the state of a
    consistent body makes it that body. *)
Theorem GravBody_state_round_trip (b : GravBody) (f : list R) :
  (7 ≤ length f →
   ∃ b', state_set b (Arr f) = Ok b' ∧ Body.state b' = Arr (take 7 f)
         ∧ consistent b')
  ∧ (length f < 7 → state_set b (Arr f) = Raise IndexError)
  ∧ (∀ b0, consistent b0 → state_set b (Body.state b0) = Ok b0).
Proof.
  split; [|split].
  - intros Hlen. do 7 (destruct f as [|? f]; [cbn in Hlen; lia|]).
    eexists. split; [reflexivity|]. split; [reflexivity|]. split; reflexivity.
  - intros Hlen.
    do 7 (destruct f as [|? f]; [reflexivity|]). cbn in Hlen. lia.
  - intros [x0 y0 z0 vx0 vy0 vz0 m0 r0 v0] [Hr Hv]. cbn in Hr, Hv. subst r0 v0.
    reflexivity.
Qed.

(** ** Vectors: scaling, adding, setting magnitude and angle *)

Lemma Vector_r_sqr (v : Vector.Vector) :
  (Vector.r v * Vector.r v = Vector.x v * Vector.x v + Vector.y v * Vector.y v)%R.
Proof.
  unfold Vector.r, square. apply sqrt_sqrt.
  pose proof (Rle_0_sqr (Vector.x v)). pose proof (Rle_0_sqr (Vector.y v)).
  unfold Rsqr in *. lra.
Qed.

Lemma Vector_r_pos_or_zero (v : Vector.Vector) : (0 <= Vector.r v)%R.
Proof. apply sqrt_pos. Qed.

Lemma Vector_mul_scale (v : Vector.Vector) (c : R) :
  Vector.r (Vector.mul v c) = (Rabs c * Vector.r v)%R.
Proof.
  destruct v as [x y]. unfold Vector.r, Vector.mul, square. cbn [Vector.x Vector.y].
  rewrite <- sqrt_Rsqr_abs, <- sqrt_mult.
  - f_equal. unfold Rsqr. ring.
  - apply Rle_0_sqr.
  - pose proof (Rle_0_sqr x). pose proof (Rle_0_sqr y). unfold Rsqr in *. lra.
Qed.

(** X14: scaling a vector scales its magnitude by the absolute value of
    the factor, the magnitude of a sum is at most the sum of the
    magnitudes, and scaling distributes over the sum. *)
Theorem Vector_mul_add (u v : Vector.Vector) (c : R) :
  Vector.r (Vector.mul v c) = (Rabs c * Vector.r v)%R
  ∧ (Vector.r (Vector.add u v) <= Vector.r u + Vector.r v)%R
  ∧ Vector.mul (Vector.add u v) c = Vector.add (Vector.mul u c) (Vector.mul v c).
Proof.
  split; [apply Vector_mul_scale|]. destruct u as [a b], v as [x y]. split.
  - pose proof (sqrt_cauchy a b x y) as Hcs.
    pose proof (Vector_r_sqr {| Vector.x := a; Vector.y := b |}) as Hu.
    pose proof (Vector_r_sqr {| Vector.x := x; Vector.y := y |}) as Hv.
    pose proof (Vector_r_sqr (Vector.add {| Vector.x := a; Vector.y := b |}
                                {| Vector.x := x; Vector.y := y |})) as Hs.
    pose proof (Vector_r_pos_or_zero
                  (Vector.add {| Vector.x := a; Vector.y := b |}
                     {| Vector.x := x; Vector.y := y |})) as Hs0.
    pose proof (Vector_r_pos_or_zero {| Vector.x := a; Vector.y := b |}) as Hu0.
    pose proof (Vector_r_pos_or_zero {| Vector.x := x; Vector.y := y |}) as Hv0.
    unfold Vector.r, square, Vector.add in *. cbn [Vector.x Vector.y] in *.
    unfold Rsqr in Hcs.
    set (s := sqrt ((a + x) * (a + x) + (b + y) * (b + y))) in *.
    set (p := sqrt (a * a + b * b)) in *.
    set (q := sqrt (x * x + y * y)) in *.
    nra.
  - unfold Vector.mul, Vector.add. cbn [Vector.x Vector.y]. f_equal; ring.
Qed.

(** X15: on a vector of non-zero magnitude, assigning a non-zero
    magnitude [val] scales the vector by [val / r]: the new magnitude is
    the absolute value of [val] (a negative [val] turns the vector round),
    and, when [x] is not zero, the angle is unchanged. *)
Theorem Vector_r_set_scales (v : Vector.Vector) (val : R) :
  Vector.r v ≠ 0%R → val ≠ 0%R →
  Vector.r_set v val = Vector.mul v (val / Vector.r v)
  ∧ Vector.r (Vector.r_set v val) = Rabs val
  ∧ (Vector.x v ≠ 0%R → Vector.theta (Vector.r_set v val) = Vector.theta v).
Proof.
  intros Hr Hval.
  assert (Heq : Vector.r_set v val = Vector.mul v (val / Vector.r v)).
  { unfold Vector.r_set, Vector.mul. cbn [Vector.x Vector.y].
    f_equal; field; split; assumption. }
  split; [assumption|]. rewrite Heq. split.
  - rewrite Vector_mul_scale.
    unfold Rdiv. rewrite Rabs_mult, Rabs_inv.
    rewrite (Rabs_right (Vector.r v)) by (apply Rle_ge, Vector_r_pos_or_zero).
    field. assumption.
  - intros Hx. unfold Vector.theta, Vector.mul. cbn [Vector.x Vector.y].
    do 2 f_equal. field. repeat split; assumption.
Qed.

Lemma Vector_r_set_scales_witness :
  let v := {| Vector.x := 3%R; Vector.y := 4%R |} in
  Vector.r_set v (-10) = Vector.mul v (-10 / Vector.r v)
  ∧ Vector.r (Vector.r_set v (-10)) = Rabs (-10)
  ∧ (Vector.x v ≠ 0%R → Vector.theta (Vector.r_set v (-10)) = Vector.theta v).
Proof.
  intros v. apply (Vector_r_set_scales v (-10)).
  - pose proof (Vector_r_pos v). cbn [v Vector.x] in *. lra.
  - lra.
Defined.

(** X16: assigning an angle keeps the magnitude, whatever the angle; and
    on a vector of non-zero magnitude an angle strictly between -90 and 90
    degrees is read back as assigned. *)
Theorem Vector_theta_set_keeps_r (v : Vector.Vector) (val : R) :
  Vector.r (Vector.theta_set v val) = Vector.r v
  ∧ ((-90 < val < 90)%R → Vector.r v ≠ 0%R →
     Vector.theta (Vector.theta_set v val) = val).
Proof.
  pose proof (Vector_r_pos_or_zero v) as Hr0. split.
  - unfold Vector.theta_set. unfold Vector.r at 1. cbn [Vector.x Vector.y].
    unfold square.
    replace (Vector.r v * cos (Vector.deg2rad val)
             * (Vector.r v * cos (Vector.deg2rad val))
             + Vector.r v * sin (Vector.deg2rad val)
               * (Vector.r v * sin (Vector.deg2rad val)))%R
      with ((Vector.r v)² * ((sin (Vector.deg2rad val))²
                             + (cos (Vector.deg2rad val))²))%R
      by (unfold Rsqr; ring).
    rewrite sin2_cos2, Rmult_1_r. by apply sqrt_Rsqr.
  - intros [Hlo Hhi] Hr. unfold Vector.theta, Vector.theta_set.
    cbn [Vector.x Vector.y].
    assert (Hrange : (- (PI / 2) < Vector.deg2rad val < PI / 2)%R).
    { unfold Vector.deg2rad. pose proof PI_RGT_0. split; nra. }
    pose proof (cos_gt_0 _ (proj1 Hrange) (proj2 Hrange)) as Hcos.
    replace (Vector.r v * sin (Vector.deg2rad val)
             / (Vector.r v * cos (Vector.deg2rad val)))%R
      with (tan (Vector.deg2rad val))
      by (unfold tan; field; split; lra).
    rewrite atan_tan by assumption.
    unfold Vector.rad2deg, Vector.deg2rad. pose proof PI_neq0. field. assumption.
Qed.

(** ** The schemes on uniform gravity and on logistic growth *)

(** X17: [n] Euler steps of size [h] under uniform gravity, from position
    [x] and velocity [v]: the velocity is the exact [v + g*T] for
    [T = n*h], and the position falls short of the exact
    [x + v*T + g*T^2/2] by [g*T*h/2], an error linear in the step. *)
Theorem Euler_uniform_gravity (g h : R) (n : nat) :
  ∀ t x v, ∃ tn xn vn,
    solver_steps (Euler_advance (UniformGravity_diff_eq g)) t (Arr [x; v]) h n
    = Ok (tn, Arr [xn; vn])
    ∧ tn = (t + INR n * h)%R
    ∧ vn = (v + g * (INR n * h))%R
    ∧ (xn - (x + v * (INR n * h) + g * (INR n * h) ^ 2 / 2)
       = - (g * (INR n * h) * h / 2))%R.
Proof.
  unfold solver_steps. induction n as [|n IH]; intros t x v.
  - exists t, x, v. cbn. repeat split; lra.
  - destruct (IH (t + h)%R (x + v * h)%R (v + g * h)%R)
      as (tn & xn & vn & Hrun & Htn & Hvn & Hxn).
    exists tn, xn, vn. split.
    { cbn [replicate run_steps]. exact Hrun. }
    rewrite S_INR. repeat split; [lra|lra|]. nra.
Qed.

(** X18: the midpoint scheme is exact on uniform gravity: after [n] RK2
    steps of size [h] the position is [x + v*T + g*T^2/2] and the velocity
    [v + g*T] for [T = n*h]. *)
Theorem RK2_uniform_gravity_exact (g h : R) (n : nat) :
  ∀ t x v, ∃ tn xn vn,
    solver_steps (RK2_advance (UniformGravity_diff_eq g)) t (Arr [x; v]) h n
    = Ok (tn, Arr [xn; vn])
    ∧ tn = (t + INR n * h)%R
    ∧ vn = (v + g * (INR n * h))%R
    ∧ xn = (x + v * (INR n * h) + g * (INR n * h) ^ 2 / 2)%R.
Proof.
  unfold solver_steps. induction n as [|n IH]; intros t x v.
  - exists t, x, v. cbn. repeat split; lra.
  - destruct (IH (t + h)%R (x + (v + 0.5 * g * h) * h)%R (v + g * h)%R)
      as (tn & xn & vn & Hrun & Htn & Hvn & Hxn).
    exists tn, xn, vn. split.
    { cbn [replicate run_steps]. exact Hrun. }
    rewrite S_INR. repeat split; [lra|lra|]. nra.
Qed.

Lemma Logistic_fixed_step (s : Solver.Solver) (r N p t step : R) :
  N ≠ 0%R → p = 0%R ∨ p = N → s = Euler ∨ s = RK2 →
  Solver.advance (LogisticPopGrowth_diff_eq r N) s t (Num p) step
  = Ok ((t + step)%R, Num p).
Proof.
  intros HN Hp Hs.
  assert (H0 : (r * p * (1 - p / N))%R = 0%R).
  { destruct Hp as [->| ->]; [ring|]. field. assumption. }
  destruct Hs as [-> | ->]; cbn [Solver.advance]; unfold Euler_advance, RK2_advance;
    rewrite LogisticPopGrowth_diff_eq_Num by assumption; rewrite H0;
    cbn [mbind result_bind add smul mulr mret result_ret].
  - do 3 f_equal. ring.
  - replace (p + 0.5 * 0 * step)%R with p by lra.
    rewrite LogisticPopGrowth_diff_eq_Num by assumption. rewrite H0.
    cbn [mbind result_bind add smul mulr mret result_ret]. do 3 f_equal. ring.
Qed.

(** X19: a population at zero, or at the capacity [N] (not zero), stays
    where it is: under logistic growth with Euler or RK2, [Physics.advance]
    by any duration returns, from some budget on, the time advanced by the
    duration and the body unchanged.  With RK4 a population body cannot be
    advanced at all: a scalar state has no index 6, and the first substep of
    a non-zero duration raises [TypeError]. *)
Theorem Logistic_equilibria (s : Solver.Solver) (r N p t dt : R) :
  N ≠ 0%R → p = 0%R ∨ p = N →
  (s = Euler ∨ s = RK2 →
   ∃ N0, ∀ fuel, N0 ≤ fuel →
     Physics.advance (LogisticPopGrowth_init s r N) fuel t
       (mkPopulationBody (Num p)) dt
     = Some (Ok ((t + dt)%R, mkPopulationBody (Num p))))
  ∧ (dt ≠ 0%R →
     ∀ fuel, Physics.advance (LogisticPopGrowth_init RK4 r N) (S fuel) t
               (mkPopulationBody (Num p)) dt
             = Some (Raise TypeError)).
Proof.
  intros HN Hp. split.
  - intros Hs.
    assert (Hmax : (0 < default_dt_max)%R) by (unfold default_dt_max; lra).
    destruct (duration_bounded default_dt_max Hmax dt) as [N0 HN0].
    exists N0. intros fuel Hfuel.
    destruct (advance_loop_bounded
                (Solver.advance (LogisticPopGrowth_diff_eq r N) s)
                (@get_state PopulationBody _) (@set_state PopulationBody _)
                default_dt_max Hmax N0 dt HN0) as (steps & _ & _ & Hrun).
    assert (Hfix : ∀ t0, ∃ t',
              run_steps (Solver.advance (LogisticPopGrowth_diff_eq r N) s)
                (@get_state PopulationBody _) (@set_state PopulationBody _)
                t0 (mkPopulationBody (Num p)) steps
              = Ok (t', mkPopulationBody (Num p))).
    { clear Hrun. induction steps as [|step steps IH]; intros t0.
      - by exists t0.
      - destruct (IH (t0 + step)%R) as [t' Ht']. exists t'.
        cbn [run_steps get_state set_state PopulationBody_Body P].
        by rewrite (Logistic_fixed_step s r N p t0 step HN Hp Hs). }
    destruct (Hfix t) as [t' Ht'].
    pose proof (Hrun fuel t (mkPopulationBody (Num p)) Hfuel) as Hloop.
    rewrite Ht' in Hloop.
    pose proof Hloop as Htime.
    apply advance_loop_time in Htime; [|apply Solver_advance_keeps_time].
    subst t'. exact Hloop.
  - intros Hne fuel. unfold Physics.advance.
    cbn [advance_loop f_gt f_abs f_zero R_Float].
    rewrite Rgtb_true by (by apply Rabs_pos_lt). reflexivity.
Qed.

Lemma Logistic_equilibria_witness :
  (Euler = Euler ∨ Euler = RK2 →
   ∃ N0, ∀ fuel, N0 ≤ fuel →
     Physics.advance (LogisticPopGrowth_init Euler 2 100) fuel 0
       (mkPopulationBody (Num 100)) 1
     = Some (Ok ((0 + 1)%R, mkPopulationBody (Num 100))))
  ∧ (1%R ≠ 0%R →
     ∀ fuel, Physics.advance (LogisticPopGrowth_init RK4 2 100) (S fuel) 0
               (mkPopulationBody (Num 100)) 1
             = Some (Raise TypeError)).
Proof.
  apply (Logistic_equilibria Euler 2 100 100 0 1).
  - lra.
  - right. reflexivity.
Defined.

(** ** The vectorized collection: reading, writing, removing *)

Import Library.GravBodies.

(** X20: after [pop] at row [k], every name that was bound to another row
    still resolves to its own row and its own mass: the row and the mass it
    finds at its new index are the ones it found at its old index. *)
Theorem pop_keeps_rows (self : GravBodies) (k : nat) (name : string) (v : nat) :
  GravBodies_wf self → k < len self →
  _dict self !! name = Some v → v ≠ k →
  ∃ ret self' v',
    pop self (Pos k) = Ok (ret, self')
    ∧ _dict self' !! name = Some v'
    ∧ state self' !! v' = state self !! v
    ∧ mass self' !! v' = mass self !! v
    ∧ ∃ row b self'',
        state self !! v = Some row
        ∧ Library.GravBodies.getitem self' (Name name) = Ok (b, self'')
        ∧ Library.GravBody.state b = row.
Proof.
  intros Hwf Hk Hv Hne.
  destruct (pop_spec self k Hwf Hk) as (row0 & b0 & d' & Hrow0 & Hb0 & Hd' & Hpop).
  destruct Hwf as (Hbl & Hml & Hdl). unfold len in *.
  pose proof (Hdl name v Hv) as Hvlt. cbn in Hvlt.
  set (v' := if decide (k < v) then v - 1 else v).
  assert (Hshift : d' !! name = Some v').
  { rewrite Hd', Hv. cbn. unfold shift, v'.
    destruct (decide (v = k)); [contradiction|]. by destruct (decide (k < v)). }
  assert (Hlook : ∀ {A} (l : list A), delete k l !! v' = l !! v).
  { intros A l. unfold v'. destruct (decide (k < v)).
    - rewrite list_lookup_delete_ge by lia. f_equal. lia.
    - rewrite list_lookup_delete_lt by lia. done. }
  destruct (lookup_lt_is_Some_2 (state self) v Hvlt) as [row Hrow].
  destruct (lookup_lt_is_Some_2 (_bodies self) v) as [b Hb]; [lia|].
  eexists _, _, v'. split; [exact Hpop|]. cbn [state mass _dict _bodies].
  split; [assumption|]. split; [apply Hlook|]. split; [apply Hlook|].
  exists row. eexists _, _. split; [assumption|]. split.
  - unfold Library.GravBodies.getitem, resolve, dict_getitem, list_getitem.
    cbn [state mass _dict _bodies]. rewrite Hshift. cbn [mbind result_bind].
    rewrite !Hlook, Hrow, Hb. reflexivity.
  - reflexivity.
Qed.

Lemma three_bodies_wf : GravBodies_wf three_bodies.
Proof.
  split; [reflexivity|]. split; [reflexivity|].
  cbn [three_bodies _dict]. unfold len. cbn [three_bodies state length].
  repeat (apply map_Forall_insert_2; [lia|]). apply map_Forall_empty.
Qed.

Lemma pop_keeps_rows_witness :
  ∃ ret self' v',
    pop three_bodies (Pos 1) = Ok (ret, self')
    ∧ _dict self' !! "Mars" = Some v'
    ∧ state self' !! v' = state three_bodies !! 2
    ∧ mass self' !! v' = mass three_bodies !! 2
    ∧ ∃ row b self'',
        state three_bodies !! 2 = Some row
        ∧ Library.GravBodies.getitem self' (Name "Mars") = Ok (b, self'')
        ∧ Library.GravBody.state b = row.
Proof.
  apply (pop_keeps_rows three_bodies 1 "Mars" 2).
  - exact three_bodies_wf.
  - unfold len. cbn. lia.
  - vm_compute. reflexivity.
  - lia.
Defined.

(** X21: reading, writing and removing fail alike on a bad index: a name
    the dictionary does not hold raises [KeyError], a position at or past
    the number of rows raises [IndexError], and no collection is returned. *)
Theorem GravBodies_bad_index (self : GravBodies) (body : Library.GravBody.GravBody) :
  (∀ name, _dict self !! name = None →
     Library.GravBodies.getitem self (Name name) = Raise KeyError
     ∧ setitem self (Name name) body = Raise KeyError
     ∧ pop self (Name name) = Raise KeyError)
  ∧ (∀ k, len self ≤ k →
       Library.GravBodies.getitem self (Pos k) = Raise IndexError
       ∧ setitem self (Pos k) body = Raise IndexError
       ∧ pop self (Pos k) = Raise IndexError).
Proof.
  split.
  - intros name Hnone.
    unfold Library.GravBodies.getitem, setitem, pop, resolve, dict_getitem.
    rewrite Hnone. by repeat split.
  - intros k Hk. unfold len in Hk.
    assert (Hget : Library.GravBodies.getitem self (Pos k) = Raise IndexError).
    { unfold Library.GravBodies.getitem, resolve, list_getitem.
      cbn [mbind result_bind]. by rewrite (lookup_ge_None_2 _ _ Hk). }
    split; [assumption|]. split.
    + unfold setitem, resolve, list_getitem. cbn [mbind result_bind].
      by rewrite (lookup_ge_None_2 _ _ Hk).
    + unfold pop, resolve. cbn [mbind result_bind]. by rewrite Hget.
Qed.

Lemma row_assign_same (row v : list R) :
  length v = length row → row_assign row v = Ok v.
Proof.
  intros Hlen. unfold row_assign.
  destruct v as [|c [|c' v]].
  - by destruct (decide (length [] = length row)).
  - destruct row as [|? [|? ?]]; try discriminate Hlen. reflexivity.
  - by destruct (decide (length (c :: c' :: v) = length row)).
Qed.

(** X22: writing a body whose state is as long as the row, at a valid
    position, and reading it back returns that body; the write replaces the
    row and the entry of the list of bodies and nothing else: the other
    rows, the dictionary and the array of masses stay as they were, so the
    mass the array holds at that position is still the mass of the body that
    was there before. *)
Theorem setitem_getitem (self : GravBodies) (k : nat) (row : list R)
    (body : Library.GravBody.GravBody) :
  GravBodies_wf self → state self !! k = Some row →
  length (Library.GravBody.state body) = length row →
  ∃ self',
    setitem self (Pos k) body = Ok self'
    ∧ Library.GravBodies.getitem self' (Pos k) = Ok (body, self')
    ∧ state self' = <[k := Library.GravBody.state body]> (state self)
    ∧ mass self' = mass self
    ∧ _dict self' = _dict self
    ∧ GravBodies_wf self'.
Proof.
  intros (Hbl & Hml & Hdl) Hrow Hlen. unfold len in *.
  pose proof (lookup_lt_Some _ _ _ Hrow) as Hk.
  destruct (lookup_lt_is_Some_2 (_bodies self) k) as [b Hb]; [lia|].
  eexists. split.
  { unfold setitem, resolve, list_getitem. cbn [mbind result_bind].
    rewrite Hrow. cbn [mbind result_bind]. rewrite (row_assign_same _ _ Hlen).
    cbn [mbind result_bind]. rewrite Hb. reflexivity. }
  cbn [state mass _dict _bodies]. split; [|split; [reflexivity|]].
  - unfold Library.GravBodies.getitem, resolve, list_getitem.
    cbn [mbind result_bind state mass _dict _bodies].
    rewrite !list_lookup_insert_eq by lia. cbn [mbind result_bind mret result_ret].
    destruct body as [s0 m0]. cbn [Library.GravBody.state Library.GravBody.mass].
    by rewrite list_insert_insert_eq.
  - split; [reflexivity|]. split; [reflexivity|].
    unfold GravBodies_wf, len. cbn [state mass _dict _bodies].
    rewrite !length_insert. done.
Qed.

Lemma setitem_getitem_witness :
  let body := {| Library.GravBody.state := [5; 0; 0; 0; 1; 0]%R;
                 Library.GravBody.mass := 7%R |} in
  ∃ self',
    setitem three_bodies (Pos 1) body = Ok self'
    ∧ Library.GravBodies.getitem self' (Pos 1) = Ok (body, self')
    ∧ state self' = <[1 := Library.GravBody.state body]> (state three_bodies)
    ∧ mass self' = mass three_bodies
    ∧ _dict self' = _dict three_bodies
    ∧ GravBodies_wf self'.
Proof.
  intros body.
  apply (setitem_getitem three_bodies 1 [1; 0; 0; 0; 0; 0]%R body).
  - exact three_bodies_wf.
  - reflexivity.
  - reflexivity.
Defined.

(** X23: reading an item, by position or by a name bound to it, hands out
    the body with the current row as its state and leaves the matrix, the
    masses and the dictionary as they were; reading it again gives the same
    body and changes nothing. *)
Theorem getitem_reads_row (self : GravBodies) (k : nat) :
  GravBodies_wf self → k < len self →
  ∃ row b self',
    state self !! k = Some row
    ∧ Library.GravBodies.getitem self (Pos k) = Ok (b, self')
    ∧ Library.GravBody.state b = row
    ∧ state self' = state self ∧ mass self' = mass self
    ∧ _dict self' = _dict self
    ∧ Library.GravBodies.getitem self' (Pos k) = Ok (b, self')
    ∧ (∀ name, _dict self !! name = Some k →
               Library.GravBodies.getitem self (Name name) = Ok (b, self')).
Proof.
  intros (Hbl & Hml & Hdl) Hk. unfold len in *.
  destruct (lookup_lt_is_Some_2 (state self) k Hk) as [row Hrow].
  destruct (lookup_lt_is_Some_2 (_bodies self) k) as [b Hb]; [lia|].
  assert (Hget : Library.GravBodies.getitem self (Pos k)
                 = Ok ({| Library.GravBody.state := row;
                          Library.GravBody.mass := Library.GravBody.mass b |},
                       {| _bodies := <[k := {| Library.GravBody.state := row;
                                               Library.GravBody.mass :=
                                                 Library.GravBody.mass b |}]>
                                       (_bodies self);
                          state := state self; mass := mass self;
                          _dict := _dict self |})).
  { unfold Library.GravBodies.getitem, resolve, list_getitem.
    cbn [mbind result_bind]. rewrite Hrow, Hb. reflexivity. }
  eexists row, _, _. split; [assumption|]. split; [exact Hget|].
  cbn [state mass _dict _bodies Library.GravBody.state].
  do 4 (split; [reflexivity|]). split.
  - unfold Library.GravBodies.getitem, resolve, list_getitem.
    cbn [mbind result_bind state mass _dict _bodies].
    rewrite Hrow, list_lookup_insert_eq by lia.
    cbn [mbind result_bind mret result_ret Library.GravBody.mass].
    by rewrite list_insert_insert_eq.
  - intros name Hname. rewrite <- Hget.
    unfold Library.GravBodies.getitem at 1. unfold resolve at 1, dict_getitem.
    rewrite Hname. reflexivity.
Qed.

Lemma getitem_reads_row_witness :
  ∃ row b self',
    state three_bodies !! 2 = Some row
    ∧ Library.GravBodies.getitem three_bodies (Pos 2) = Ok (b, self')
    ∧ Library.GravBody.state b = row
    ∧ state self' = state three_bodies ∧ mass self' = mass three_bodies
    ∧ _dict self' = _dict three_bodies
    ∧ Library.GravBodies.getitem self' (Pos 2) = Ok (b, self')
    ∧ (∀ name, _dict three_bodies !! name = Some 2 →
               Library.GravBodies.getitem three_bodies (Name name) = Ok (b, self')).
Proof.
  apply (getitem_reads_row three_bodies 2).
  - exact three_bodies_wf.
  - unfold len. cbn. lia.
Defined.

(** ** The avian and its target *)

(** X24: an [EnragedAvian] built from three-component position and
    velocity: with a three-component target the distance is the Euclidean
    distance between target and avian, never negative, and zero exactly
    when the avian is at the target; the constructor accepts a target of
    any length, and with a target of two components [distance] raises
    [ValueError]. *)
Theorem EnragedAvian_distance (p0 p1 p2 v0 v1 v2 q0 q1 q2 : R) :
  (∃ self d,
     EnragedAvian_init (Arr [p0; p1; p2]) (Arr [v0; v1; v2]) (Arr [q0; q1; q2])
     = Ok self
     ∧ distance self = Some (Ok d)
     ∧ d = sqrt ((q0 - p0) ^ 2 + (q1 - p1) ^ 2 + (q2 - p2) ^ 2)
     ∧ (0 <= d)%R
     ∧ (d = 0%R ↔ q0 = p0 ∧ q1 = p1 ∧ q2 = p2))
  ∧ (∃ self,
       EnragedAvian_init (Arr [p0; p1; p2]) (Arr [v0; v1; v2]) (Arr [q0; q1])
       = Ok self
       ∧ distance self = Some (Raise ValueError))
  ∧ EnragedAvian_init (Arr [p0; p1]) (Arr [v0; v1; v2]) (Arr [q0; q1; q2])
    = Raise IndexError.
Proof.
  split; [|split; [|reflexivity]].
  - eexists _, (sqrt ((q0 - p0) ^ 2 + (q1 - p1) ^ 2 + (q2 - p2) ^ 2)).
    split; [reflexivity|]. split.
    { unfold distance. cbn -[pow]. destruct (decide (3 = 3)) as [_|]; [|done].
      cbn [mbind result_bind mret result_ret norm foldr]. do 3 f_equal. ring. }
    split; [reflexivity|]. split; [apply sqrt_pos|].
    pose proof (pow2_ge_0 (q0 - p0)). pose proof (pow2_ge_0 (q1 - p1)).
    pose proof (pow2_ge_0 (q2 - p2)).
    split.
    + intros Hd. apply sqrt_eq_0 in Hd; [|lra].
      assert ((q0 - p0) ^ 2 = 0)%R by lra. assert ((q1 - p1) ^ 2 = 0)%R by lra.
      assert ((q2 - p2) ^ 2 = 0)%R by lra.
      repeat split; nra.
    + intros (-> & -> & ->).
      replace ((p0 - p0) ^ 2 + (p1 - p1) ^ 2 + (p2 - p2) ^ 2)%R with 0%R by ring.
      apply sqrt_0.
  - eexists. split; [reflexivity|]. unfold distance. cbn -[pow].
    by repeat case_decide.
Qed.

(** ** Logistic growth under Euler: the population stays within capacity *)

(** The substeps of a duration that is not negative are positive. *)
Lemma substeps_of_nonneg (dt_max dt : R) (steps : list R) :
  (0 < dt_max)%R → substeps_of dt_max dt steps → (0 <= dt)%R →
  Forall (λ s, 0 < s <= dt_max)%R steps.
Proof.
  intros Hmax. induction 1 as [|r steps Hr Hsteps IH]; intros Hdt; [constructor|].
  assert (Hpos : (0 < r)%R) by lra.
  assert (Hstep : spec_step dt_max r = Rmin r dt_max).
  { unfold spec_step, Rsign. rewrite (Rabs_right r) by lra.
    destruct (Rlt_dec r 0); [lra|]. destruct (Rgt_dec r 0); lra. }
  pose proof (Rmin_l r dt_max). pose proof (Rmin_r r dt_max).
  pose proof (Rmin_glb_lt r dt_max 0 Hpos Hmax).
  constructor.
  - rewrite Hstep. lra.
  - apply IH. rewrite Hstep. lra.
Qed.

(** One Euler step of logistic growth, from a population within capacity
    and with a step [s] such that [r*s <= 1]. *)
Lemma Logistic_Euler_step (r N p s : R) :
  (0 < N)%R → (0 <= r)%R → (0 < s)%R → (r * s <= 1)%R → (0 <= p <= N)%R →
  let p' := (p + r * p * (1 - p / N) * s)%R in
  (p <= p' <= N)%R ∧ (p < N → p' < N)%R ∧ (0 < p < N → 0 < r → p < p')%R.
Proof.
  intros HN Hr Hs Hrs [Hp0 HpN] p'.
  set (q := (p / N)%R).
  assert (Hq : p = (q * N)%R) by (unfold q; field; lra).
  assert (Hq0 : (0 <= q)%R).
  { unfold q. apply Rmult_le_pos; [assumption|]. left. by apply Rinv_0_lt_compat. }
  assert (Hq1 : (q <= 1)%R) by nra.
  assert (Hgrow : (p' - p = r * s * (q * (1 - q)) * N)%R).
  { unfold p'. fold q. rewrite Hq. ring. }
  assert (Hroom : (N - p' = N * (1 - q) * (1 - r * s * q))%R).
  { unfold p'. fold q. rewrite Hq. ring. }
  assert (Hrs0 : (0 <= r * s)%R) by nra.
  assert (Hrsq : (0 <= r * s * q <= 1)%R) by nra.
  assert (Hqq : (0 <= q * (1 - q))%R) by nra.
  assert (H1 : (0 <= r * s * (q * (1 - q)) * N)%R).
  { apply Rmult_le_pos; [apply Rmult_le_pos|]; lra. }
  assert (H2 : (0 <= N * (1 - q) * (1 - r * s * q))%R).
  { apply Rmult_le_pos; [apply Rmult_le_pos|]; lra. }
  split; [lra|]. split.
  - intros Hlt. assert (Hq1' : (q < 1)%R) by nra.
    assert (Hrsq' : (r * s * q < 1)%R) by nra.
    assert (0 < N * (1 - q) * (1 - r * s * q))%R; [|lra].
    apply Rmult_lt_0_compat; [apply Rmult_lt_0_compat|]; lra.
  - intros [Hp0' HpN'] Hr'. assert (Hq0' : (0 < q)%R) by nra.
    assert (Hq1' : (q < 1)%R) by nra.
    assert (Hrs' : (0 < r * s)%R) by (apply Rmult_lt_0_compat; lra).
    assert (Hqq' : (0 < q * (1 - q))%R) by (apply Rmult_lt_0_compat; lra).
    assert (0 < r * s * (q * (1 - q)) * N)%R; [|lra].
    apply Rmult_lt_0_compat; [apply Rmult_lt_0_compat|]; lra.
Qed.

Lemma Logistic_Euler_run (r N dt_max : R) (steps : list R) :
  (0 < N)%R → (0 <= r)%R → (r * dt_max <= 1)%R →
  Forall (λ s, 0 < s <= dt_max)%R steps →
  ∀ t p, (0 <= p <= N)%R →
    ∃ t' p',
      run_steps (Solver.advance (LogisticPopGrowth_diff_eq r N) Euler)
        (@get_state PopulationBody _) (@set_state PopulationBody _)
        t (mkPopulationBody (Num p)) steps
      = Ok (t', mkPopulationBody (Num p'))
      ∧ (p <= p' <= N)%R ∧ (p < N → p' < N)%R
      ∧ (0 < p < N → 0 < r → steps ≠ [] → p < p')%R.
Proof.
  intros HN Hr Hmax. induction 1 as [|s steps [Hs0 Hs1] Hsteps IH]; intros t p Hp.
  - exists t, p. split; [reflexivity|]. split; [lra|]. split; [done|].
    intros _ _ Hne. contradiction.
  - assert (Hrs : (r * s <= 1)%R) by nra.
    destruct (Logistic_Euler_step r N p s HN Hr Hs0 Hrs Hp) as (Hb & Hlt & Hgt).
    destruct (IH (t + s)%R (p + r * p * (1 - p / N) * s)%R) as
      (t' & p' & Hrun & Hb' & Hlt' & Hgt'); [lra|].
    exists t', p'. split.
    { cbn [run_steps Solver.advance get_state set_state PopulationBody_Body P].
      unfold Euler_advance. rewrite LogisticPopGrowth_diff_eq_Num by lra.
      exact Hrun. }
    split; [lra|]. split.
    + intros HpN. apply Hlt'. by apply Hlt.
    + intros Hin Hr' _. pose proof (Hgt Hin Hr'). lra.
Qed.

(** X25: Euler keeps a logistic population within its capacity.  With
    [N > 0], a growth rate [0 <= r <= 1000] (so that [r*dt_max <= 1] for the
    default [dt_max]) and a population [0 <= p <= N], [Physics.advance] by
    any duration that is not negative returns the time advanced and a
    population between [p] and [N]: it never decreases and never overshoots
    the capacity.  Started strictly inside with [r > 0] and a positive
    duration it grows strictly and stays strictly below [N]. *)
Theorem Logistic_Euler_bounded (r N p t dt : R) :
  (0 < N)%R → (0 <= r <= 1000)%R → (0 <= p <= N)%R → (0 <= dt)%R →
  ∃ N0 p',
    (∀ fuel, N0 ≤ fuel →
       Physics.advance (LogisticPopGrowth_init Euler r N) fuel t
         (mkPopulationBody (Num p)) dt
       = Some (Ok ((t + dt)%R, mkPopulationBody (Num p'))))
    ∧ (p <= p' <= N)%R
    ∧ (0 < p < N → 0 < r → 0 < dt → p < p' < N)%R.
Proof.
  intros HN [Hr0 Hr1] Hp Hdt.
  assert (Hmax : (0 < default_dt_max)%R) by (unfold default_dt_max; lra).
  assert (Hrmax : (r * default_dt_max <= 1)%R) by (unfold default_dt_max; lra).
  destruct (duration_bounded default_dt_max Hmax dt) as [N0 HN0].
  destruct (advance_loop_bounded
              (Solver.advance (LogisticPopGrowth_diff_eq r N) Euler)
              (@get_state PopulationBody _) (@set_state PopulationBody _)
              default_dt_max Hmax N0 dt HN0) as (steps & Hsteps & _ & Hrun).
  pose proof (substeps_of_nonneg _ _ _ Hmax Hsteps Hdt) as Hall.
  destruct (Logistic_Euler_run r N default_dt_max steps HN Hr0 Hrmax Hall t p Hp)
    as (t' & p' & Hok & Hb & Hlt & Hgt).
  assert (Ht' : t' = (t + dt)%R).
  { pose proof (Hrun N0 t (mkPopulationBody (Num p)) (Nat.le_refl _)) as Hloop.
    rewrite Hok in Hloop.
    apply advance_loop_time in Hloop; [assumption|apply Solver_advance_keeps_time]. }
  subst t'. exists N0, p'. split; [|split; [assumption|]].
  - intros fuel Hfuel. unfold Physics.advance.
    pose proof (Hrun fuel t (mkPopulationBody (Num p)) Hfuel) as Hloop.
    rewrite Hok in Hloop. exact Hloop.
  - intros Hin Hr' Hdt'. split; [|apply Hlt; lra].
    apply Hgt; [assumption..|].
    intros ->. inversion Hsteps. lra.
Qed.

Lemma Logistic_Euler_bounded_witness :
  ∃ N0 p',
    (∀ fuel, N0 ≤ fuel →
       Physics.advance (LogisticPopGrowth_init Euler 2 100) fuel 0
         (mkPopulationBody (Num 10)) 1
       = Some (Ok ((0 + 1)%R, mkPopulationBody (Num p'))))
    ∧ (10 <= p' <= 100)%R
    ∧ (0 < 10 < 100 → 0 < 2 → 0 < 1 → 10 < p' < 100)%R.
Proof.
  apply (Logistic_Euler_bounded 2 100 10 0 1); lra.
Defined.

(** ** Orbit models: the bodies as built, under the model's own physics *)

(** X26: a body as [OrbitModel_init] builds it, for [a > 0] and
    [-1 <= e < 1], in the model built when the speeds of all its bodies are
    real numbers (the only one there is over the reals), sits at the distance [a*(1-e)] with its velocity at right
    angles to its position and a speed that satisfies the vis-viva equation
    [v^2 = GM*(2/r - 1/a)], [GM = 4*pi^2]; the derivative the model's own
    physics computes on its first six components is the velocity followed by
    an acceleration [GM/r^2] towards the origin; and for [e = 0] that
    acceleration is [v^2/r], the one of a circular orbit. *)
Theorem OrbitModel_init_vis_viva (els : list elements) (i : nat) (el : elements)
    (t : R) :
  Forall admissible els → els !! i = Some el → (-1 <= el_e el < 1)%R →
  (Forall real_speed els →
   ∃ self b,
     OrbitModel_init (el_a <$> els) (el_e <$> els) (el_mass <$> els) (el_name <$> els)
     = Ok self
     ∧ bodies (super self) !! i = Some b
     ∧ pos b = (el_a el * (1 - el_e el))%R
     ∧ (vel b ^ 2 = 4 * PI ^ 2 * (2 / pos b - 1 / el_a el))%R
     ∧ (x b * vx b + y b * vy b + z b * vz b = 0)%R
     ∧ (slice_to (Body.state b) 6 ≫= Physics.diff_eq (physics (super self)) t)
       = Ok (Arr [0; vel b; 0; - (4 * PI ^ 2 / pos b ^ 2); 0; 0]%R)
     ∧ (el_e el = 0%R → (4 * PI ^ 2 / pos b ^ 2 = vel b ^ 2 / pos b)%R))
  ∧ (¬ Forall real_speed els →
     OrbitModel_init (el_a <$> els) (el_e <$> els) (el_mass <$> els) (el_name <$> els)
     = Raise NotReal).
Proof.
  intros Hok Hel [Hlo Hhi]. split; [|by apply OrbitModel_init_not_real].
  intros Hreal.
  pose proof Hok as Hall. rewrite Forall_lookup in Hall.
  destruct (Hall i el Hel) as [_ Ha].
  exists {| super := Model_init
                       (CentralGravity_init RK4 default_planetMass default_gravConstant)
                       (perihelion_body <$> els);
            dic := bind_names 0 els ∅ |}, (perihelion_body el).
  split; [by apply OrbitModel_init_spec|].
  cbn [super bodies physics Model_init].
  split; [by rewrite list_lookup_fmap, Hel|].
  set (r0 := (el_a el * (1 - el_e el))%R).
  set (q := (4 * PI ^ 2 * (1 + el_e el) / ((1 - el_e el) * el_a el))%R).
  assert (Hr0 : (0 < r0)%R) by (unfold r0; nra).
  assert (Hq : (0 <= q)%R).
  { unfold q. apply Rmult_le_pos.
    - pose proof (pow2_ge_0 PI). nra.
    - left. apply Rinv_0_lt_compat. nra. }
  assert (Hpos : pos (perihelion_body el) = r0).
  { unfold pos, perihelion_body, GravBody_init. cbn [r]. fold r0. unfold square.
    rewrite Rmult_0_l, !Rplus_0_r. apply sqrt_square. lra. }
  assert (Hvel : vel (perihelion_body el) = sqrt q).
  { unfold vel, perihelion_body, GravBody_init. cbn [v]. fold q. unfold square.
    rewrite Rmult_0_l, Rplus_0_r, Rplus_0_l. apply sqrt_square, sqrt_pos. }
  assert (Hv2 : (sqrt q ^ 2 = q)%R) by (cbn; rewrite Rmult_1_r, sqrt_sqrt; done).
  rewrite Hpos, Hvel, Hv2.
  split; [reflexivity|]. split.
  { unfold q, r0. field. repeat split; lra. }
  split.
  { cbn [perihelion_body GravBody_init x y z vx vy vz]. ring. }
  split.
  - cbn [perihelion_body GravBody_init Body.state slice_to take mbind result_bind
         Physics.diff_eq law CentralGravity_init Physics_init
         CentralGravity_diff_eq mret result_ret].
    unfold perihelion_body, GravBody_init.
    cbn [x y z vx vy vz]. fold r0 q.
    assert (Hsum : (r0 ^ 2 + 0 ^ 2 + 0 ^ 2)%R = (r0 * r0)%R) by ring.
    rewrite CentralGravity_diff_eq_Ok by (rewrite Hsum; nra).
    rewrite Hsum, power_three_halves by nra.
    rewrite sqrt_square by lra.
    unfold default_gravConstant, default_planetMass.
    do 2 f_equal. repeat f_equal; field; lra.
  - intros He. unfold q, r0. rewrite He. field. lra.
Qed.

Lemma OrbitModel_init_vis_viva_witness :
  ∃ self b,
    OrbitModel_init (el_a <$> [mercury; earth]) (el_e <$> [mercury; earth])
      (el_mass <$> [mercury; earth]) (el_name <$> [mercury; earth])
    = Ok self
    ∧ bodies (super self) !! 1 = Some b
    ∧ pos b = (el_a earth * (1 - el_e earth))%R
    ∧ (vel b ^ 2 = 4 * PI ^ 2 * (2 / pos b - 1 / el_a earth))%R
    ∧ (x b * vx b + y b * vy b + z b * vz b = 0)%R
    ∧ (slice_to (Body.state b) 6 ≫= Physics.diff_eq (physics (super self)) 0%R)
      = Ok (Arr [0; vel b; 0; - (4 * PI ^ 2 / pos b ^ 2); 0; 0]%R)
    ∧ (el_e earth = 0%R → (4 * PI ^ 2 / pos b ^ 2 = vel b ^ 2 / pos b)%R).
Proof.
  apply (OrbitModel_init_vis_viva [mercury; earth] 1 earth 0%R).
  - repeat constructor; cbn [mercury earth el_e el_a]; lra.
  - reflexivity.
  - cbn [earth el_e]. lra.
  - repeat constructor; cbn [mercury earth el_e]; lra.
Defined.
